(** * Lumeo: the player reducer and the Saavn API client

    A shallow embedding of
      - [musicPlayerReducer], the reducer of the music player context,
      - the error classes of src/types/errors.ts,
      - [SaavnApiService]: [enforceRateLimit], [makeRequest],
        [validateAndSanitizeQuery] and the fourteen catalog operations,
      - [useApiCall] and the hooks built on it, the helpers of the player
        components, and the catch-all proxy handler,
    with the properties of the specification stated over them.

    Conventions of the embedding.
      - A JavaScript string is the list of its UTF-16 code units, so that
        [length] is [String.prototype.length].
      - Integer-valued JavaScript numbers (indices, status codes, delays in
        milliseconds) are in [Z]; the two non-numbers an index can become
        ([undefined], [NaN]) are constructors of [jsindex].
      - The value returned by [Math.random()] is a binary64 float and is an
        explicit argument of the reducer.
      - An object is a record with a reference ([song_ref]); [===] and
        [Array.prototype.includes] on objects compare references.
      - Time is a clock in milliseconds that the modelled waits advance:
        a timer fires after exactly its delay, and a fetch that has not
        settled when the abort timer fires is aborted (one that settles at
        that very millisecond is taken to have settled). *)

From Stdlib Require Import String Ascii ZArith NArith Bool List Lia.
From Stdlib Require Import Floats Uint63 DecimalString.
Import ListNotations.

Set Warnings "-register-all".

Set Implicit Arguments.

(* ================================================================== *)
(** ** JavaScript values used by both components *)
(* ================================================================== *)

(** A string as its UTF-16 code units. *)
Definition jsstring : Type := list N.

(** A literal of the source, read as code units (ASCII literals only). *)
Definition js (s : string) : jsstring :=
  map N_of_ascii (list_ascii_of_string s).

Fixpoint jsstring_eqb (a b : jsstring) : bool :=
  match a, b with
  | [], [] => true
  | x :: a', y :: b' => N.eqb x y && jsstring_eqb a' b'
  | _, _ => false
  end.

(** [`${n}`] for an integer [n]. *)
Definition Z_to_jsstring (z : Z) : jsstring :=
  js (NilZero.string_of_int (Z.to_int z)).

(** [Math.floor] of a finite binary64 value, as an integer; [None] on
    [NaN] and the infinities. *)
Definition Math_floor (x : float) : option Z :=
  match Prim2SF x with
  | S754_zero _ => Some 0%Z
  | S754_finite s m e =>
      let sm := if s then Zneg m else Zpos m in
      Some (if (0 <=? e)%Z then Z.shiftl sm e else Z.shiftr sm (- e))
  | S754_infinity _ | S754_nan => None
  end.

(** The number [n] of an array length as a binary64 value. *)
Definition float_of_nat (n : nat) : float :=
  PrimFloat.of_uint63 (Uint63.of_Z (Z.of_nat n)).

(* ================================================================== *)
(** ** The player reducer *)
(* ================================================================== *)

Module Player.

(** [Song] (src/types/saavn.ts), with the two things the reducer looks at:
    the object's reference and its [id]. *)
Record Song : Type := mkSong {
  song_ref : nat;        (* identity of the object *)
  song_id : jsstring;    (* Song.id *)
  song_name : jsstring   (* Song.name *)
}.

Inductive Repeat : Type := Rnone | Rone | Rall.

Definition Repeat_eqb (a b : Repeat) : bool :=
  match a, b with
  | Rnone, Rnone | Rone, Rone | Rall, Rall => true
  | _, _ => false
  end.

(** What [currentIndex] can hold at run time. *)
Inductive jsindex : Type :=
| Num (z : Z)
| NaN
| Undefined.

Record MusicPlayerState : Type := mkState {
  currentSong : option Song;
  playlist : list Song;
  currentIndex : jsindex;
  isPlaying : bool;
  queue : list Song;
  history : list Song;
  repeat : Repeat;
  shuffle : bool
}.

Inductive MusicPlayerAction : Type :=
| SET_CURRENT_SONG (song : Song) (pl : option (list Song)) (index : option Z)
| SET_PLAYLIST (pl : list Song) (index : option Z)
| NEXT_SONG
| PREVIOUS_SONG
| SET_PLAYING (payload : bool)
| ADD_TO_QUEUE (payload : Song)
| REMOVE_FROM_QUEUE (payload : Z)
| CLEAR_QUEUE
| SET_REPEAT (payload : Repeat)
| TOGGLE_SHUFFLE
| CLEAR_PLAYER.

Definition initialState : MusicPlayerState :=
  {| currentSong := None;
     playlist := [];
     currentIndex := Num (-1);
     isPlaying := false;
     queue := [];
     history := [];
     repeat := Rnone;
     shuffle := false |}.

(** *** Array and number primitives the reducer uses *)

(** [a === b] on two objects. *)
Definition same_object (a b : Song) : bool :=
  Nat.eqb (song_ref a) (song_ref b).

(** [arr.includes(x)] *)
Definition includes (arr : list Song) (x : Song) : bool :=
  existsb (same_object x) arr.

(** [arr.slice(-n)]: the last [n] elements (all of them when fewer). *)
Definition slice_last (A : Type) (n : nat) (arr : list A) : list A :=
  skipn (length arr - n) arr.

(** [[...history.slice(-49), song]] *)
Definition push_history (h : list Song) (s : Song) : list Song :=
  slice_last 49 h ++ [s].

(** [arr[i]] for an integer [i]; [None] is [undefined]. *)
Definition at_Z (A : Type) (arr : list A) (i : Z) : option A :=
  if (i <? 0)%Z then None else nth_error arr (Z.to_nat i).

(** [arr[i]] for whatever an index holds. *)
Definition at_index (A : Type) (arr : list A) (i : jsindex) : option A :=
  match i with
  | Num z => at_Z arr z
  | NaN | Undefined => None
  end.

(** [i + d] on an index: [undefined + 1] and [NaN + 1] are [NaN]. *)
Definition index_add (i : jsindex) (d : Z) : jsindex :=
  match i with
  | Num z => Num (z + d)
  | NaN | Undefined => NaN
  end.

(** [i >= n]; false on [NaN]. *)
Definition index_geb (i : jsindex) (n : Z) : bool :=
  match i with
  | Num z => (n <=? z)%Z
  | NaN | Undefined => false
  end.

(** [i < n]; false on [NaN]. *)
Definition index_ltb (i : jsindex) (n : Z) : bool :=
  match i with
  | Num z => (z <? n)%Z
  | NaN | Undefined => false
  end.

(** [k !== i] for an array position [k] and an index value [i]. *)
Definition position_neq (k : nat) (i : jsindex) : bool :=
  match i with
  | Num z => negb (Z.of_nat k =? z)%Z
  | NaN | Undefined => true
  end.

(** [playlist.map((_, i) => i).filter(i => i !== currentIndex)] *)
Definition availableIndices (pl : list Song) (cur : jsindex) : list nat :=
  filter (fun i => position_neq i cur) (seq 0 (length pl)).

(** [availableIndices[Math.floor(Math.random() * availableIndices.length)]]
    where [rnd] is the value [Math.random()] returned. *)
Definition random_pick (rnd : float) (avail : list nat) : jsindex :=
  match Math_floor (rnd * float_of_nat (length avail))%float with
  | Some k =>
      match at_Z avail k with
      | Some i => Num (Z.of_nat i)
      | None => Undefined
      end
  | None => Undefined
  end.

(** [playlist.findIndex(song => song.id === target.id)], [-1] when absent. *)
Fixpoint findIndex_from (k : Z) (pl : list Song) (target : Song) : Z :=
  match pl with
  | [] => (-1)%Z
  | s :: pl' =>
      if jsstring_eqb (song_id s) (song_id target) then k
      else findIndex_from (k + 1) pl' target
  end.

Definition findIndex (pl : list Song) (target : Song) : Z :=
  findIndex_from 0 pl target.

(** [queue.filter((_, index) => index !== payload)] *)
Fixpoint remove_at_from (k : Z) (q : list Song) (payload : Z) : list Song :=
  match q with
  | [] => []
  | s :: q' =>
      if (k =? payload)%Z then remove_at_from (k + 1) q' payload
      else s :: remove_at_from (k + 1) q' payload
  end.

(** [arr.length > 0 ? arr[arr.length - 1] : undefined] *)
Fixpoint last_opt (A : Type) (arr : list A) : option A :=
  match arr with
  | [] => None
  | [x] => Some x
  | _ :: arr' => last_opt arr'
  end.

(** [option] default, for [??] and for [||] on values that are never falsy
    when present (arrays). *)
Definition orElse (A : Type) (o : option A) (d : A) : A :=
  match o with Some a => a | None => d end.

(** The history written by the advancing cases of NEXT_SONG:
    [state.currentSong ? [...state.history.slice(-49), state.currentSong]
                       : state.history] *)
Definition history_after_advance (state : MusicPlayerState) : list Song :=
  match currentSong state with
  | Some cur => push_history (history state) cur
  | None => history state
  end.

(** *** [musicPlayerReducer] *)

Definition musicPlayerReducer (rnd : float)
    (state : MusicPlayerState) (action : MusicPlayerAction) : MusicPlayerState :=
  match action with
  | SET_CURRENT_SONG song pl index =>
      let newHistory :=
        match currentSong state with
        | Some cur =>
            if negb (includes (history state) cur)
            then push_history (history state) cur
            else history state
        | None => history state
        end in
      {| currentSong := Some song;
         playlist := orElse pl (playlist state);
         currentIndex := match index with
                         | Some i => Num i
                         | None => currentIndex state
                         end;
         isPlaying := isPlaying state;
         queue := queue state;
         history := newHistory;
         repeat := repeat state;
         shuffle := shuffle state |}
  | SET_PLAYLIST pl index =>
      {| currentSong := at_Z pl (orElse index 0%Z);
         playlist := pl;
         currentIndex := Num (orElse index 0%Z);
         isPlaying := isPlaying state;
         queue := queue state;
         history := history state;
         repeat := repeat state;
         shuffle := shuffle state |}
  | NEXT_SONG =>
      match queue state with
      | nextSong :: rest =>
          (* Play from queue first *)
          {| currentSong := Some nextSong;
             playlist := playlist state;
             currentIndex := currentIndex state;
             isPlaying := isPlaying state;
             queue := rest;
             history := history_after_advance state;
             repeat := repeat state;
             shuffle := shuffle state |}
      | [] =>
          if Repeat_eqb (repeat state) Rone then state
          else
            let advance (nextIndex : jsindex) :=
              {| currentSong := at_index (playlist state) nextIndex;
                 playlist := playlist state;
                 currentIndex := nextIndex;
                 isPlaying := isPlaying state;
                 queue := queue state;
                 history := history_after_advance state;
                 repeat := repeat state;
                 shuffle := shuffle state |} in
            let nextIndex := index_add (currentIndex state) 1 in
            if shuffle state then
              advance (random_pick rnd
                         (availableIndices (playlist state) (currentIndex state)))
            else if index_geb nextIndex (Z.of_nat (length (playlist state))) then
              if Repeat_eqb (repeat state) Rall then advance (Num 0)
              else
                {| currentSong := currentSong state;
                   playlist := playlist state;
                   currentIndex := currentIndex state;
                   isPlaying := false;
                   queue := queue state;
                   history := history state;
                   repeat := repeat state;
                   shuffle := shuffle state |}
            else advance nextIndex
      end
  | PREVIOUS_SONG =>
      match last_opt (history state) with
      | Some previousSong =>
          let previousIndex := findIndex (playlist state) previousSong in
          {| currentSong := Some previousSong;
             playlist := playlist state;
             currentIndex := if (previousIndex =? -1)%Z
                             then currentIndex state
                             else Num previousIndex;
             isPlaying := isPlaying state;
             queue := queue state;
             history := removelast (history state);
             repeat := repeat state;
             shuffle := shuffle state |}
      | None =>
          let back (prevIndex : jsindex) :=
            {| currentSong := at_index (playlist state) prevIndex;
               playlist := playlist state;
               currentIndex := prevIndex;
               isPlaying := isPlaying state;
               queue := queue state;
               history := history state;
               repeat := repeat state;
               shuffle := shuffle state |} in
          let prevIndex := index_add (currentIndex state) (-1) in
          if index_ltb prevIndex 0 then
            if Repeat_eqb (repeat state) Rall
            then back (Num (Z.of_nat (length (playlist state)) - 1))
            else state
          else back prevIndex
      end
  | SET_PLAYING payload =>
      {| currentSong := currentSong state;
         playlist := playlist state;
         currentIndex := currentIndex state;
         isPlaying := payload;
         queue := queue state;
         history := history state;
         repeat := repeat state;
         shuffle := shuffle state |}
  | ADD_TO_QUEUE payload =>
      {| currentSong := currentSong state;
         playlist := playlist state;
         currentIndex := currentIndex state;
         isPlaying := isPlaying state;
         queue := queue state ++ [payload];
         history := history state;
         repeat := repeat state;
         shuffle := shuffle state |}
  | REMOVE_FROM_QUEUE payload =>
      {| currentSong := currentSong state;
         playlist := playlist state;
         currentIndex := currentIndex state;
         isPlaying := isPlaying state;
         queue := remove_at_from 0 (queue state) payload;
         history := history state;
         repeat := repeat state;
         shuffle := shuffle state |}
  | CLEAR_QUEUE =>
      {| currentSong := currentSong state;
         playlist := playlist state;
         currentIndex := currentIndex state;
         isPlaying := isPlaying state;
         queue := [];
         history := history state;
         repeat := repeat state;
         shuffle := shuffle state |}
  | SET_REPEAT payload =>
      {| currentSong := currentSong state;
         playlist := playlist state;
         currentIndex := currentIndex state;
         isPlaying := isPlaying state;
         queue := queue state;
         history := history state;
         repeat := payload;
         shuffle := shuffle state |}
  | TOGGLE_SHUFFLE =>
      {| currentSong := currentSong state;
         playlist := playlist state;
         currentIndex := currentIndex state;
         isPlaying := isPlaying state;
         queue := queue state;
         history := history state;
         repeat := repeat state;
         shuffle := negb (shuffle state) |}
  | CLEAR_PLAYER => initialState
  end.

(** A run of the reducer: a sequence of dispatched actions, each with the
    value [Math.random()] would return during it. *)
Fixpoint run (state : MusicPlayerState)
    (steps : list (float * MusicPlayerAction)) : MusicPlayerState :=
  match steps with
  | [] => state
  | (rnd, a) :: steps' => run (musicPlayerReducer rnd state a) steps'
  end.

(** *** Sample tracks and states *)

Definition trackA : Song := mkSong 1 (js "a1") (js "A").
Definition trackB : Song := mkSong 2 (js "b2") (js "B").
Definition trackC : Song := mkSong 3 (js "c3") (js "C").
Definition trackX : Song := mkSong 9 (js "x9") (js "X").

(** queue = [A, B], repeat = one, current track X. *)
Definition queued_repeat_one : MusicPlayerState :=
  {| currentSong := Some trackX;
     playlist := [trackX; trackC];
     currentIndex := Num 0;
     isPlaying := true;
     queue := [trackA; trackB];
     history := [];
     repeat := Rone;
     shuffle := false |}.

(** Shuffle on, three tracks, playing the first, nothing queued. *)
Definition shuffling : MusicPlayerState :=
  {| currentSong := Some trackA;
     playlist := [trackA; trackB; trackC];
     currentIndex := Num 0;
     isPlaying := true;
     queue := [];
     history := [];
     repeat := Rnone;
     shuffle := true |}.

(** Shuffle on, a single track which is playing. *)
Definition shuffling_single : MusicPlayerState :=
  {| currentSong := Some trackA;
     playlist := [trackA];
     currentIndex := Num 0;
     isPlaying := true;
     queue := [];
     history := [];
     repeat := Rnone;
     shuffle := true |}.

(** The [n] tracks numbered [from], [from + 1], ...: distinct objects with
    distinct ids. *)
Fixpoint distinct_tracks (from n : nat) : list Song :=
  match n with
  | O => []
  | S n' =>
      mkSong from (Z_to_jsstring (Z.of_nat from)) (js "track")
        :: distinct_tracks (S from) n'
  end.

(** Dispatching SET_CURRENT_SONG once for each track. *)
Definition play_each (tracks : list Song) : list (float * MusicPlayerAction) :=
  map (fun t => (0%float, SET_CURRENT_SONG t None None)) tracks.

(** The state reached from the initial one by playing A, then B, then A
    again: the current track is A, and the history is [A, B], so A is in
    the history but not as its most recent entry. *)
Definition replaying : MusicPlayerState :=
  run initialState (play_each [trackA; trackB; trackA]).

(** *** The specification's reading of SET_CURRENT_SONG

    The history the specification describes: the previous track is pushed
    unless it is the most recent entry. *)
Definition most_recent_is (h : list Song) (cur : Song) : bool :=
  match last_opt h with
  | Some x => same_object x cur
  | None => false
  end.

Definition history_pushing_unless_most_recent (s : MusicPlayerState)
  : list Song :=
  match currentSong s with
  | Some cur =>
      if negb (most_recent_is (history s) cur)
      then push_history (history s) cur
      else history s
  | None => history s
  end.

End Player.

(* ================================================================== *)
(** ** The error classes (src/types/errors.ts) *)
(* ================================================================== *)

Module Errors.

Section WithJson.

(** What [JSON.parse] produces. *)
Variable Json : Type.

(** The third argument of [new ApiResponseError(message, status, data)]. *)
Inductive ResponseData : Type :=
| RD_undefined                       (* argument omitted *)
| RD_null                            (* safelyParseErrorResponse gave null *)
| RD_parsed (body : Json)            (* the parsed error body *)
| RD_parseError (message : jsstring) (* { parseError: ... } *).

(** A value of a [context] record. *)
Inductive ContextValue : Type :=
| CString (s : jsstring)
| CNumber (z : Z)
| CUndefined                                          (* an argument left out *)
| CArray (elements : list jsstring)                   (* a string[] *)
| CObject (properties : list (jsstring * ContextValue)).

(** The [Error] objects that reach the client's [catch] clauses.  The
    [timestamp] and [stack] of [BaseError] are left out. *)
Inductive JsError : Type :=
| DOMException (name message : jsstring)   (* fetch aborted: name AbortError *)
| TypeError (message : jsstring)           (* fetch: network failure *)
| URIError (message : jsstring)            (* encodeURIComponent *)
| ValidationError (message : jsstring)
| ApiResponseError (message : jsstring) (statusCode : Z)
                   (responseData : ResponseData)
| NetworkError (message : jsstring) (originalError : option JsError)
| SaavnApiError (message : jsstring) (operation : jsstring)
                (context : list (jsstring * ContextValue)).

(** [error.name]: [this.constructor.name] for the subclasses of
    [BaseError]. *)
Definition error_name (e : JsError) : jsstring :=
  match e with
  | DOMException name _ => name
  | TypeError _ => js "TypeError"
  | URIError _ => js "URIError"
  | ValidationError _ => js "ValidationError"
  | ApiResponseError _ _ _ => js "ApiResponseError"
  | NetworkError _ _ => js "NetworkError"
  | SaavnApiError _ _ _ => js "SaavnApiError"
  end.

(** [error.message] *)
Definition error_message (e : JsError) : jsstring :=
  match e with
  | DOMException _ m | TypeError m | URIError m | ValidationError m
  | ApiResponseError m _ _ | NetworkError m _ | SaavnApiError m _ _ => m
  end.

(** [error instanceof BaseError] *)
Definition instanceof_BaseError (e : JsError) : bool :=
  match e with
  | DOMException _ _ | TypeError _ | URIError _ => false
  | _ => true
  end.

(** [error instanceof ValidationError] *)
Definition instanceof_ValidationError (e : JsError) : bool :=
  match e with ValidationError _ => true | _ => false end.

(** [error instanceof ApiResponseError] *)
Definition instanceof_ApiResponseError (e : JsError) : bool :=
  match e with ApiResponseError _ _ _ => true | _ => false end.

(** [error instanceof NetworkError] *)
Definition instanceof_NetworkError (e : JsError) : bool :=
  match e with NetworkError _ _ => true | _ => false end.

(** [error instanceof SaavnApiError] *)
Definition instanceof_SaavnApiError (e : JsError) : bool :=
  match e with SaavnApiError _ _ _ => true | _ => false end.

(** [ApiResponseError.getUserMessage] *)
Definition ApiResponseError_getUserMessage (statusCode : Z) : jsstring :=
  if (statusCode =? 404)%Z then
    js "Content not found. Please check your search terms."
  else if (statusCode =? 429)%Z then
    js "Too many requests. Please wait a moment and try again."
  else if (500 <=? statusCode)%Z then
    js "Server error. Please try again later."
  else js "Request failed. Please try again.".

(** [error.getUserMessage()], the method each subclass of [BaseError]
    overrides; [None] on errors that are no [BaseError] and have no such
    method. *)
Definition getUserMessage (e : JsError) : option jsstring :=
  match e with
  | DOMException _ _ | TypeError _ | URIError _ => None
  | ValidationError m => Some m
  | ApiResponseError _ statusCode _ =>
      Some (ApiResponseError_getUserMessage statusCode)
  | NetworkError _ _ =>
      Some (js "Network error. Please check your connection and try again.")
  | SaavnApiError _ _ _ => Some (js "API request failed. Please try again.")
  end.

(** The message the [useApiCall] hook stores for a caught error:
    [error instanceof BaseError ? error.getUserMessage() : error.message]. *)
Definition hook_errorMessage (e : JsError) : jsstring :=
  match getUserMessage e with
  | Some m => m
  | None => error_message e
  end.

End WithJson.

Arguments RD_undefined {Json}.
Arguments RD_null {Json}.
Arguments RD_parseError {Json} message.
Arguments DOMException {Json} name message.
Arguments TypeError {Json} message.
Arguments URIError {Json} message.
Arguments ValidationError {Json} message.
Arguments NetworkError {Json} message originalError.
Arguments SaavnApiError {Json} message operation context.

End Errors.

(* ================================================================== *)
(** ** String builtins used by the client *)
(* ================================================================== *)

Module JsString.

Local Open Scope N_scope.

(** WhiteSpace and LineTerminator code units, the ones
    [String.prototype.trim] strips. *)
Definition is_whitespace (c : N) : bool :=
  ((9 <=? c) && (c <=? 13))            (* TAB LF VT FF CR *)
  || (c =? 32) || (c =? 160)           (* SP, NBSP *)
  || (c =? 5760)                       (* U+1680 *)
  || ((8192 <=? c) && (c <=? 8202))    (* U+2000..U+200A *)
  || (c =? 8232) || (c =? 8233)        (* U+2028, U+2029 *)
  || (c =? 8239) || (c =? 8287)        (* U+202F, U+205F *)
  || (c =? 12288) || (c =? 65279).     (* U+3000, U+FEFF *)

Fixpoint trimStart (s : jsstring) : jsstring :=
  match s with
  | [] => []
  | c :: s' => if is_whitespace c then trimStart s' else s
  end.

Definition trimEnd (s : jsstring) : jsstring := rev (trimStart (rev s)).

(** [s.trim()] *)
Definition trim (s : jsstring) : jsstring := trimEnd (trimStart s).

(** The characters [encodeURIComponent] leaves as they are:
    [A-Z a-z 0-9 - _ . ! ~ * ' ( )]. *)
Definition uriUnescaped (c : N) : bool :=
  ((65 <=? c) && (c <=? 90)) || ((97 <=? c) && (c <=? 122))
  || ((48 <=? c) && (c <=? 57))
  || (c =? 45) || (c =? 95) || (c =? 46) || (c =? 33) || (c =? 126)
  || (c =? 42) || (c =? 39) || (c =? 40) || (c =? 41).

Definition hexDigit (d : N) : N := if d <? 10 then 48 + d else 55 + d.

(** [%XX] for one octet. *)
Definition percent (octet : N) : jsstring :=
  [37; hexDigit (octet / 16); hexDigit (octet mod 16)].

(** The UTF-8 octets of a code point. *)
Definition utf8 (v : N) : list N :=
  if v <? 128 then [v]
  else if v <? 2048 then [192 + v / 64; 128 + v mod 64]
  else if v <? 65536 then
    [224 + v / 4096; 128 + (v / 64) mod 64; 128 + v mod 64]
  else
    [240 + v / 262144; 128 + (v / 4096) mod 64;
     128 + (v / 64) mod 64; 128 + v mod 64].

Definition escape (v : N) : jsstring := flat_map percent (utf8 v).

Definition is_high_surrogate (c : N) : bool := (55296 <=? c) && (c <=? 56319).
Definition is_low_surrogate (c : N) : bool := (56320 <=? c) && (c <=? 57343).

(** [encodeURIComponent(s)]; [None] where it throws a [URIError] (a lone
    surrogate). *)
Fixpoint encodeURIComponent (s : jsstring) : option jsstring :=
  match s with
  | [] => Some []
  | c :: s' =>
      if uriUnescaped c then option_map (cons c) (encodeURIComponent s')
      else if is_low_surrogate c then None
      else if negb (is_high_surrogate c) then
        option_map (app (escape c)) (encodeURIComponent s')
      else
        match s' with
        | [] => None
        | d :: s'' =>
            if is_low_surrogate d then
              option_map
                (app (escape ((c - 55296) * 1024 + (d - 56320) + 65536)))
                (encodeURIComponent s'')
            else None
        end
  end.

End JsString.

(* ================================================================== *)
(** ** The API client ([SaavnApiService]) *)
(* ================================================================== *)

Module Api.

Import Errors.

Record SaavnApiConfig : Type := mkConfig {
  baseUrl : jsstring;
  timeout : Z;          (* milliseconds *)
  maxRetries : nat;
  retryDelay : Z;       (* milliseconds *)
  userAgent : jsstring;
  rateLimitDelay : Z    (* milliseconds *)
}.

(** [DEFAULT_CONFIG]; [PROD] is [import.meta.env.PROD]. *)
Definition DEFAULT_CONFIG (PROD : bool) : SaavnApiConfig :=
  {| baseUrl := if PROD then js "/api" else js "https://saavn.sumit.co";
     timeout := 10000;
     maxRetries := 3;
     retryDelay := 1000;
     userAgent := js "Lumeo-Music-App/2.0.0";
     rateLimitDelay := 100 |}.

(** *** The environment of a call *)

(** What the network does with one [fetch]: after [latency] milliseconds it
    either fails at the connection level or delivers a response. *)
Inductive Reply : Type :=
| ConnectionFailure (message : jsstring)
| Respond (status : Z) (body : jsstring).

Record NetOutcome : Type := mkOutcome {
  latency : Z;
  reply : Reply
}.

(** The network: the outcome of the [n]-th fetch ever started. *)
Definition Network : Type := nat -> NetOutcome.

(** A [Response] whose headers arrived. *)
Record Response : Type := mkResponse {
  status : Z;
  text : jsstring
}.

(** [response.ok] *)
Definition ok (r : Response) : bool :=
  (200 <=? status r)%Z && (status r <=? 299)%Z.

(** What a call does that the outside can observe. *)
Inductive Event : Type :=
| EvSleep (ms : Z)          (* await new Promise(r => setTimeout(r, ms)) *)
| EvFetch (url : jsstring)  (* fetch(url, ...) *).

(** The service instance's mutable field, the clock, and the log. *)
Record State : Type := mkSt {
  lastRequestTime : Z;   (* this.lastRequestTime *)
  clock : Z;             (* what Date.now() returns *)
  fetches : nat;         (* fetches started so far *)
  events : list Event    (* oldest first *)
}.

(** A fresh instance ([lastRequestTime = 0]) at time [t]. *)
Definition fresh (t : Z) : State :=
  {| lastRequestTime := 0; clock := t; fetches := 0; events := [] |}.

Section Client.

Variable Json : Type.

(** [JSON.parse]: the value, or the message of the [SyntaxError]. *)
Variable JSON_parse : jsstring -> Json + jsstring.

Variable config : SaavnApiConfig.
Variable net : Network.

Definition Error : Type := JsError Json.

(** *** A state and exception monad for the [async] methods *)

Definition M (A : Type) : Type := State -> (Error + A) * State.

Definition ret {A : Type} (a : A) : M A := fun s => (inr a, s).

Definition throw {A : Type} (e : Error) : M A := fun s => (inl e, s).

Definition bind {A B : Type} (m : M A) (k : A -> M B) : M B :=
  fun s =>
    match m s with
    | (inr a, s') => k a s'
    | (inl e, s') => (inl e, s')
    end.

(** [try { m } catch (error) { handler(error) }] *)
Definition try_catch {A : Type} (m : M A) (handler : Error -> M A) : M A :=
  fun s =>
    match m s with
    | (inr a, s') => (inr a, s')
    | (inl e, s') => handler e s'
    end.

Notation "x <- m ;; k" := (bind m (fun x => k))
  (at level 61, m at next level, right associativity).
Notation "m ;;; k" := (bind m (fun _ => k))
  (at level 61, right associativity).

(** [Date.now()] *)
Definition Date_now : M Z := fun s => (inr (clock s), s).

(** [this.lastRequestTime] *)
Definition get_lastRequestTime : M Z := fun s => (inr (lastRequestTime s), s).

(** [this.lastRequestTime = t] *)
Definition set_lastRequestTime (t : Z) : M unit :=
  fun s =>
    (inr tt,
     {| lastRequestTime := t; clock := clock s;
        fetches := fetches s; events := events s |}).

(** [await new Promise(resolve => setTimeout(resolve, ms))]: the timer is
    taken to fire after exactly [ms] milliseconds (at once when [ms <= 0]). *)
Definition sleep (ms : Z) : M unit :=
  fun s =>
    (inr tt,
     {| lastRequestTime := lastRequestTime s;
        clock := clock s + Z.max 0 ms;
        fetches := fetches s;
        events := events s ++ [EvSleep ms] |}).

(** The DOMException an aborted [fetch] rejects with. *)
Definition AbortError : Error :=
  DOMException (js "AbortError") (js "The operation was aborted.").

(** The fetch of one attempt,
      [const controller = new AbortController();
       const timeoutId = setTimeout(() => controller.abort(), timeout);
       const response = await fetch(url, { signal: controller.signal, ... });
       clearTimeout(timeoutId);]
    When the outcome takes longer than [timeout] the abort comes first and
    [fetch] rejects with the DOMException named AbortError; a connection
    failure rejects with a TypeError. *)
Definition fetch_with_timeout (url : jsstring) : M Response :=
  fun s =>
    let o := net (fetches s) in
    let after (elapsed : Z) :=
      {| lastRequestTime := lastRequestTime s;
         clock := clock s + Z.max 0 elapsed;
         fetches := S (fetches s);
         events := events s ++ [EvFetch url] |} in
    if (timeout config <? latency o)%Z then
      (inl AbortError, after (timeout config))
    else
      match reply o with
      | ConnectionFailure message => (inl (TypeError message), after (latency o))
      | Respond st body =>
          (inr {| status := st; text := body |}, after (latency o))
      end.

(** *** [enforceRateLimit] *)
Definition enforceRateLimit : M unit :=
  now <- Date_now ;;
  last <- get_lastRequestTime ;;
  let timeSinceLastRequest := (now - last)%Z in
  (if (timeSinceLastRequest <? rateLimitDelay config)%Z
   then sleep (rateLimitDelay config - timeSinceLastRequest)
   else ret tt) ;;;
  now' <- Date_now ;;
  set_lastRequestTime now'.

(** *** [safelyParseErrorResponse] *)
Definition safelyParseErrorResponse (response : Response) : ResponseData Json :=
  match JSON_parse (text response) with
  | inl parsed => RD_parsed parsed
  | inr _ => RD_null
  end.

(** *** [makeRequest] *)

(** The [try] block of one attempt. *)
Definition attempt_body (url : jsstring) : M Json :=
  response <- fetch_with_timeout url ;;
  if negb (ok response) then
    throw (ApiResponseError
             (js "HTTP " ++ Z_to_jsstring (status response)
                ++ js ": Request failed")
             (status response)
             (safelyParseErrorResponse response))
  else
    let responseText := text response in
    match responseText with
    | [] => throw (ApiResponseError (js "Empty response body")
                     (status response) RD_undefined)
    | _ :: _ =>
        match JSON_parse responseText with
        | inl parsedData => ret parsedData
        | inr message =>
            throw (ApiResponseError (js "Invalid JSON response")
                     (status response) (RD_parseError message))
        end
    end.

(** [error instanceof ValidationError ||
     (error instanceof ApiResponseError &&
      error.statusCode >= 400 && error.statusCode < 500)] *)
Definition no_retry (error : Error) : bool :=
  match error with
  | ValidationError _ => true
  | ApiResponseError _ statusCode _ =>
      (400 <=? statusCode)%Z && (statusCode <? 500)%Z
  | _ => false
  end.

(** [error instanceof Error && error.name === 'AbortError'] *)
Definition is_AbortError (error : Error) : bool :=
  jsstring_eqb (error_name error) (js "AbortError").

(** The error thrown once the loop is left. *)
Definition exhausted (lastError : option Error) : Error :=
  NetworkError
    (js "Failed to complete request after "
       ++ Z_to_jsstring (Z.of_nat (maxRetries config) + 1) ++ js " attempts")
    lastError.

(** The loop [for (let attempt = 0; attempt <= maxRetries; attempt++)],
    entered at [attempt] with [remaining = maxRetries + 1 - attempt]
    iterations left, followed by the final [throw]. *)
Fixpoint attempts (url : jsstring) (remaining attempt : nat)
    (lastError : option Error) : M Json :=
  match remaining with
  | O => throw (exhausted lastError)
  | S remaining' =>
      try_catch (attempt_body url) (fun error =>
        (* Don't retry on validation errors or client errors (4xx) *)
        if no_retry error then throw error
        (* Don't retry on AbortError (timeout) *)
        else if is_AbortError error then
          throw (NetworkError (js "Request timeout") (Some error))
        (* Exponential backoff for retries *)
        else if (attempt <? maxRetries config)%nat then
          sleep (retryDelay config * 2 ^ Z.of_nat attempt)%Z ;;;
          attempts url remaining' (S attempt) (Some error)
        else attempts url remaining' (S attempt) (Some error))
  end.

Definition makeRequest (endpoint : jsstring) : M Json :=
  enforceRateLimit ;;;
  let url := baseUrl config ++ endpoint in
  attempts url (S (maxRetries config)) 0 None.

(** *** [validateAndSanitizeQuery] *)
Definition validateAndSanitizeQuery (query : jsstring) : Error + jsstring :=
  match query with
  | [] =>
      inl (ValidationError
             (js "Query parameter is required and must be a string"))
  | _ :: _ =>
      let trimmed := JsString.trim query in
      if (length trimmed =? 0)%nat then
        inl (ValidationError (js "Query parameter cannot be empty"))
      else if (100 <? length trimmed)%nat then
        inl (ValidationError
               (js "Query parameter too long (max 100 characters)"))
      else
        match JsString.encodeURIComponent trimmed with
        | Some encoded => inr encoded
        | None => inl (URIError (js "URI malformed"))
        end
  end.

(** *** The search operations *)

(** The body shared by the five operations: validate outside the [try],
    then [makeRequest] inside it, any error wrapped in a [SaavnApiError]. *)
Definition search_operation (query : jsstring)
    (endpoint : jsstring -> jsstring) (failure operation : jsstring)
    (context : list (jsstring * ContextValue)) : M Json :=
  match validateAndSanitizeQuery query with
  | inl error => throw error
  | inr sanitizedQuery =>
      try_catch (makeRequest (endpoint sanitizedQuery)) (fun error =>
        throw (SaavnApiError (failure ++ query) operation
                 (context ++ [(js "error", CString (error_message error))])))
  end.

Definition paged (path sanitizedQuery : jsstring) (page limit : Z) : jsstring :=
  path ++ sanitizedQuery ++ js "&page=" ++ Z_to_jsstring page
       ++ js "&limit=" ++ Z_to_jsstring limit.

Definition paged_context (query : jsstring) (page limit : Z)
  : list (jsstring * ContextValue) :=
  [(js "query", CString query); (js "page", CNumber page);
   (js "limit", CNumber limit)].

(** 1. [search(query)] *)
Definition search (query : jsstring) : M Json :=
  search_operation query
    (fun sanitizedQuery => js "/api/search?query=" ++ sanitizedQuery)
    (js "Search failed for query: ") (js "search")
    [(js "query", CString query)].

(** 2. [searchSongs(query, page = 0, limit = 10)] *)
Definition searchSongs (query : jsstring) (page limit : Z) : M Json :=
  search_operation query
    (fun q => paged (js "/api/search/songs?query=") q page limit)
    (js "Song search failed for query: ") (js "searchSongs")
    (paged_context query page limit).

(** 3. [searchAlbums(query, page = 0, limit = 10)] *)
Definition searchAlbums (query : jsstring) (page limit : Z) : M Json :=
  search_operation query
    (fun q => paged (js "/api/search/albums?query=") q page limit)
    (js "Album search failed for query: ") (js "searchAlbums")
    (paged_context query page limit).

(** 4. [searchArtists(query, page = 0, limit = 10)] *)
Definition searchArtists (query : jsstring) (page limit : Z) : M Json :=
  search_operation query
    (fun q => paged (js "/api/search/artists?query=") q page limit)
    (js "Artist search failed for query: ") (js "searchArtists")
    (paged_context query page limit).

(** 5. [searchPlaylists(query, page = 0, limit = 10)] *)
Definition searchPlaylists (query : jsstring) (page limit : Z) : M Json :=
  search_operation query
    (fun q => paged (js "/api/search/playlists?query=") q page limit)
    (js "Playlist search failed for query: ") (js "searchPlaylists")
    (paged_context query page limit).

(** *** The effect of the pieces, in closed form

    These functions say what [enforceRateLimit] and one attempt do to the
    state; the lemmas below prove that the code does exactly that. *)

(** The sleep [enforceRateLimit] logs in state [s], if any. *)
Definition rate_limit_log (s : State) : list Event :=
  if (clock s - lastRequestTime s <? rateLimitDelay config)%Z
  then [EvSleep (rateLimitDelay config - (clock s - lastRequestTime s))]
  else [].

(** The state [enforceRateLimit] leaves. *)
Definition after_rate_limit (s : State) : State :=
  let waited :=
    if (clock s - lastRequestTime s <? rateLimitDelay config)%Z
    then Z.max 0 (rateLimitDelay config - (clock s - lastRequestTime s))
    else 0%Z in
  {| lastRequestTime := clock s + waited;
     clock := clock s + waited;
     fetches := fetches s;
     events := events s ++ rate_limit_log s |}.


(** How long the fetch of one attempt lasts. *)
Definition elapsed (o : NetOutcome) : Z :=
  if (timeout config <? latency o)%Z then timeout config else latency o.

(** The state one attempt leaves. *)
Definition after_fetch (url : jsstring) (s : State) : State :=
  {| lastRequestTime := lastRequestTime s;
     clock := clock s + Z.max 0 (elapsed (net (fetches s)));
     fetches := S (fetches s);
     events := events s ++ [EvFetch url] |}.

(** What the [try] block of one attempt yields on outcome [o]: the parsed
    value, or the error it throws. *)
Definition attempt_result (o : NetOutcome) : Error + Json :=
  if (timeout config <? latency o)%Z then inl AbortError
  else
    match reply o with
    | ConnectionFailure message => inl (TypeError message)
    | Respond st body =>
        let response := {| status := st; text := body |} in
        if negb (ok response) then
          inl (ApiResponseError
                 (js "HTTP " ++ Z_to_jsstring st ++ js ": Request failed")
                 st (safelyParseErrorResponse response))
        else
          match body with
          | [] => inl (ApiResponseError (js "Empty response body") st
                         RD_undefined)
          | _ :: _ =>
              match JSON_parse body with
              | inl parsedData => inr parsedData
              | inr message =>
                  inl (ApiResponseError (js "Invalid JSON response") st
                         (RD_parseError message))
              end
          end
    end.

(** An error after which the [catch] clause goes on to the backoff. *)
Definition retried (error : Error) : bool :=
  negb (no_retry error) && negb (is_AbortError error).

(** An outcome after which the call goes on to another attempt (while
    attempts remain). *)
Definition retry_outcome (o : NetOutcome) : Prop :=
  exists error, attempt_result o = inl error /\ retried error = true.

(** An outcome of the kind the retry property is about: within the timeout,
    a connection failure or a response with status 500 or more. *)
Definition server_failure (o : NetOutcome) : Prop :=
  (latency o <= timeout config)%Z /\
  match reply o with
  | ConnectionFailure _ => True
  | Respond st _ => (500 <= st)%Z
  end.

End Client.

(** *** Reading a log *)

(** The number of fetch attempts in a log. *)
Definition count_fetches (log : list Event) : nat :=
  length (filter (fun ev => match ev with EvFetch _ => true | _ => false end) log).

(** The sleeps of a log, in order. *)
Definition sleeps (log : list Event) : list Z :=
  flat_map (fun ev => match ev with EvSleep ms => [ms] | _ => [] end) log.

(** [n] failed attempts, each followed by its backoff sleep [D * 2^k],
    [k] counted from [from]. *)
Fixpoint retried_log (url : jsstring) (D : Z) (from n : nat) : list Event :=
  match n with
  | O => []
  | S n' =>
      EvFetch url :: EvSleep (D * 2 ^ Z.of_nat from)
        :: retried_log url D (S from) n'
  end.

(** The log of a call that ends at its attempt number [n] (from 0):
    [n + 1] fetches with the [n] backoff sleeps between them. *)
Definition backoff_log (url : jsstring) (D : Z) (n : nat) : list Event :=
  retried_log url D 0 n ++ [EvFetch url].

Arguments AbortError {Json}.
Arguments validateAndSanitizeQuery {Json} query.

(** *** A sample client and sample networks *)

(** A stand-in for [JSON.parse] on [Json := jsstring]: a text that opens
    with a brace or a bracket parses (to itself), any other text is a
    syntax error. *)
Definition sample_JSON_parse (s : jsstring) : jsstring + jsstring :=
  match s with
  | c :: _ =>
      if (c =? 123)%N || (c =? 91)%N then inl s
      else inr (js "Unexpected token")
  | [] => inr (js "Unexpected end of JSON input")
  end.

(** The network that answers every fetch in the same way. *)
Definition always (o : NetOutcome) : Network := fun _ => o.


Definition not_found : NetOutcome :=
  {| latency := 20; reply := Respond 404 (js "{}") |}.

Definition unavailable : NetOutcome :=
  {| latency := 20; reply := Respond 503 (js "{}") |}.

Definition refused : NetOutcome :=
  {| latency := 5; reply := ConnectionFailure (js "Failed to fetch") |}.

(** Three spaces: empty once trimmed. *)
Definition blank_query : jsstring := js "   ".

End Api.

(* ================================================================== *)
(** ** Callers of the reducer and helpers of the player components *)
(* ================================================================== *)

Module PlayerUse.

Import Player.

(** *** Dispatching in sequence *)

(** [addToQueue] called once for each track, in order. *)
Definition enqueue_each (tracks : list Song) : list (float * MusicPlayerAction) :=
  map (fun t => (0%float, ADD_TO_QUEUE t)) tracks.

(** [playNext] called once for each draw of [rnds]. *)
Definition next_each (rnds : list float) : list (float * MusicPlayerAction) :=
  map (fun rnd => (rnd, NEXT_SONG)) rnds.

(** The track that is current after each of these [playNext] calls. *)
Fixpoint now_playing_after (s : MusicPlayerState) (rnds : list float)
  : list (option Song) :=
  match rnds with
  | [] => []
  | rnd :: rnds' =>
      let s' := musicPlayerReducer rnd s NEXT_SONG in
      currentSong s' :: now_playing_after s' rnds'
  end.

(** *** The current track and the index

    The current track is the one at [currentIndex] in the playlist (none
    when the index is no position of the playlist). *)
Definition index_consistent (s : MusicPlayerState) : Prop :=
  currentSong s = at_index (playlist s) (currentIndex s).

(** *** [cycleRepeat] (NowPlaying) *)

(** [const modes = ['none', 'all', 'one']] *)
Definition modes : list Repeat := [Rnone; Rall; Rone].

(** [modes.indexOf(mode)], [-1] when absent. *)
Fixpoint indexOf_from (k : Z) (l : list Repeat) (mode : Repeat) : Z :=
  match l with
  | [] => (-1)%Z
  | m :: l' => if Repeat_eqb m mode then k else indexOf_from (k + 1) l' mode
  end.

(** [modes[(modes.indexOf(state.repeat) + 1) % modes.length]]; the index is
    never negative, so [%] is [mod]. *)
Definition nextMode (current : Repeat) : option Repeat :=
  at_Z modes (Z.rem (indexOf_from 0 modes current + 1)
                    (Z.of_nat (length modes))).

(** [cycleRepeat()]: [setRepeat(nextMode)], which dispatches SET_REPEAT
    (nothing is dispatched that the typed [setRepeat] could not take). *)
Definition cycleRepeat (rnd : float) (s : MusicPlayerState) : MusicPlayerState :=
  match nextMode (repeat s) with
  | Some mode => musicPlayerReducer rnd s (SET_REPEAT mode)
  | None => s
  end.

(** *** [getAudioUrl] and [getImageUrl] (AudioPlayer, NowPlaying) *)

(** [DownloadUrl] and [ImageQuality]: a quality label and a URL. *)
Record QualityUrl : Type := mkQualityUrl {
  quality : jsstring;
  url : jsstring
}.

(** [variants.find(u => u.quality === wanted)] *)
Fixpoint find_quality (variants : list QualityUrl) (wanted : jsstring)
  : option QualityUrl :=
  match variants with
  | [] => None
  | u :: variants' =>
      if jsstring_eqb (quality u) wanted then Some u
      else find_quality variants' wanted
  end.

(** A string is truthy when it is not empty. *)
Definition truthy (s : jsstring) : bool :=
  match s with [] => false | _ :: _ => true end.

(** The loop
      [for (const quality of qualityOrder) {
         const url = variants.find(u => u.quality === quality);
         if (url?.url) return url.url;
       }]
    [None] when it falls through. *)
Fixpoint first_by_quality (variants : list QualityUrl)
    (qualityOrder : list jsstring) : option jsstring :=
  match qualityOrder with
  | [] => None
  | wanted :: rest =>
      match find_quality variants wanted with
      | Some u =>
          if truthy (url u) then Some (url u)
          else first_by_quality variants rest
      | None => first_by_quality variants rest
      end
  end.

(** The body shared by [getAudioUrl] and [getImageUrl]:
      [if (!variants?.length) return '';
       for ... ;
       return variants[0]?.url || '';] *)
Definition best_url (variants : list QualityUrl)
    (qualityOrder : list jsstring) : jsstring :=
  match variants with
  | [] => []
  | first :: _ =>
      match first_by_quality variants qualityOrder with
      | Some found => found
      | None => url first
      end
  end.

Definition audio_qualityOrder : list jsstring :=
  [js "320kbps"; js "160kbps"; js "96kbps"; js "48kbps"].

Definition image_qualityOrder : list jsstring :=
  [js "500x500"; js "150x150"; js "50x50"].

(** [getAudioUrl(song)] on [song.downloadUrl] *)
Definition getAudioUrl (downloadUrl : list QualityUrl) : jsstring :=
  best_url downloadUrl audio_qualityOrder.

(** [getImageUrl(song)] on [song.image] *)
Definition getImageUrl (image : list QualityUrl) : jsstring :=
  best_url image image_qualityOrder.

(** *** Samples *)

Definition sample_downloadUrl : list QualityUrl :=
  [ mkQualityUrl (js "12kbps") (js "https://cdn/12.mp4");
    mkQualityUrl (js "320kbps") [];
    mkQualityUrl (js "96kbps") (js "https://cdn/96.mp4");
    mkQualityUrl (js "160kbps") (js "https://cdn/160.mp4") ].

(** Three tracks, the second playing, nothing queued, no history. *)
Definition playing_second : MusicPlayerState :=
  {| currentSong := Some trackB;
     playlist := [trackA; trackB; trackC];
     currentIndex := Num 1;
     isPlaying := true;
     queue := [];
     history := [];
     repeat := Rnone;
     shuffle := false |}.

End PlayerUse.

(* ================================================================== *)
(** ** The other catalog operations, and the hooks *)
(* ================================================================== *)

Module ApiOperations.

Import Errors Api.

(** *** [URLSearchParams] *)

Local Open Scope N_scope.

(** The scalar values of a string read as a USVString: a surrogate pair is
    one code point, a lone surrogate becomes U+FFFD. *)
Fixpoint to_scalar_values (s : jsstring) : list N :=
  match s with
  | [] => []
  | c :: s' =>
      if JsString.is_high_surrogate c then
        match s' with
        | d :: s'' =>
            if JsString.is_low_surrogate d then
              ((c - 55296) * 1024 + (d - 56320) + 65536) :: to_scalar_values s''
            else 65533 :: to_scalar_values s'
        | [] => [65533]
        end
      else if JsString.is_low_surrogate c then 65533 :: to_scalar_values s'
      else c :: to_scalar_values s'
  end.

(** The bytes the application/x-www-form-urlencoded serializer leaves as
    they are: ASCII letters and digits and [* - . _]. *)
Definition form_unescaped (b : N) : bool :=
  ((65 <=? b) && (b <=? 90)) || ((97 <=? b) && (b <=? 122))
  || ((48 <=? b) && (b <=? 57))
  || (b =? 42) || (b =? 45) || (b =? 46) || (b =? 95).

Definition form_byte (b : N) : jsstring :=
  if b =? 32 then [43]
  else if form_unescaped b then [b]
  else JsString.percent b.

(** The serialization of one name or value. *)
Definition form_urlencode (s : jsstring) : jsstring :=
  flat_map form_byte (flat_map JsString.utf8 (to_scalar_values s)).

(** [params.toString()] for the list of name-value pairs of [params]. *)
Fixpoint URLSearchParams_toString (params : list (jsstring * jsstring))
  : jsstring :=
  match params with
  | [] => []
  | [(name, value)] => form_urlencode name ++ [61] ++ form_urlencode value
  | (name, value) :: rest =>
      form_urlencode name ++ [61] ++ form_urlencode value ++ [38]
        ++ URLSearchParams_toString rest
  end.

Local Close Scope N_scope.

(** *** Measures used in the statements *)

(** The sum of a list of delays. *)
Definition total (delays : list Z) : Z := fold_right Z.add 0%Z delays.

(** The code units an encoded component is made of: the unreserved ones
    and the percent sign. *)
Definition component_char (c : N) : bool :=
  JsString.uriUnescaped c || (c =? 37)%N.

(** [SortBy] and [SortOrder] (src/types/saavn.ts) *)
Inductive SortBy : Type := popularity | latest | alphabetical.
Inductive SortOrder : Type := asc | desc.

Definition SortBy_string (x : SortBy) : jsstring :=
  match x with
  | popularity => js "popularity"
  | latest => js "latest"
  | alphabetical => js "alphabetical"
  end.

Definition SortOrder_string (x : SortOrder) : jsstring :=
  match x with asc => js "asc" | desc => js "desc" end.

(** [ArtistOptions] (src/types/saavn.ts): every property may be left
    out. *)
Record ArtistOptions : Type := mkArtistOptions {
  page : option Z;
  songCount : option Z;
  albumCount : option Z;
  sortBy : option SortBy;
  sortOrder : option SortOrder
}.

Section Operations.

Variable Json : Type.
Variable JSON_parse : jsstring -> Json + jsstring.
Variable config : SaavnApiConfig.
Variable net : Network.

(** The body shared by the operations that take an id:
      [if (!id || typeof id !== 'string') throw new ValidationError(required);
       ...
       try { return await this.makeRequest(`...${encodeURIComponent(id)}...`); }
       catch (error) { throw new SaavnApiError(failure + id, operation,
                                               { ...context, error: ... }); }]
    The endpoint is built inside the [try], so the [URIError] of
    [encodeURIComponent] is caught there too. *)
Definition id_operation (id required : jsstring)
    (endpoint : jsstring -> jsstring) (failure operation : jsstring)
    (context : list (jsstring * ContextValue)) : M Json Json :=
  match id with
  | [] => throw (ValidationError required)
  | _ :: _ =>
      try_catch
        (match JsString.encodeURIComponent id with
         | Some encoded => makeRequest JSON_parse config net (endpoint encoded)
         | None => throw (URIError (js "URI malformed"))
         end)
        (fun error =>
           throw (SaavnApiError (failure ++ id) operation
                    (context ++ [(js "error", CString (error_message error))])))
  end.

(** 7. [getSong(id)] *)
Definition getSong (id : jsstring) : M Json Json :=
  id_operation id (js "Song ID is required")
    (fun encoded => js "/api/songs/" ++ encoded)
    (js "Failed to fetch song with ID: ") (js "getSong")
    [(js "id", CString id)].

(** 8. [getSongSuggestions(id, limit = 10)] *)
Definition getSongSuggestions (id : jsstring) (limit : Z) : M Json Json :=
  id_operation id (js "Song ID is required")
    (fun encoded =>
       js "/api/songs/" ++ encoded ++ js "/suggestions?limit="
         ++ Z_to_jsstring limit)
    (js "Failed to fetch suggestions for song ID: ")
    (js "getSongSuggestions")
    [(js "id", CString id); (js "limit", CNumber limit)].

(** 11. [getArtistById(id, page = 0, songCount = 10, albumCount = 10,
                       sortBy = 'popularity', sortOrder = 'desc')] *)
Definition getArtistById (id : jsstring) (page songCount albumCount : Z)
    (sortBy : SortBy) (sortOrder : SortOrder) : M Json Json :=
  let params :=
    [(js "page", Z_to_jsstring page);
     (js "songCount", Z_to_jsstring songCount);
     (js "albumCount", Z_to_jsstring albumCount);
     (js "sortBy", SortBy_string sortBy);
     (js "sortOrder", SortOrder_string sortOrder)] in
  id_operation id (js "Artist ID is required")
    (fun encoded =>
       js "/api/artists/" ++ encoded ++ js "?"
         ++ URLSearchParams_toString params)
    (js "Failed to fetch artist with ID: ") (js "getArtistById")
    [(js "id", CString id); (js "page", CNumber page);
     (js "songCount", CNumber songCount);
     (js "albumCount", CNumber albumCount);
     (js "sortBy", CString (SortBy_string sortBy));
     (js "sortOrder", CString (SortOrder_string sortOrder))].

(** The parameters and the context shared by [getArtistSongs] and
    [getArtistAlbums]. *)
Definition sorted_params (page : Z) (sortBy : SortBy) (sortOrder : SortOrder)
  : list (jsstring * jsstring) :=
  [(js "page", Z_to_jsstring page);
   (js "sortBy", SortBy_string sortBy);
   (js "sortOrder", SortOrder_string sortOrder)].

Definition sorted_context (id : jsstring) (page : Z) (sortBy : SortBy)
    (sortOrder : SortOrder) : list (jsstring * ContextValue) :=
  [(js "id", CString id); (js "page", CNumber page);
   (js "sortBy", CString (SortBy_string sortBy));
   (js "sortOrder", CString (SortOrder_string sortOrder))].

(** 12. [getArtistSongs(id, page = 0, sortBy = 'popularity',
                        sortOrder = 'desc')] *)
Definition getArtistSongs (id : jsstring) (page : Z) (sortBy : SortBy)
    (sortOrder : SortOrder) : M Json Json :=
  id_operation id (js "Artist ID is required")
    (fun encoded =>
       js "/api/artists/" ++ encoded ++ js "/songs?"
         ++ URLSearchParams_toString (sorted_params page sortBy sortOrder))
    (js "Failed to fetch songs for artist ID: ") (js "getArtistSongs")
    (sorted_context id page sortBy sortOrder).

(** 13. [getArtistAlbums(id, page = 0, sortBy = 'popularity',
                         sortOrder = 'desc')] *)
Definition getArtistAlbums (id : jsstring) (page : Z) (sortBy : SortBy)
    (sortOrder : SortOrder) : M Json Json :=
  id_operation id (js "Artist ID is required")
    (fun encoded =>
       js "/api/artists/" ++ encoded ++ js "/albums?"
         ++ URLSearchParams_toString (sorted_params page sortBy sortOrder))
    (js "Failed to fetch albums for artist ID: ") (js "getArtistAlbums")
    (sorted_context id page sortBy sortOrder).

(** *** The operations that take a list of ids, or an id or a link *)

(** [array.join(separator)] *)
Fixpoint Array_join (separator : jsstring) (elements : list jsstring)
  : jsstring :=
  match elements with
  | [] => []
  | [element] => element
  | element :: rest => element ++ separator ++ Array_join separator rest
  end.

(** 6. [getSongs(ids)].  [idsString] is built before the [try]; the
    endpoint, with its [encodeURIComponent], inside it. *)
Definition getSongs (ids : list jsstring) : M Json Json :=
  match ids with
  | [] =>
      throw (ValidationError
               (js "Song IDs array is required and cannot be empty"))
  | _ :: _ =>
      let idsString := Array_join (js ",") ids in
      try_catch
        (match JsString.encodeURIComponent idsString with
         | Some encoded =>
             makeRequest JSON_parse config net (js "/api/songs?ids=" ++ encoded)
         | None => throw (URIError (js "URI malformed"))
         end)
        (fun error =>
           throw (SaavnApiError
                    (js "Failed to fetch songs with IDs: " ++ idsString)
                    (js "getSongs")
                    [(js "ids", CArray ids);
                     (js "error", CString (error_message error))]))
  end.

(** [!value] for a string, and for an argument that may be left out
    ([link?: string]). *)
Definition falsy (value : jsstring) : bool :=
  match value with [] => true | _ :: _ => false end.

Definition falsy_optional (value : option jsstring) : bool :=
  match value with Some text => falsy text | None => true end.

(** [if (value) params.append(name, value)] for a string, for an argument
    that may be left out, and for a number of the options (0 is falsy). *)
Definition append_string (name value : jsstring)
  : list (jsstring * jsstring) :=
  if falsy value then [] else [(name, value)].

Definition append_optional (name : jsstring) (value : option jsstring)
  : list (jsstring * jsstring) :=
  match value with Some text => append_string name text | None => [] end.

Definition append_number (name : jsstring) (value : option Z)
  : list (jsstring * jsstring) :=
  match value with
  | Some z => if (z =? 0)%Z then [] else [(name, Z_to_jsstring z)]
  | None => []
  end.

(** An argument that may be left out, as a value of the context. *)
Definition optional_string (value : option jsstring) : ContextValue :=
  match value with Some text => CString text | None => CUndefined end.

(** The body shared by the operations that take an id or a link:
      [if (!id && !link) throw new ValidationError(required);
       const params = ...;
       try { return await this.makeRequest(`${path}${params.toString()}`); }
       catch (error) { throw new SaavnApiError(failure, operation,
                                               { ...context, error: ... }); }] *)
Definition link_operation (id : jsstring) (link : option jsstring)
    (required path : jsstring) (params : list (jsstring * jsstring))
    (failure operation : jsstring)
    (context : list (jsstring * ContextValue)) : M Json Json :=
  if falsy id && falsy_optional link then throw (ValidationError required)
  else
    try_catch
      (makeRequest JSON_parse config net
         (path ++ URLSearchParams_toString params))
      (fun error =>
         throw (SaavnApiError failure operation
                  (context ++ [(js "error", CString (error_message error))]))).

(** 9. [getAlbum(id, link?)] *)
Definition getAlbum (id : jsstring) (link : option jsstring) : M Json Json :=
  link_operation id link (js "Either album ID or link is required")
    (js "/api/albums?")
    (append_string (js "id") id ++ append_optional (js "link") link)
    (js "Failed to fetch album") (js "getAlbum")
    [(js "id", CString id); (js "link", optional_string link)].

(** The value of [options] in the context: the caller's object, with the
    properties that are present, listed in the order of the interface. *)
Definition present (A : Type) (name : jsstring) (value : option A)
    (as_context : A -> ContextValue) : list (jsstring * ContextValue) :=
  match value with Some a => [(name, as_context a)] | None => [] end.

Definition options_context (options : option ArtistOptions) : ContextValue :=
  match options with
  | None => CUndefined
  | Some o =>
      CObject
        (present (js "page") (page o) CNumber
           ++ present (js "songCount") (songCount o) CNumber
           ++ present (js "albumCount") (albumCount o) CNumber
           ++ present (js "sortBy") (sortBy o)
                (fun x => CString (SortBy_string x))
           ++ present (js "sortOrder") (sortOrder o)
                (fun x => CString (SortOrder_string x)))
  end.

(** [options?.name] *)
Definition option_of (A : Type) (options : option ArtistOptions)
    (property : ArtistOptions -> option A) : option A :=
  match options with Some o => property o | None => None end.

(** 10. [getArtist(id, options?, link?)] *)
Definition getArtist (id : jsstring) (options : option ArtistOptions)
    (link : option jsstring) : M Json Json :=
  link_operation id link (js "Either artist ID or link is required")
    (js "/api/artists?")
    (append_string (js "id") id
       ++ append_optional (js "link") link
       ++ append_number (js "page") (option_of options page)
       ++ append_number (js "songCount") (option_of options songCount)
       ++ append_number (js "albumCount") (option_of options albumCount)
       ++ append_optional (js "sortBy")
            (option_map SortBy_string (option_of options sortBy))
       ++ append_optional (js "sortOrder")
            (option_map SortOrder_string (option_of options sortOrder)))
    (js "Failed to fetch artist") (js "getArtist")
    [(js "id", CString id); (js "link", optional_string link);
     (js "options", options_context options)].

(** 14. [getPlaylist(id, link?, page = 0, limit = 10)] *)
Definition getPlaylist (id : jsstring) (link : option jsstring)
    (page limit : Z) : M Json Json :=
  link_operation id link (js "Either playlist ID or link is required")
    (js "/api/playlists?")
    ([(js "page", Z_to_jsstring page); (js "limit", Z_to_jsstring limit)]
       ++ append_string (js "id") id ++ append_optional (js "link") link)
    (js "Failed to fetch playlist") (js "getPlaylist")
    [(js "id", CString id); (js "link", optional_string link);
     (js "page", CNumber page); (js "limit", CNumber limit)].

(** *** The catalog as a whole *)

(** A call of one of the fourteen operations, with its arguments. *)
Inductive CatalogCall : Type :=
| call_search (query : jsstring)
| call_searchSongs (query : jsstring) (page limit : Z)
| call_searchAlbums (query : jsstring) (page limit : Z)
| call_searchArtists (query : jsstring) (page limit : Z)
| call_searchPlaylists (query : jsstring) (page limit : Z)
| call_getSongs (ids : list jsstring)
| call_getSong (id : jsstring)
| call_getSongSuggestions (id : jsstring) (limit : Z)
| call_getAlbum (id : jsstring) (link : option jsstring)
| call_getArtist (id : jsstring) (options : option ArtistOptions)
    (link : option jsstring)
| call_getArtistById (id : jsstring) (page songCount albumCount : Z)
    (sortBy : SortBy) (sortOrder : SortOrder)
| call_getArtistSongs (id : jsstring) (page : Z) (sortBy : SortBy)
    (sortOrder : SortOrder)
| call_getArtistAlbums (id : jsstring) (page : Z) (sortBy : SortBy)
    (sortOrder : SortOrder)
| call_getPlaylist (id : jsstring) (link : option jsstring) (page limit : Z).

(** Running a call. *)
Definition perform (call : CatalogCall) : M Json Json :=
  match call with
  | call_search query => search JSON_parse config net query
  | call_searchSongs query page limit =>
      searchSongs JSON_parse config net query page limit
  | call_searchAlbums query page limit =>
      searchAlbums JSON_parse config net query page limit
  | call_searchArtists query page limit =>
      searchArtists JSON_parse config net query page limit
  | call_searchPlaylists query page limit =>
      searchPlaylists JSON_parse config net query page limit
  | call_getSongs ids => getSongs ids
  | call_getSong id => getSong id
  | call_getSongSuggestions id limit => getSongSuggestions id limit
  | call_getAlbum id link => getAlbum id link
  | call_getArtist id options link => getArtist id options link
  | call_getArtistById id page songCount albumCount sortBy sortOrder =>
      getArtistById id page songCount albumCount sortBy sortOrder
  | call_getArtistSongs id page sortBy sortOrder =>
      getArtistSongs id page sortBy sortOrder
  | call_getArtistAlbums id page sortBy sortOrder =>
      getArtistAlbums id page sortBy sortOrder
  | call_getPlaylist id link page limit => getPlaylist id link page limit
  end.

(** The method name of a call, as the operations pass it to
    [SaavnApiError]. *)
Definition operation_name (call : CatalogCall) : jsstring :=
  match call with
  | call_search _ => js "search"
  | call_searchSongs _ _ _ => js "searchSongs"
  | call_searchAlbums _ _ _ => js "searchAlbums"
  | call_searchArtists _ _ _ => js "searchArtists"
  | call_searchPlaylists _ _ _ => js "searchPlaylists"
  | call_getSongs _ => js "getSongs"
  | call_getSong _ => js "getSong"
  | call_getSongSuggestions _ _ => js "getSongSuggestions"
  | call_getAlbum _ _ => js "getAlbum"
  | call_getArtist _ _ _ => js "getArtist"
  | call_getArtistById _ _ _ _ _ _ => js "getArtistById"
  | call_getArtistSongs _ _ _ _ => js "getArtistSongs"
  | call_getArtistAlbums _ _ _ _ => js "getArtistAlbums"
  | call_getPlaylist _ _ _ _ => js "getPlaylist"
  end.

(** What an operation with failure text [message], method name [name] and
    context [context] does in state [s]: it fails before any request, the
    state as it was, or it is its request inside the [try] whose [catch]
    clause wraps the error. *)
Definition requests_or_fails (operation : M Json Json)
    (message name : jsstring) (context : list (jsstring * ContextValue))
    (s : State) : Prop :=
  (exists thrown, operation s = (inl thrown, s)) \/
  (exists endpoint,
      operation s
      = try_catch (makeRequest JSON_parse config net endpoint)
          (fun error =>
             throw (SaavnApiError message name
                      (context
                         ++ [(js "error", CString (error_message error))])))
          s).

(** *** [useApiCall] and the hooks built on it *)

(** [ApiHookState<T>] *)
Record ApiHookState : Type := mkHook {
  data : option Json;
  loading : bool;
  error : option jsstring
}.

(** The initial state of every hook. *)
Definition idle : ApiHookState :=
  {| data := None; loading := false; error := None |}.

(** The state while the call is pending:
    [setState(prev => ({ ...prev, loading: true, error: null }))]. *)
Definition pending (prev : ApiHookState) : ApiHookState :=
  {| data := data prev; loading := true; error := None |}.

(** [execute(apiCall)], started with the hook in state [prev] and with no
    other call of the same hook under way: the hook state it leaves, and
    the state of the client.  It catches every error of [apiCall] and so
    never throws. *)
Definition execute (apiCall : M Json Json) (prev : ApiHookState) (s : State)
  : ApiHookState * State :=
  match apiCall s with
  | (inr result, s') =>
      ({| data := Some result; loading := false; error := None |}, s')
  | (inl thrown, s') =>
      ({| data := data (pending prev);
          loading := false;
          error := Some (hook_errorMessage thrown) |}, s')
  end.

(** [useSearch().search(query)] *)
Definition useSearch_search (query : jsstring) :=
  execute (search JSON_parse config net query).

(** [useSearchSongs().searchSongs(query, page = 0, limit = 10)] *)
Definition useSearchSongs_searchSongs (query : jsstring) (page limit : Z) :=
  execute (searchSongs JSON_parse config net query page limit).

(** [useSong().getSong(id)] *)
Definition useSong_getSong (id : jsstring) := execute (getSong id).

(** [useSongSuggestions().getSuggestions(id, limit = 10)] *)
Definition useSongSuggestions_getSuggestions (id : jsstring) (limit : Z) :=
  execute (getSongSuggestions id limit).

(** [useArtist().getArtist(id)]: [getArtistById] with its defaults. *)
Definition useArtist_getArtist (id : jsstring) :=
  execute (getArtistById id 0 10 10 popularity desc).

(** *** How a call ends, and responses that cannot be used *)

(** How a call that ends at attempt [k] ended: with the value of that
    attempt, or with the error its [catch] clause threw. *)
Definition ended_with (k remaining : nat) (o : NetOutcome)
    (result : Error Json + Json) : Prop :=
  match result with
  | inr parsedData => attempt_result JSON_parse config o = inr parsedData
  | inl thrown =>
      exists cause,
        attempt_result JSON_parse config o = inl cause /\
        ((no_retry cause = true /\ thrown = cause) \/
         (no_retry cause = false /\ is_AbortError cause = true /\
          thrown = NetworkError (js "Request timeout") (Some cause)) \/
         (retried cause = true /\ k = remaining /\
          thrown = exhausted config (Some cause)))
  end.

(** A response that arrives in time but is of no use and is no client
    error: a 2xx with an empty body or a body that does not parse, or a
    status below 200 or in 300..399. *)
Definition unusable_response (o : NetOutcome) : Prop :=
  (latency o <= timeout config)%Z /\
  exists st body,
    reply o = Respond st body /\
    (((200 <= st <= 299)%Z /\
      (body = [] \/ exists message, JSON_parse body = inr message)) \/
     (st < 200)%Z \/ (300 <= st <= 399)%Z).

End Operations.

(** *** Samples *)

(** A query that is a single high surrogate with nothing after it. *)
Definition lone_surrogate : jsstring := [55357%N].

(** A 2xx response with an empty body. *)
Definition empty_body : NetOutcome :=
  {| latency := 20; reply := Respond 200 [] |}.

(** A 2xx response with a body that parses. *)
Definition found : NetOutcome :=
  {| latency := 20; reply := Respond 200 (js "{}") |}.

(** The fetches fail with 503 twice, then succeed. *)
Definition recovering : Network :=
  fun n => if (n <? 2)%nat then unavailable else found.

End ApiOperations.

(* ================================================================== *)
(** ** The catch-all proxy handler *)
(* ================================================================== *)

Module Proxy.

Import ApiOperations.

(** A value of [req.query]: a string, or an array of strings (a repeated
    parameter, or the segments of the catch-all [path]). *)
Inductive QueryValue : Type :=
| QString (value : jsstring)
| QArray (values : list jsstring).

(** The request, as far as the handler reads it. *)
Record Request : Type := mkRequest {
  method : jsstring;
  query : list (jsstring * QueryValue)   (* the entries of req.query *)
}.

(** What has been sent on [res]. *)
Inductive ResponseBody (Json : Type) : Type :=
| Ended                                   (* res.end() *)
| JsonBody (data : Json)                  (* res.json(data) *)
| ProxyError (message : jsstring)         (* { error: 'Proxy error', message } *).

Arguments Ended {Json}.
Arguments ProxyError {Json} message.

Record Response (Json : Type) : Type := mkProxyResponse {
  headers : list (jsstring * jsstring);
  statusCode : Z;
  body : ResponseBody Json
}.

(** What the upstream does with the one fetch of the handler. *)
Inductive Upstream : Type :=
| FetchRejects (message : jsstring)
| FetchResponds (status : Z) (text : jsstring).

(** The four [res.setHeader] calls. *)
Definition cors_headers : list (jsstring * jsstring) :=
  [(js "Access-Control-Allow-Credentials", js "true");
   (js "Access-Control-Allow-Origin", js "*");
   (js "Access-Control-Allow-Methods", js "GET,OPTIONS,PATCH,DELETE,POST,PUT");
   (js "Access-Control-Allow-Headers",
    js "X-CSRF-Token, X-Requested-With, Accept, Accept-Version, Content-Length, Content-MD5, Content-Type, Date, X-Api-Version")].

(** [array.join(separator)] *)
Fixpoint join (separator : jsstring) (parts : list jsstring) : jsstring :=
  match parts with
  | [] => []
  | [part] => part
  | part :: rest => part ++ separator ++ join separator rest
  end.

(** [req.query.path] *)
Fixpoint lookup (name : jsstring) (entries : list (jsstring * QueryValue))
  : option QueryValue :=
  match entries with
  | [] => None
  | (key, value) :: rest =>
      if jsstring_eqb key name then Some value else lookup name rest
  end.

(** [const pathSegments = req.query.path || [];
     const apiPath = Array.isArray(pathSegments)
       ? `/${pathSegments.join('/')}` : `/${pathSegments}`;] *)
Definition apiPath (req : Request) : jsstring :=
  match lookup (js "path") (query req) with
  | Some (QArray segments) => js "/" ++ join (js "/") segments
  | Some (QString (c :: rest)) => js "/" ++ c :: rest
  | Some (QString []) | None => js "/"
  end.

(** The string a value of [req.query] becomes in [new URLSearchParams]. *)
Definition query_value_string (value : QueryValue) : jsstring :=
  match value with
  | QString text => text
  | QArray values => join (js ",") values
  end.

(** [const queryString = new URLSearchParams(req.query);
     queryString.delete('path');] *)
Definition forwarded_params (req : Request) : list (jsstring * jsstring) :=
  map (fun entry => (fst entry, query_value_string (snd entry)))
      (filter (fun entry => negb (jsstring_eqb (fst entry) (js "path")))
              (query req)).

(** [queryString.toString() ? `?${queryString.toString()}` : ''] *)
Definition queryPart (req : Request) : jsstring :=
  match URLSearchParams_toString (forwarded_params req) with
  | [] => []
  | c :: rest => js "?" ++ c :: rest
  end.

(** [`https://saavn.sumit.co${apiPath}${queryPart}`] *)
Definition apiUrl (req : Request) : jsstring :=
  js "https://saavn.sumit.co" ++ apiPath req ++ queryPart req.

(** *** Reading a query string *)

(** The pieces of a text between its separators. *)
Fixpoint split_on (separator : N) (text : jsstring) : list jsstring :=
  match text with
  | [] => [[]]
  | c :: rest =>
      if (c =? separator)%N then [] :: split_on separator rest
      else
        match split_on separator rest with
        | piece :: pieces => (c :: piece) :: pieces
        | [] => [[c]]
        end
  end.

(** The name of a piece [name=value]: what precedes its first equals
    sign. *)
Fixpoint piece_name (piece : jsstring) : jsstring :=
  match piece with
  | [] => []
  | c :: rest => if (c =? 61)%N then [] else c :: piece_name rest
  end.

(** The parameter names of a query string, as written in it: the names of
    its pieces between ampersands. *)
Definition written_names (queryString : jsstring) : list jsstring :=
  map piece_name (split_on 38 queryString).

(** A lowercase ASCII letter. *)
Definition lowercase (c : N) : Prop := (97 <= c <= 122)%N.

Section Handler.

Variable Json : Type.

(** [response.json()]: the value, or the message of the error it throws. *)
Variable JSON_parse : jsstring -> Json + jsstring.

(** The upstream, by URL and method. *)
Variable upstream : jsstring -> jsstring -> Upstream.

(** [handler(req, res)]: the response sent, and the fetches made, each with
    its URL and method. *)
Definition handler (req : Request)
  : Response Json * list (jsstring * jsstring) :=
  if jsstring_eqb (method req) (js "OPTIONS") then
    ({| headers := cors_headers; statusCode := 200; body := Ended |}, [])
  else
    let failed (message : jsstring) :=
      {| headers := cors_headers; statusCode := 500;
         body := ProxyError message |} in
    (match upstream (apiUrl req) (method req) with
     | FetchRejects message => failed message
     | FetchResponds status text =>
         match JSON_parse text with
         | inl data =>
             {| headers := cors_headers; statusCode := status;
                body := JsonBody data |}
         | inr message => failed message
         end
     end,
     [(apiUrl req, method req)]).

End Handler.

(** *** Samples *)

(** [GET /api/search/songs?query=a b&page=1], routed with
    [path = ['search', 'songs']]. *)
Definition sample_request : Request :=
  {| method := js "GET";
     query := [(js "path", QArray [js "search"; js "songs"]);
               (js "query", QString (js "a b"));
               (js "page", QString (js "1"))] |}.

Definition sample_upstream (url method : jsstring) : Upstream :=
  FetchResponds 404 (js "{}").

(** A stand-in for [response.json()]: the body itself when it opens with a
    brace. *)
Definition sample_JSON_parse_for_proxy (text : jsstring) : jsstring + jsstring :=
  match text with
  | 123%N :: _ => inl text
  | _ => inr (js "Unexpected token")
  end.

End Proxy.

(* ================================================================== *)
(** ** Calls of one instance that overlap *)
(* ================================================================== *)

Module Overlap.

Import Api.

Section Throttle.

Variable config : SaavnApiConfig.

(** [enforceRateLimit] is an [async] method with one [await] in it.  What
    precedes the [await] runs at once when the method is called; what
    follows it runs when the timer has fired.  Other calls of the instance
    can run in between. *)

(** Up to the [await]: the delay the call decides to wait for, if any.
      [const now = Date.now();
       const timeSinceLastRequest = now - this.lastRequestTime;
       if (timeSinceLastRequest < this.config.rateLimitDelay) {
         const delay = this.config.rateLimitDelay - timeSinceLastRequest;] *)
Definition chosen_delay (s : State) : option Z :=
  let timeSinceLastRequest := (clock s - lastRequestTime s)%Z in
  if (timeSinceLastRequest <? rateLimitDelay config)%Z
  then Some (rateLimitDelay config - timeSinceLastRequest)%Z
  else None.

(** [this.lastRequestTime = Date.now();] *)
Definition stamp (s : State) : State :=
  {| lastRequestTime := clock s; clock := clock s;
     fetches := fetches s; events := events s |}.

(** The timer of a wait of [ms] milliseconds that began at [began] has
    fired. *)
Definition timer_fired (began ms : Z) (s : State) : State :=
  {| lastRequestTime := lastRequestTime s;
     clock := began + Z.max 0 ms;
     fetches := fetches s;
     events := events s ++ [EvSleep ms] |}.

(** A call is started: [enforceRateLimit] runs up to its [await], or, with
    nothing to wait for, to its end. *)
Definition call_begins (s : State) : option Z * State :=
  match chosen_delay s with
  | Some delay => (Some delay, s)
  | None => (None, stamp s)
  end.

(** The call goes on: after its timer, when it waits. *)
Definition call_resumes (began : Z) (wait : option Z) (s : State) : State :=
  match wait with
  | Some delay => stamp (timer_fired began delay s)
  | None => s
  end.

(** A call with no other call of the instance under way. *)
Definition alone (s : State) : State :=
  let (wait, s1) := call_begins s in
  call_resumes (clock s) wait s1.

(** Two calls started in the same turn of the event loop, as
      [Promise.all([saavnApi.getArtistSongs(...),
                    saavnApi.getArtistAlbums(...)])]
    starts them: the first runs up to its first [await], then the second
    does, and only then do the calls go on, the first before the second
    (a call that does not wait goes on before any timer; two timers of the
    same delay fire in the order they were set).  The result is the
    instants at which the first and the second call leave
    [enforceRateLimit] for their first fetch, and the state then. *)
Definition together (s : State) : Z * Z * State :=
  let (waitA, s1) := call_begins s in
  let (waitB, s2) := call_begins s1 in
  let sA := call_resumes (clock s) waitA s2 in
  let sB := call_resumes (clock s) waitB sA in
  (clock sA, clock sB, sB).

End Throttle.

(** An instance that made its last request 10 ms ago. *)
Definition just_used : State :=
  {| lastRequestTime := 5000; clock := 5010; fetches := 1; events := [] |}.

End Overlap.

(* ================================================================== *)
(** ** Properties of the player reducer *)
(* ================================================================== *)

Module PlayerFacts.

Import Player.

Local Open Scope nat_scope.

(** *** Array facts *)

Lemma slice_last_length (A : Type) (n : nat) (arr : list A) :
  length (slice_last n arr) = Nat.min n (length arr).
Proof.
  unfold slice_last. rewrite length_skipn. lia.
Qed.

Lemma slice_last_short (A : Type) (n : nat) (arr : list A) :
  length arr <= n -> slice_last n arr = arr.
Proof.
  intros Hlen. unfold slice_last.
  replace (length arr - n) with 0 by lia. reflexivity.
Qed.

Lemma push_history_length (h : list Song) (s : Song) :
  length (push_history h s) = S (Nat.min 49 (length h)).
Proof.
  unfold push_history. rewrite length_app, slice_last_length. simpl. lia.
Qed.

Lemma push_history_bound (h : list Song) (s : Song) :
  length (push_history h s) <= 50.
Proof. rewrite push_history_length. lia. Qed.

Lemma removelast_length_le (A : Type) (arr : list A) :
  length (removelast arr) <= length arr.
Proof.
  induction arr as [|x [|y arr'] IH]; simpl in *; lia.
Qed.

Lemma includes_true_iff (h : list Song) (x : Song) :
  includes h x = true <-> Exists (fun y => song_ref y = song_ref x) h.
Proof.
  unfold includes. rewrite existsb_exists, Exists_exists.
  split; intros [y [Hin Hy]]; exists y; split; trivial;
    unfold same_object in *.
  - apply Nat.eqb_eq in Hy. congruence.
  - apply Nat.eqb_eq. congruence.
Qed.

Lemma includes_false_iff (h : list Song) (x : Song) :
  includes h x = false <-> Forall (fun y => song_ref y <> song_ref x) h.
Proof.
  rewrite <- Bool.not_true_iff_false, includes_true_iff.
  rewrite <- Forall_Exists_neg. reflexivity.
Qed.

Lemma history_after_advance_bound (s : MusicPlayerState) :
  length (history s) <= 50 -> length (history_after_advance s) <= 50.
Proof.
  intros Hb. unfold history_after_advance.
  destruct (currentSong s); [apply push_history_bound | exact Hb].
Qed.

(** Every action keeps a history of at most 50 entries within 50. *)
Lemma reducer_history_bound (rnd : float) (s : MusicPlayerState)
    (a : MusicPlayerAction) :
  length (history s) <= 50 ->
  length (history (musicPlayerReducer rnd s a)) <= 50.
Proof.
  intros Hb.
  pose proof (history_after_advance_bound s Hb) as Hadv.
  destruct a; simpl; try exact Hb.
  - (* SET_CURRENT_SONG *)
    destruct (currentSong s) as [cur|]; [|exact Hb].
    destruct (negb (includes (history s) cur));
      [apply push_history_bound | exact Hb].
  - (* NEXT_SONG *)
    destruct (queue s); simpl; [|exact Hadv].
    destruct (Repeat_eqb (repeat s) Rone); [exact Hb|].
    destruct (shuffle s); simpl; [exact Hadv|].
    destruct (index_geb _ _); simpl; [|exact Hadv].
    destruct (Repeat_eqb (repeat s) Rall); simpl; [exact Hadv | exact Hb].
  - (* PREVIOUS_SONG *)
    destruct (last_opt (history s)); simpl.
    + pose proof (removelast_length_le (history s)). lia.
    + destruct (index_ltb _ _); simpl; [|exact Hb].
      destruct (Repeat_eqb (repeat s) Rall); simpl; exact Hb.
  - (* CLEAR_PLAYER *)
    lia.
Qed.

Lemma run_history_bound (steps : list (float * MusicPlayerAction)) :
  forall s, length (history s) <= 50 -> length (history (run s steps)) <= 50.
Proof.
  induction steps as [|[rnd a] steps IH]; intros s Hb; simpl.
  - exact Hb.
  - apply IH, reducer_history_bound, Hb.
Qed.

(** *** The number primitives on samples *)

Example Math_floor_samples :
  Math_floor 1.5%float = Some 1%Z /\
  Math_floor 3%float = Some 3%Z /\
  Math_floor (-0.5)%float = Some (-1)%Z /\
  Math_floor 0%float = Some 0%Z /\
  Math_floor infinity = None /\
  Math_floor nan = None.
Proof. repeat split; vm_compute; reflexivity. Qed.

(** Two candidates: draws below one half pick the first, the others the
    second. *)
Example random_pick_samples :
  random_pick 0%float [1; 2] = Num 1%Z /\
  random_pick 0.25%float [1; 2] = Num 1%Z /\
  random_pick 0.5%float [1; 2] = Num 2%Z /\
  random_pick 0.75%float [1; 2] = Num 2%Z.
Proof. repeat split; vm_compute; reflexivity. Qed.

(** *** The end of the playlist *)

(** NEXT_SONG at the last index with repeat = none stops playback and keeps
    the track and the index. *)
Example next_song_at_end_stops :
  let s := {| currentSong := Some trackC;
              playlist := [trackA; trackB; trackC];
              currentIndex := Num 2%Z; isPlaying := true; queue := [];
              history := []; repeat := Rnone; shuffle := false |} in
  musicPlayerReducer 0%float s NEXT_SONG
  = {| currentSong := Some trackC;
       playlist := [trackA; trackB; trackC];
       currentIndex := Num 2%Z; isPlaying := false; queue := [];
       history := []; repeat := Rnone; shuffle := false |}.
Proof. reflexivity. Qed.

(** With repeat = all it wraps to the first track. *)
Example next_song_at_end_wraps :
  let s := {| currentSong := Some trackC;
              playlist := [trackA; trackB; trackC];
              currentIndex := Num 2%Z; isPlaying := true; queue := [];
              history := []; repeat := Rall; shuffle := false |} in
  musicPlayerReducer 0%float s NEXT_SONG
  = {| currentSong := Some trackA;
       playlist := [trackA; trackB; trackC];
       currentIndex := Num 0%Z; isPlaying := true; queue := [];
       history := [trackC]; repeat := Rall; shuffle := false |}.
Proof. reflexivity. Qed.

(** *** NEXT_SONG with a queue *)

(** C2. In every state whose queue is non-empty, whatever the repeat mode,
    NEXT_SONG makes the head of the queue the current track and leaves the
    rest queued, appends the previous current track (when there is one) to
    the last 49 entries of the history, and changes neither [currentIndex]
    nor any other field. *)
Theorem next_song_takes_queue_head (rnd : float) (s : MusicPlayerState)
    (head : Song) (rest : list Song) :
  queue s = head :: rest ->
  let s' := musicPlayerReducer rnd s NEXT_SONG in
  currentSong s' = Some head /\
  queue s' = rest /\
  history s' =
    match currentSong s with
    | Some prior => skipn (length (history s) - 49) (history s) ++ [prior]
    | None => history s
    end /\
  currentIndex s' = currentIndex s /\
  playlist s' = playlist s /\
  isPlaying s' = isPlaying s /\
  repeat s' = repeat s /\
  shuffle s' = shuffle s.
Proof.
  intros Hq. simpl. rewrite Hq. simpl.
  repeat split; reflexivity.
Qed.

(** The specification's example: queue = [A, B], repeat = one, current
    track X gives current track A and queue = [B]. *)
Lemma next_song_takes_queue_head_witness :
  queue queued_repeat_one = [trackA; trackB] /\
  repeat queued_repeat_one = Rone /\
  currentSong (musicPlayerReducer 0%float queued_repeat_one NEXT_SONG)
    = Some trackA /\
  queue (musicPlayerReducer 0%float queued_repeat_one NEXT_SONG) = [trackB] /\
  history (musicPlayerReducer 0%float queued_repeat_one NEXT_SONG) = [trackX] /\
  currentIndex (musicPlayerReducer 0%float queued_repeat_one NEXT_SONG) = Num 0%Z.
Proof.
  destruct (@next_song_takes_queue_head 0%float queued_repeat_one
              trackA [trackB] eq_refl)
    as (Hcur & Hqueue & Hhist & Hidx & _).
  repeat split; assumption.
Defined.

(** *** SET_CURRENT_SONG *)

(** C6, as stated, fails: with current track A and history [A, B] the most
    recent entry is B, so the stated rule pushes A; the reducer finds A in
    the history and leaves the history as it is. *)
Lemma set_current_song_most_recent_counterexample :
  history (musicPlayerReducer 0%float replaying
             (SET_CURRENT_SONG trackC None None))
    = [trackA; trackB] /\
  history_pushing_unless_most_recent replaying = [trackA; trackB; trackA] /\
  history (musicPlayerReducer 0%float replaying
             (SET_CURRENT_SONG trackC None None))
    <> history_pushing_unless_most_recent replaying.
Proof.
  repeat split. discriminate.
Qed.

(** C6, amended. SET_CURRENT_SONG sets the current track, playlist and
    index to the action's values, playlist and index staying as they were
    when omitted.  The previous current track is appended to the last 49
    entries of the history (so at most 50 remain) when it exists and no
    entry of the history, at any position, is that same object; otherwise
    the history is unchanged. *)
Theorem set_current_song_history (rnd : float) (s : MusicPlayerState)
    (song : Song) (pl : option (list Song)) (index : option Z) :
  let s' := musicPlayerReducer rnd s (SET_CURRENT_SONG song pl index) in
  currentSong s' = Some song /\
  playlist s' = match pl with Some p => p | None => playlist s end /\
  currentIndex s' = match index with Some i => Num i | None => currentIndex s end /\
  match currentSong s with
  | None => history s' = history s
  | Some prior =>
      (Forall (fun h => song_ref h <> song_ref prior) (history s) ->
       history s' = skipn (length (history s) - 49) (history s) ++ [prior] /\
       length (history s') <= 50) /\
      (Exists (fun h => song_ref h = song_ref prior) (history s) ->
       history s' = history s)
  end.
Proof.
  simpl. split; [reflexivity|]. split; [destruct pl; reflexivity|].
  split; [reflexivity|].
  - destruct (currentSong s) as [prior|]; [|reflexivity].
    split.
    + intros Hnew. apply includes_false_iff in Hnew. rewrite Hnew. simpl.
      split; [reflexivity | apply push_history_bound].
    + intros Hold. apply includes_true_iff in Hold. rewrite Hold. reflexivity.
Qed.

(** A first play of C over current track A with history [B], and a replay
    with A already in the history. *)
Lemma set_current_song_history_witness :
  history (musicPlayerReducer 0%float
             {| currentSong := Some trackA; playlist := []; currentIndex := Num 0%Z;
                isPlaying := true; queue := []; history := [trackB];
                repeat := Rnone; shuffle := false |}
             (SET_CURRENT_SONG trackC None None))
    = [trackB; trackA] /\
  history (musicPlayerReducer 0%float replaying
             (SET_CURRENT_SONG trackC None None))
    = [trackA; trackB].
Proof.
  split.
  - pose proof (@set_current_song_history 0%float
             {| currentSong := Some trackA; playlist := []; currentIndex := Num 0%Z;
                isPlaying := true; queue := []; history := [trackB];
                repeat := Rnone; shuffle := false |}
             trackC None None) as (_ & _ & _ & Hpush & _).
    apply Hpush.
    constructor; [discriminate | constructor].
  - pose proof (@set_current_song_history 0%float replaying trackC None None)
      as (_ & _ & _ & _ & Hkeep).
    apply Hkeep. constructor. reflexivity.
Defined.

(** *** Determinism *)

(** C7, as stated, fails: with shuffle on, three tracks, an empty queue and
    repeat = none, the draws 0 and 0.5 of [Math.random()] lead NEXT_SONG
    from one state to two different states (index 1 and index 2). *)
Lemma reducer_not_deterministic_counterexample :
  currentIndex (musicPlayerReducer 0%float shuffling NEXT_SONG) = Num 1%Z /\
  currentIndex (musicPlayerReducer 0.5%float shuffling NEXT_SONG) = Num 2%Z /\
  musicPlayerReducer 0%float shuffling NEXT_SONG
    <> musicPlayerReducer 0.5%float shuffling NEXT_SONG.
Proof.
  assert (H0 : currentIndex (musicPlayerReducer 0%float shuffling NEXT_SONG)
               = Num 1%Z) by (vm_compute; reflexivity).
  assert (H1 : currentIndex (musicPlayerReducer 0.5%float shuffling NEXT_SONG)
               = Num 2%Z) by (vm_compute; reflexivity).
  split; [exact H0|]. split; [exact H1|].
  intros Heq. rewrite Heq, H1 in H0. discriminate.
Qed.

(** C7, amended. The resulting state is a function of the state, the action
    and the value drawn from [Math.random()], and the draw matters only in
    the shuffle branch: for every action other than NEXT_SONG, and for
    NEXT_SONG when the queue is non-empty, repeat = one or shuffle is off,
    any two evaluations give equal states. *)
Theorem reducer_deterministic_outside_shuffle (rnd1 rnd2 : float)
    (s : MusicPlayerState) (a : MusicPlayerAction) :
  a <> NEXT_SONG \/ queue s <> [] \/ repeat s = Rone \/ shuffle s = false ->
  musicPlayerReducer rnd1 s a = musicPlayerReducer rnd2 s a.
Proof.
  intros H.
  destruct a; try reflexivity.
  simpl.
  destruct (queue s) as [|q rest] eqn:Hq; [|reflexivity].
  destruct H as [H | [H | [H | H]]].
  - contradiction.
  - contradiction.
  - rewrite H. reflexivity.
  - rewrite H. reflexivity.
Qed.

(** The same state with shuffle switched off: both draws give index 1. *)
Lemma reducer_deterministic_outside_shuffle_witness :
  musicPlayerReducer 0%float
    (musicPlayerReducer 0%float shuffling TOGGLE_SHUFFLE) NEXT_SONG
  = musicPlayerReducer 0.5%float
      (musicPlayerReducer 0%float shuffling TOGGLE_SHUFFLE) NEXT_SONG.
Proof.
  apply (@reducer_deterministic_outside_shuffle 0%float 0.5%float
           (musicPlayerReducer 0%float shuffling TOGGLE_SHUFFLE) NEXT_SONG).
  right. right. right. reflexivity.
Defined.

(** *** The history bound *)

(** C8. Every action takes a state whose history has at most 50 entries to
    a state whose history has at most 50 entries; hence every state reached
    from the initial state has at most 50, and 100 SET_CURRENT_SONG actions
    with distinct tracks leave exactly 50. *)
Theorem history_bounded_by_50 :
  (forall rnd s a,
      length (history s) <= 50 ->
      length (history (musicPlayerReducer rnd s a)) <= 50) /\
  (forall steps, length (history (run initialState steps)) <= 50) /\
  length (history (run initialState (play_each (distinct_tracks 1 100)))) = 50.
Proof.
  split; [|split].
  - intros rnd s a. apply reducer_history_bound.
  - intros steps. apply run_history_bound. simpl. lia.
  - vm_compute. reflexivity.
Qed.

(** A full history of 50 entries stays at 50 when one more track is
    played. *)
Lemma history_bounded_by_50_witness :
  length (history (run initialState (play_each (distinct_tracks 1 51)))) = 50 /\
  length (history
            (musicPlayerReducer 0%float
               (run initialState (play_each (distinct_tracks 1 51)))
               (SET_CURRENT_SONG trackX None None))) <= 50.
Proof.
  split.
  - vm_compute. reflexivity.
  - apply (proj1 history_bounded_by_50). vm_compute. lia.
Defined.

(** *** Shuffle with no other track *)

Lemma filter_all_false (A : Type) (f : A -> bool) (l : list A) :
  (forall x, In x l -> f x = false) -> filter f l = [].
Proof.
  induction l as [|x l IH]; intros Hf; simpl; [reflexivity|].
  rewrite (Hf x) by (left; reflexivity).
  apply IH. intros y Hy. apply Hf. right. exact Hy.
Qed.

Lemma availableIndices_nil (pl : list Song) (cur : jsindex) :
  (forall k, k < length pl -> cur = Num (Z.of_nat k)) ->
  availableIndices pl cur = [].
Proof.
  intros Hall. unfold availableIndices.
  apply filter_all_false.
  intros k Hin. apply in_seq in Hin.
  rewrite (Hall k) by lia. simpl.
  rewrite Z.eqb_refl. reflexivity.
Qed.

Lemma random_pick_nil (rnd : float) : random_pick rnd [] = Undefined.
Proof.
  unfold random_pick.
  destruct (Math_floor _) as [k|]; [|reflexivity].
  unfold at_Z. destruct (k <? 0)%Z; [reflexivity|].
  destruct (Z.to_nat k); reflexivity.
Qed.

(** C10. With an empty queue, repeat other than one, shuffle on and a
    playlist no position of which differs from [currentIndex] (it is empty,
    or has one track and [currentIndex] is 0), NEXT_SONG sets the current
    track to null and [currentIndex] to [undefined], which is no position
    of the playlist; the track that was playing is neither kept nor
    repeated. *)
Theorem next_song_shuffle_without_other_track (rnd : float)
    (s : MusicPlayerState) :
  queue s = [] ->
  repeat s <> Rone ->
  shuffle s = true ->
  (forall k, k < length (playlist s) -> currentIndex s = Num (Z.of_nat k)) ->
  let s' := musicPlayerReducer rnd s NEXT_SONG in
  currentSong s' = None /\
  currentIndex s' = Undefined /\
  (forall k, k < length (playlist s') -> currentIndex s' <> Num (Z.of_nat k)).
Proof.
  intros Hq Hrep Hsh Hall. simpl.
  rewrite Hq.
  destruct (repeat s); try contradiction; simpl;
    rewrite Hsh; simpl;
    rewrite (availableIndices_nil _ Hall), random_pick_nil; simpl;
    (split; [reflexivity | split; [reflexivity | intros; discriminate]]).
Qed.

(** One track, playing, shuffle on: NEXT_SONG leaves no current track. *)
Lemma next_song_shuffle_without_other_track_witness :
  currentSong shuffling_single = Some trackA /\
  currentSong (musicPlayerReducer 0.5%float shuffling_single NEXT_SONG) = None /\
  currentIndex (musicPlayerReducer 0.5%float shuffling_single NEXT_SONG)
    = Undefined.
Proof.
  split; [reflexivity|].
  assert (Hall : forall k, k < length (playlist shuffling_single) ->
                           currentIndex shuffling_single = Num (Z.of_nat k)).
  { intros k Hk. simpl in Hk. assert (k = 0) as -> by lia. reflexivity. }
  destruct (@next_song_shuffle_without_other_track 0.5%float shuffling_single
              eq_refl ltac:(discriminate) eq_refl Hall) as (Hc & Hi & _).
  split; assumption.
Defined.

End PlayerFacts.

(* ================================================================== *)
(** ** Properties of the API client *)
(* ================================================================== *)

Module ApiFacts.

Import Errors Api.

Local Open Scope Z_scope.

(** *** Logs *)

Lemma count_fetches_app (l1 l2 : list Event) :
  count_fetches (l1 ++ l2) = (count_fetches l1 + count_fetches l2)%nat.
Proof.
  unfold count_fetches. rewrite filter_app, length_app. reflexivity.
Qed.

Lemma sleeps_app (l1 l2 : list Event) :
  sleeps (l1 ++ l2) = sleeps l1 ++ sleeps l2.
Proof. unfold sleeps. apply flat_map_app. Qed.

Lemma count_fetches_retried_log (url : jsstring) (D : Z) (n : nat) :
  forall from, count_fetches (retried_log url D from n) = n.
Proof.
  induction n as [|n IH]; intros from; simpl; [reflexivity|].
  unfold count_fetches in *. simpl. rewrite IH. reflexivity.
Qed.

Lemma sleeps_retried_log (url : jsstring) (D : Z) (n : nat) :
  forall from,
    sleeps (retried_log url D from n)
    = map (fun k => D * 2 ^ Z.of_nat k) (seq from n).
Proof.
  induction n as [|n IH]; intros from; simpl; [reflexivity|].
  unfold sleeps in *. simpl. rewrite IH. reflexivity.
Qed.

(** A call that ends at attempt [n] made [n + 1] fetches. *)
Lemma count_fetches_backoff_log (url : jsstring) (D : Z) (n : nat) :
  count_fetches (backoff_log url D n) = S n.
Proof.
  unfold backoff_log. rewrite count_fetches_app, count_fetches_retried_log.
  unfold count_fetches. simpl. lia.
Qed.

(** Its sleeps are [D], [2 D], [4 D], ..., [2^(n-1) D]. *)
Lemma sleeps_backoff_log (url : jsstring) (D : Z) (n : nat) :
  sleeps (backoff_log url D n) = map (fun k => D * 2 ^ Z.of_nat k) (seq 0 n).
Proof.
  unfold backoff_log. rewrite sleeps_app, sleeps_retried_log.
  unfold sleeps. simpl. apply app_nil_r.
Qed.

Section Facts.

Variable Json : Type.
Variable JSON_parse : jsstring -> Json + jsstring.
Variable config : SaavnApiConfig.
Variable net : Network.

(** *** The pieces run as their closed forms say *)

Lemma enforceRateLimit_run (s : State) :
  enforceRateLimit Json config s = (inr tt, after_rate_limit config s).
Proof.
  unfold enforceRateLimit, after_rate_limit, rate_limit_log, bind,
    Date_now, get_lastRequestTime, set_lastRequestTime, sleep, ret.
  simpl.
  destruct (clock s - lastRequestTime s <? rateLimitDelay config); simpl.
  - reflexivity.
  - rewrite Z.add_0_r, app_nil_r. reflexivity.
Qed.

Lemma after_rate_limit_fetches (s : State) :
  fetches (after_rate_limit config s) = fetches s.
Proof. reflexivity. Qed.

Lemma after_rate_limit_events (s : State) :
  events (after_rate_limit config s) = events s ++ rate_limit_log config s.
Proof. reflexivity. Qed.

Lemma attempt_body_run (url : jsstring) (s : State) :
  attempt_body JSON_parse config net url s
  = (attempt_result JSON_parse config (net (fetches s)),
     after_fetch config net url s).
Proof.
  unfold attempt_body, attempt_result, after_fetch, elapsed, bind,
    fetch_with_timeout.
  destruct (timeout config <? latency (net (fetches s))); [reflexivity|].
  destruct (reply (net (fetches s))) as [message|st body]; [reflexivity|].
  cbv zeta.
  destruct (negb (ok {| status := st; text := body |})); [reflexivity|].
  cbn [text status].
  destruct body as [|c body]; [reflexivity|].
  destruct (JSON_parse (c :: body)); reflexivity.
Qed.

(** The state a sleep leaves. *)
Lemma sleep_run (ms : Z) (s : State) :
  sleep Json ms s
  = (inr tt,
     {| lastRequestTime := lastRequestTime s;
        clock := clock s + Z.max 0 ms;
        fetches := fetches s;
        events := events s ++ [EvSleep ms] |}).
Proof. reflexivity. Qed.

(** One iteration of the loop, by what its attempt yields. *)
Lemma attempts_step (url : jsstring) (remaining attempt : nat)
    (lastError : option (Error Json)) (s : State) :
  attempts JSON_parse config net url (S remaining) attempt lastError s
  = match attempt_result JSON_parse config (net (fetches s)) with
    | inr parsedData => (inr parsedData, after_fetch config net url s)
    | inl error =>
        if no_retry error then (inl error, after_fetch config net url s)
        else if is_AbortError error then
          (inl (NetworkError (js "Request timeout") (Some error)),
           after_fetch config net url s)
        else if (attempt <? maxRetries config)%nat then
          attempts JSON_parse config net url remaining (S attempt) (Some error)
            (snd (sleep Json (retryDelay config * 2 ^ Z.of_nat attempt)
                    (after_fetch config net url s)))
        else
          attempts JSON_parse config net url remaining (S attempt) (Some error)
            (after_fetch config net url s)
    end.
Proof.
  cbn [attempts]. unfold try_catch. rewrite attempt_body_run.
  destruct (attempt_result JSON_parse config (net (fetches s))) as [error|v];
    [|reflexivity].
  destruct (no_retry error); [reflexivity|].
  destruct (is_AbortError error); [reflexivity|].
  destruct (attempt <? maxRetries config)%nat; reflexivity.
Qed.

Lemma makeRequest_run (endpoint : jsstring) (s : State) :
  makeRequest JSON_parse config net endpoint s
  = attempts JSON_parse config net (baseUrl config ++ endpoint)
      (S (maxRetries config)) 0 None (after_rate_limit config s).
Proof.
  unfold makeRequest, bind. rewrite enforceRateLimit_run. reflexivity.
Qed.

(** *** Which outcomes are retried *)

Lemma server_failure_retry_outcome (o : NetOutcome) :
  server_failure config o -> retry_outcome JSON_parse config o.
Proof.
  intros [Hlat Hreply]. unfold retry_outcome, attempt_result.
  apply Z.ltb_ge in Hlat. rewrite Hlat.
  destruct (reply o) as [message|st body].
  - eexists. split; reflexivity.
  - assert (Hok : ok {| status := st; text := body |} = false).
    { unfold ok. cbn [status]. apply andb_false_iff. right.
      apply Z.leb_gt. lia. }
    cbv zeta. rewrite Hok. cbn [negb].
    eexists. split; [reflexivity|].
    unfold retried, no_retry.
    replace (st <? 500) with false by (symmetry; apply Z.ltb_ge; lia).
    rewrite andb_false_r. reflexivity.
Qed.


Lemma client_error_result (o : NetOutcome) (st : Z) (body : jsstring) :
  latency o <= timeout config ->
  reply o = Respond st body ->
  400 <= st <= 499 ->
  attempt_result JSON_parse config o
  = inl (ApiResponseError
           (js "HTTP " ++ Z_to_jsstring st ++ js ": Request failed") st
           (safelyParseErrorResponse JSON_parse {| status := st; text := body |})).
Proof.
  intros Hlat Hreply Hst. unfold attempt_result.
  apply Z.ltb_ge in Hlat. rewrite Hlat, Hreply. cbv zeta.
  assert (Hok : ok {| status := st; text := body |} = false).
  { unfold ok. cbn [status]. apply andb_false_iff. right.
    apply Z.leb_gt. lia. }
  rewrite Hok. reflexivity.
Qed.

(** *** Attempts that fail and are retried *)

(** [k] attempts in a row that fail with a retried error, none of them the
    last one allowed: the loop logs a fetch and a backoff sleep for each
    and goes on with attempt [attempt + k]. *)
Lemma attempts_retry_prefix (url : jsstring) (r : nat) :
  forall (k attempt : nat) (lastError : option (Error Json)) (s : State),
    (attempt + k <= maxRetries config)%nat ->
    (forall j, (j < k)%nat ->
               retry_outcome JSON_parse config (net (fetches s + j)%nat)) ->
    exists lastError' s',
      attempts JSON_parse config net url (k + r) attempt lastError s
      = attempts JSON_parse config net url r (attempt + k) lastError' s' /\
      events s'
      = events s ++ retried_log url (retryDelay config) attempt k /\
      fetches s' = (fetches s + k)%nat.
Proof.
  induction k as [|k IH]; intros attempt lastError s Hcap Hfail.
  - exists lastError, s. rewrite !Nat.add_0_r, app_nil_r. auto.
  - destruct (Hfail 0%nat ltac:(lia)) as (error & Hres & Hretried).
    rewrite Nat.add_0_r in Hres.
    unfold retried in Hretried. apply andb_true_iff in Hretried.
    destruct Hretried as [Hno Hab].
    apply negb_true_iff in Hno. apply negb_true_iff in Hab.
    cbn [Nat.add]. rewrite attempts_step, Hres, Hno, Hab.
    replace (attempt <? maxRetries config)%nat with true
      by (symmetry; apply Nat.ltb_lt; lia).
    rewrite sleep_run. cbn [snd].
    match goal with
    | |- context [attempts _ _ _ _ _ _ _ ?s2] =>
        destruct (IH (S attempt) (Some error) s2) as (le' & s' & Hrun & Hev & Hf)
    end.
    + lia.
    + intros j Hj. cbn [fetches after_fetch].
      replace (S (fetches s) + j)%nat with (fetches s + S j)%nat by lia.
      apply Hfail. lia.
    + exists le', s'. split; [|split].
      * rewrite Hrun. f_equal. lia.
      * rewrite Hev. cbn [events after_fetch retried_log].
        rewrite <- !app_assoc. reflexivity.
      * rewrite Hf. cbn [fetches after_fetch]. lia.
Qed.

Lemma count_fetches_rate_limit_log (s : State) :
  count_fetches (rate_limit_log config s) = 0%nat.
Proof.
  unfold rate_limit_log.
  destruct (clock s - lastRequestTime s <? rateLimitDelay config); reflexivity.
Qed.

(** A call that ends at attempt [k]: [k] retried failures, then an attempt
    whose error the [catch] clause rethrows as [thrown]. *)
Lemma makeRequest_ends_at (endpoint : jsstring) (s : State) (k : nat)
    (error thrown : Error Json) :
  (k <= maxRetries config)%nat ->
  (forall j, (j < k)%nat ->
             retry_outcome JSON_parse config (net (fetches s + j)%nat)) ->
  attempt_result JSON_parse config (net (fetches s + k)%nat) = inl error ->
  (if no_retry error then thrown = error
   else is_AbortError error = true /\
        thrown = NetworkError (js "Request timeout") (Some error)) ->
  exists s',
    makeRequest JSON_parse config net endpoint s = (inl thrown, s') /\
    events s'
    = events s ++ rate_limit_log config s
        ++ backoff_log (baseUrl config ++ endpoint) (retryDelay config) k /\
    fetches s' = (fetches s + S k)%nat.
Proof.
  intros Hk Hfail Hres Hthrown.
  rewrite makeRequest_run.
  destruct (@attempts_retry_prefix (baseUrl config ++ endpoint)
              (S (maxRetries config - k)) k 0%nat None
              (after_rate_limit config s))
    as (le' & s1 & Hrun & Hev & Hf).
  - lia.
  - intros j Hj. rewrite after_rate_limit_fetches. apply Hfail, Hj.
  - replace (S (maxRetries config)) with (k + S (maxRetries config - k))%nat
      by lia.
    rewrite Hrun, attempts_step.
    rewrite after_rate_limit_fetches in Hf. rewrite Hf, Hres.
    exists (after_fetch config net (baseUrl config ++ endpoint) s1).
    split; [|split].
    + destruct (no_retry error).
      * rewrite Hthrown. reflexivity.
      * destruct Hthrown as [Hab ->]. rewrite Hab. reflexivity.
    + cbn [events after_fetch]. rewrite Hev, after_rate_limit_events.
      unfold backoff_log. rewrite <- !app_assoc. reflexivity.
    + cbn [fetches after_fetch]. lia.
Qed.

(** A 4xx response to the first attempt ends the call there. *)
Lemma makeRequest_client_error (endpoint : jsstring) (s : State)
    (st : Z) (body : jsstring) :
  latency (net (fetches s)) <= timeout config ->
  reply (net (fetches s)) = Respond st body ->
  400 <= st <= 499 ->
  exists s',
    makeRequest JSON_parse config net endpoint s
    = (inl (ApiResponseError
              (js "HTTP " ++ Z_to_jsstring st ++ js ": Request failed") st
              (safelyParseErrorResponse JSON_parse
                 {| status := st; text := body |})), s') /\
    events s'
    = events s ++ rate_limit_log config s ++ [EvFetch (baseUrl config ++ endpoint)] /\
    fetches s' = S (fetches s).
Proof.
  intros Hlat Hreply Hst.
  destruct (@makeRequest_ends_at endpoint s 0%nat
              (ApiResponseError
                 (js "HTTP " ++ Z_to_jsstring st ++ js ": Request failed") st
                 (safelyParseErrorResponse JSON_parse
                    {| status := st; text := body |}))
              (ApiResponseError
                 (js "HTTP " ++ Z_to_jsstring st ++ js ": Request failed") st
                 (safelyParseErrorResponse JSON_parse
                    {| status := st; text := body |})))
    as (s' & Hrun & Hev & Hf).
  - lia.
  - intros j Hj. lia.
  - rewrite Nat.add_0_r. apply client_error_result; assumption.
  - cbn [no_retry].
    replace (400 <=? st) with true by (symmetry; apply Z.leb_le; lia).
    replace (st <? 500) with true by (symmetry; apply Z.ltb_lt; lia).
    reflexivity.
  - exists s'. split; [exact Hrun|]. split; [exact Hev|]. lia.
Qed.

(** A 4xx response to any attempt ends the call at that attempt. *)
Lemma client_error_ends_call (endpoint : jsstring) (s : State) (k : nat)
    (st : Z) (body : jsstring) :
  (k <= maxRetries config)%nat ->
  (forall j, (j < k)%nat -> server_failure config (net (fetches s + j)%nat)) ->
  latency (net (fetches s + k)%nat) <= timeout config ->
  reply (net (fetches s + k)%nat) = Respond st body ->
  400 <= st <= 499 ->
  exists data s',
    makeRequest JSON_parse config net endpoint s
    = (inl (ApiResponseError
              (js "HTTP " ++ Z_to_jsstring st ++ js ": Request failed") st
              data), s') /\
    fetches s' = (fetches s + S k)%nat.
Proof.
  intros Hk Hfail Hlat Hreply Hst.
  pose proof (client_error_result _ Hlat Hreply Hst) as Hres.
  destruct (@makeRequest_ends_at endpoint s k _
              (ApiResponseError
                 (js "HTTP " ++ Z_to_jsstring st ++ js ": Request failed") st
                 (safelyParseErrorResponse JSON_parse
                    {| status := st; text := body |}))
              Hk
              (fun j Hj => server_failure_retry_outcome (Hfail j Hj)) Hres)
    as (s' & Hrun & _ & Hf).
  - cbn [no_retry].
    replace (400 <=? st) with true by (symmetry; apply Z.leb_le; lia).
    replace (st <? 500) with true by (symmetry; apply Z.ltb_lt; lia).
    reflexivity.
  - eexists _, s'. split; [exact Hrun | exact Hf].
Qed.

(** *** The claims about [makeRequest] *)


(** C3. When the response has a status in 400..499, the client makes
    exactly one attempt: the call fails with the [ApiResponseError] of that
    status after a single fetch, with no backoff sleep and no retry. *)
Theorem client_error_not_retried (endpoint : jsstring) (s : State)
    (st : Z) (body : jsstring) :
  latency (net (fetches s)) <= timeout config ->
  reply (net (fetches s)) = Respond st body ->
  400 <= st <= 499 ->
  exists s',
    makeRequest JSON_parse config net endpoint s
    = (inl (ApiResponseError
              (js "HTTP " ++ Z_to_jsstring st ++ js ": Request failed") st
              (safelyParseErrorResponse JSON_parse
                 {| status := st; text := body |})), s') /\
    events s'
    = events s ++ rate_limit_log config s
        ++ [EvFetch (baseUrl config ++ endpoint)] /\
    count_fetches (events s') = S (count_fetches (events s)) /\
    sleeps (events s') = sleeps (events s) ++ sleeps (rate_limit_log config s).
Proof.
  intros Hlat Hreply Hst.
  destruct (makeRequest_client_error endpoint s Hlat Hreply Hst)
    as (s' & Hrun & Hev & _).
  exists s'. split; [exact Hrun|]. split; [exact Hev|]. split.
  - rewrite Hev, !count_fetches_app, count_fetches_rate_limit_log.
    change (count_fetches [EvFetch (baseUrl config ++ endpoint)]) with 1%nat.
    lia.
  - rewrite Hev, !sleeps_app.
    change (sleeps [EvFetch (baseUrl config ++ endpoint)]) with (@nil Z).
    rewrite app_nil_r. reflexivity.
Qed.

(** C4. When every attempt fails with a status of 500 or more or with a
    connection failure (within the timeout), the client makes exactly
    [maxRetries + 1] attempts, sleeping [retryDelay * 2^attempt] after
    attempt 0, 1, ..., [maxRetries - 1] (D, 2D, 4D, ...), and then fails
    with the Network error that wraps the last attempt's error. *)
Theorem server_failures_exhaust_retries (endpoint : jsstring) (s : State) :
  (forall k, (k <= maxRetries config)%nat ->
             server_failure config (net (fetches s + k)%nat)) ->
  exists lastError s',
    makeRequest JSON_parse config net endpoint s
    = (inl (NetworkError
              (js "Failed to complete request after "
                 ++ Z_to_jsstring (Z.of_nat (maxRetries config) + 1)
                 ++ js " attempts")
              (Some lastError)), s') /\
    events s'
    = events s ++ rate_limit_log config s
        ++ backoff_log (baseUrl config ++ endpoint) (retryDelay config)
             (maxRetries config) /\
    count_fetches (events s')
    = (count_fetches (events s) + (maxRetries config + 1))%nat /\
    sleeps (events s')
    = sleeps (events s) ++ sleeps (rate_limit_log config s)
        ++ map (fun attempt => retryDelay config * 2 ^ Z.of_nat attempt)
             (seq 0 (maxRetries config)).
Proof.
  intros Hfail.
  rewrite makeRequest_run.
  destruct (@attempts_retry_prefix (baseUrl config ++ endpoint) 1%nat
              (maxRetries config) 0%nat None (after_rate_limit config s))
    as (le' & s1 & Hrun & Hev & Hf).
  - lia.
  - intros j Hj. rewrite after_rate_limit_fetches.
    apply server_failure_retry_outcome, Hfail. lia.
  - rewrite after_rate_limit_fetches in Hf.
    destruct (@server_failure_retry_outcome (net (fetches s1)))
      as (error & Hres & Hretried).
    { rewrite Hf. apply Hfail. lia. }
    unfold retried in Hretried. apply andb_true_iff in Hretried.
    destruct Hretried as [Hno Hab].
    apply negb_true_iff in Hno. apply negb_true_iff in Hab.
    replace (S (maxRetries config)) with (maxRetries config + 1)%nat by lia.
    rewrite Hrun, attempts_step, Hres, Hno, Hab.
    cbn [Nat.add]. rewrite Nat.ltb_irrefl.
    exists error, (after_fetch config net (baseUrl config ++ endpoint) s1).
    assert (Hlog : events (after_fetch config net (baseUrl config ++ endpoint) s1)
                   = events s ++ rate_limit_log config s
                       ++ backoff_log (baseUrl config ++ endpoint)
                            (retryDelay config) (maxRetries config)).
    { cbn [events after_fetch]. rewrite Hev, after_rate_limit_events.
      unfold backoff_log. rewrite <- !app_assoc. reflexivity. }
    split; [reflexivity|]. split; [exact Hlog|]. split.
    + rewrite Hlog, !count_fetches_app, count_fetches_rate_limit_log,
        count_fetches_backoff_log. lia.
    + rewrite Hlog, !sleeps_app, sleeps_backoff_log. reflexivity.
Qed.

(** *** Validation *)

Lemma validate_rejects (query : jsstring) :
  length (JsString.trim query) = 0%nat \/
  (100 < length (JsString.trim query))%nat ->
  exists message,
    @validateAndSanitizeQuery Json query = inl (ValidationError message).
Proof.
  intros Hbad. unfold validateAndSanitizeQuery.
  destruct query as [|c query]; [eexists; reflexivity|].
  destruct (Nat.eqb_spec (length (JsString.trim (c :: query))) 0)
    as [Hz|Hnz]; [eexists; reflexivity|].
  destruct Hbad as [Hbad|Hbad]; [contradiction|].
  apply Nat.ltb_lt in Hbad. rewrite Hbad. eexists; reflexivity.
Qed.

(** C5. A query that is empty once trimmed, or longer than 100 code units
    once trimmed, makes each of the five search operations fail with a
    Validation error and leaves the state as it was: no rate-limit wait, no
    fetch, no backoff, hence nothing to retry. *)
Theorem invalid_query_rejected_before_request (query : jsstring)
    (page limit : Z) (s : State) :
  length (JsString.trim query) = 0%nat \/
  (100 < length (JsString.trim query))%nat ->
  exists message,
    search JSON_parse config net query s
      = (inl (ValidationError message), s) /\
    searchSongs JSON_parse config net query page limit s
      = (inl (ValidationError message), s) /\
    searchAlbums JSON_parse config net query page limit s
      = (inl (ValidationError message), s) /\
    searchArtists JSON_parse config net query page limit s
      = (inl (ValidationError message), s) /\
    searchPlaylists JSON_parse config net query page limit s
      = (inl (ValidationError message), s).
Proof.
  intros Hbad. destruct (validate_rejects query Hbad) as [message Hv].
  exists message.
  unfold search, searchSongs, searchAlbums, searchArtists, searchPlaylists,
    search_operation.
  rewrite Hv. repeat split; reflexivity.
Qed.

End Facts.

(** *** The claims at the sample client *)



(** A 404 under the default configuration: one fetch, no sleep. *)
Lemma client_error_not_retried_witness :
  exists s',
    makeRequest sample_JSON_parse (DEFAULT_CONFIG false) (always not_found)
      (js "/api/songs/none") (fresh 5000)
    = (inl (ApiResponseError (js "HTTP 404: Request failed") 404
              (RD_parsed (js "{}"))), s') /\
    count_fetches (events s') = 1%nat /\
    sleeps (events s') = [].
Proof.
  destruct (@client_error_not_retried _ sample_JSON_parse (DEFAULT_CONFIG false)
              (always not_found) (js "/api/songs/none") (fresh 5000)
              404 (js "{}"))
    as (s' & Hrun & _ & Hcount & Hsleeps).
  - simpl. lia.
  - reflexivity.
  - lia.
  - exists s'. split; [exact Hrun|]. split; [exact Hcount | exact Hsleeps].
Defined.

(** A server that answers 503 every time, under the default configuration:
    four fetches, with sleeps of 1 s, 2 s and 4 s between them. *)
Lemma server_failures_exhaust_retries_witness :
  exists lastError s',
    makeRequest sample_JSON_parse (DEFAULT_CONFIG false) (always unavailable)
      (js "/api/search?query=a") (fresh 5000)
    = (inl (NetworkError (js "Failed to complete request after 4 attempts")
              (Some lastError)), s') /\
    count_fetches (events s') = 4%nat /\
    sleeps (events s') = [1000; 2000; 4000].
Proof.
  destruct (@server_failures_exhaust_retries _ sample_JSON_parse
              (DEFAULT_CONFIG false) (always unavailable)
              (js "/api/search?query=a") (fresh 5000))
    as (lastError & s' & Hrun & _ & Hcount & Hsleeps).
  - intros k Hk. split; [simpl; lia | simpl; lia].
  - exists lastError, s'.
    split; [exact Hrun|]. split; [exact Hcount | exact Hsleeps].
Defined.

(** Three spaces are rejected by all five operations, the state untouched. *)
Lemma invalid_query_rejected_before_request_witness :
  exists message,
    search sample_JSON_parse (DEFAULT_CONFIG false) (always not_found)
      blank_query (fresh 5000)
    = (inl (ValidationError message), fresh 5000) /\
    searchSongs sample_JSON_parse (DEFAULT_CONFIG false) (always not_found)
      blank_query 0 10 (fresh 5000)
    = (inl (ValidationError message), fresh 5000).
Proof.
  destruct (@invalid_query_rejected_before_request _ sample_JSON_parse
              (DEFAULT_CONFIG false) (always not_found) blank_query 0 10
              (fresh 5000))
    as (message & Hsearch & Hsongs & _).
  - left. reflexivity.
  - exists message. split; [exact Hsearch | exact Hsongs].
Defined.

(** C9, as stated, fails: the search for abc answered by a 404 surfaces a
    [SaavnApiError], which is no [ApiResponseError] and carries no status
    code, and the message shown to the user is the fixed one of
    [SaavnApiError], not the not-found guidance. *)
Lemma not_found_surfaces_SaavnApiError_counterexample :
  fst (search sample_JSON_parse (DEFAULT_CONFIG false) (always not_found)
         (js "abc") (fresh 5000))
  = inl (SaavnApiError (js "Search failed for query: abc") (js "search")
           [(js "query", CString (js "abc"));
            (js "error", CString (js "HTTP 404: Request failed"))]) /\
  (forall e,
      fst (search sample_JSON_parse (DEFAULT_CONFIG false) (always not_found)
             (js "abc") (fresh 5000)) = inl e ->
      instanceof_ApiResponseError e = false /\
      hook_errorMessage e = js "API request failed. Please try again." /\
      hook_errorMessage e <> ApiResponseError_getUserMessage 404).
Proof.
  assert (Hrun :
    fst (search sample_JSON_parse (DEFAULT_CONFIG false) (always not_found)
           (js "abc") (fresh 5000))
    = inl (SaavnApiError (js "Search failed for query: abc") (js "search")
             [(js "query", CString (js "abc"));
              (js "error", CString (js "HTTP 404: Request failed"))]))
    by (vm_compute; reflexivity).
  split; [exact Hrun|].
  intros e He. rewrite Hrun in He. injection He as <-.
  split; [reflexivity|]. split; [reflexivity|].
  vm_compute. discriminate.
Qed.

End ApiFacts.

(* ================================================================== *)
(** ** What the caller of a catalog operation sees *)
(* ================================================================== *)

Module CatalogFacts.

Import Errors Api ApiOperations.

Local Open Scope Z_scope.

Section Facts.

Variable Json : Type.
Variable JSON_parse : jsstring -> Json + jsstring.
Variable config : SaavnApiConfig.
Variable net : Network.

(** *** How a request ends on a response that is not a 2xx *)

Lemma non_2xx_result (o : NetOutcome) (st : Z) (body : jsstring) :
  latency o <= timeout config ->
  reply o = Respond st body ->
  ~ 200 <= st <= 299 ->
  attempt_result JSON_parse config o
  = inl (ApiResponseError
           (js "HTTP " ++ Z_to_jsstring st ++ js ": Request failed") st
           (safelyParseErrorResponse JSON_parse {| status := st; text := body |})).
Proof.
  intros Hlat Hreply Hst. unfold attempt_result.
  apply Z.ltb_ge in Hlat. rewrite Hlat, Hreply. cbv zeta.
  assert (Hok : ok {| status := st; text := body |} = false).
  { unfold ok. cbn [status]. apply andb_false_iff.
    destruct (Z.leb_spec 200 st); [right; apply Z.leb_gt; lia | left; reflexivity]. }
  rewrite Hok. reflexivity.
Qed.

(** The last attempt allowed fails with a retried error, after retried
    failures of all the earlier ones: the call gives up. *)
Lemma makeRequest_gives_up (endpoint : jsstring) (s : State)
    (error : Error Json) :
  (forall j, (j < maxRetries config)%nat ->
             retry_outcome JSON_parse config (net (fetches s + j)%nat)) ->
  attempt_result JSON_parse config (net (fetches s + maxRetries config)%nat)
  = inl error ->
  retried error = true ->
  exists s',
    makeRequest JSON_parse config net endpoint s
    = (inl (exhausted config (Some error)), s') /\
    fetches s' = (fetches s + S (maxRetries config))%nat.
Proof.
  intros Hfail Hres Hretried.
  rewrite ApiFacts.makeRequest_run.
  destruct (@ApiFacts.attempts_retry_prefix _ JSON_parse config net
              (baseUrl config ++ endpoint) 1%nat
              (maxRetries config) 0%nat None (after_rate_limit config s))
    as (le' & s1 & Hrun & _ & Hf).
  - lia.
  - intros j Hj. rewrite ApiFacts.after_rate_limit_fetches. apply Hfail, Hj.
  - rewrite ApiFacts.after_rate_limit_fetches in Hf.
    unfold retried in Hretried. apply andb_true_iff in Hretried.
    destruct Hretried as [Hno Hab].
    apply negb_true_iff in Hno. apply negb_true_iff in Hab.
    replace (S (maxRetries config)) with (maxRetries config + 1)%nat by lia.
    rewrite Hrun, ApiFacts.attempts_step, Hf, Hres, Hno, Hab.
    cbn [Nat.add]. rewrite Nat.ltb_irrefl.
    eexists. split; [reflexivity|].
    cbn [fetches after_fetch]. lia.
Qed.


(** A call whose attempt [k] is answered, in time, with a status that is
    not a 2xx, and where the call ends there: a 4xx, or the last attempt
    allowed. *)
Lemma makeRequest_non_2xx (endpoint : jsstring) (s : State) (k : nat)
    (st : Z) (body : jsstring) :
  (k <= maxRetries config)%nat ->
  (forall j, (j < k)%nat ->
             retry_outcome JSON_parse config (net (fetches s + j)%nat)) ->
  latency (net (fetches s + k)%nat) <= timeout config ->
  reply (net (fetches s + k)%nat) = Respond st body ->
  ~ 200 <= st <= 299 ->
  400 <= st <= 499 \/ k = maxRetries config ->
  exists cause s',
    makeRequest JSON_parse config net endpoint s = (inl cause, s') /\
    fetches s' = (fetches s + S k)%nat /\
    (400 <= st <= 499 ->
     cause = ApiResponseError
               (js "HTTP " ++ Z_to_jsstring st ++ js ": Request failed") st
               (safelyParseErrorResponse JSON_parse
                  {| status := st; text := body |})) /\
    (~ 400 <= st <= 499 ->
     cause = NetworkError
               (js "Failed to complete request after "
                  ++ Z_to_jsstring (Z.of_nat (maxRetries config) + 1)
                  ++ js " attempts")
               (Some (ApiResponseError
                        (js "HTTP " ++ Z_to_jsstring st
                           ++ js ": Request failed") st
                        (safelyParseErrorResponse JSON_parse
                           {| status := st; text := body |})))).
Proof.
  intros Hk Hfail Hlat Hreply Hst Hends.
  pose proof (non_2xx_result _ Hlat Hreply Hst) as Hres.
  destruct (Z.le_gt_cases 400 st) as [Hlow|Hlow];
    [destruct (Z.le_gt_cases st 499) as [Hhigh|Hhigh]|].
  - (* a client error *)
    destruct (@ApiFacts.makeRequest_ends_at _ JSON_parse config net endpoint
                s k _
                (ApiResponseError
                   (js "HTTP " ++ Z_to_jsstring st ++ js ": Request failed") st
                   (safelyParseErrorResponse JSON_parse
                      {| status := st; text := body |}))
                Hk Hfail Hres)
      as (s' & Hrun & _ & Hf).
    + cbn [no_retry].
      replace (400 <=? st) with true by (symmetry; apply Z.leb_le; lia).
      replace (st <? 500) with true by (symmetry; apply Z.ltb_lt; lia).
      reflexivity.
    + eexists _, s'. split; [exact Hrun|]. split; [exact Hf|].
      split; [reflexivity | lia].
  - (* 500 and above, at the last attempt *)
    destruct Hends as [Hclient | ->]; [lia|].
    destruct (makeRequest_gives_up endpoint s Hfail Hres) as (s' & Hrun & Hf).
    + unfold retried. cbn [no_retry].
      replace (st <? 500) with false by (symmetry; apply Z.ltb_ge; lia).
      rewrite andb_false_r. reflexivity.
    + eexists _, s'. split; [exact Hrun|]. split; [exact Hf|].
      split; [lia | reflexivity].
  - (* below 400, at the last attempt *)
    destruct Hends as [Hclient | ->]; [lia|].
    destruct (makeRequest_gives_up endpoint s Hfail Hres) as (s' & Hrun & Hf).
    + unfold retried. cbn [no_retry].
      replace (400 <=? st) with false by (symmetry; apply Z.leb_gt; lia).
      reflexivity.
    + eexists _, s'. split; [exact Hrun|]. split; [exact Hf|].
      split; [lia | reflexivity].
Qed.

(** *** The shape of an operation *)

Lemma search_operation_shape (query : jsstring)
    (endpoint : jsstring -> jsstring) (failure operation : jsstring)
    (context : list (jsstring * ContextValue)) (s : State) :
  requests_or_fails JSON_parse config net
    (search_operation JSON_parse config net query endpoint failure operation
       context)
    (failure ++ query) operation context s.
Proof.
  unfold requests_or_fails, search_operation.
  destruct (validateAndSanitizeQuery query) as [error|sanitizedQuery].
  - left. exists error. reflexivity.
  - right. exists (endpoint sanitizedQuery). reflexivity.
Qed.

Lemma id_operation_shape (id required : jsstring)
    (endpoint : jsstring -> jsstring) (failure operation : jsstring)
    (context : list (jsstring * ContextValue)) (s : State) :
  requests_or_fails JSON_parse config net
    (id_operation JSON_parse config net id required endpoint failure operation
       context)
    (failure ++ id) operation context s.
Proof.
  unfold requests_or_fails, id_operation.
  destruct id as [|c id].
  - left. eexists. reflexivity.
  - destruct (JsString.encodeURIComponent (c :: id)) as [encoded|].
    + right. exists (endpoint encoded). reflexivity.
    + left. eexists. reflexivity.
Qed.

Lemma link_operation_shape (id : jsstring) (link : option jsstring)
    (required path : jsstring) (params : list (jsstring * jsstring))
    (failure operation : jsstring)
    (context : list (jsstring * ContextValue)) (s : State) :
  requests_or_fails JSON_parse config net
    (link_operation JSON_parse config net id link required path params failure
       operation context)
    failure operation context s.
Proof.
  unfold requests_or_fails, link_operation.
  destruct (falsy id && falsy_optional link).
  - left. eexists. reflexivity.
  - right. eexists. reflexivity.
Qed.

Lemma getSongs_shape (ids : list jsstring) (s : State) :
  requests_or_fails JSON_parse config net
    (getSongs JSON_parse config net ids)
    (js "Failed to fetch songs with IDs: " ++ Array_join (js ",") ids)
    (js "getSongs") [(js "ids", CArray ids)] s.
Proof.
  unfold requests_or_fails, getSongs.
  destruct ids as [|id ids].
  - left. eexists. reflexivity.
  - cbv zeta.
    destruct (JsString.encodeURIComponent (Array_join (js ",") (id :: ids)))
      as [encoded|].
    + right. eexists. reflexivity.
    + left. eexists. reflexivity.
Qed.

(** Each of the fourteen operations has that shape, with a message and a
    context that depend on its arguments only. *)
Lemma perform_shape (call : CatalogCall) :
  exists message context,
    forall s,
      requests_or_fails JSON_parse config net
        (perform JSON_parse config net call) message (operation_name call)
        context s.
Proof.
  destruct call; cbn [perform operation_name]; eexists _, _; intros s;
    first [ apply search_operation_shape
          | apply id_operation_shape
          | apply link_operation_shape
          | apply getSongs_shape ].
Qed.

(** *** What the caller of an operation sees *)

(** C9, amended. When one of the fourteen catalog operations terminally
    fails because of a response that is not a 2xx (a 4xx at any attempt,
    or any other such status at the last attempt allowed, the earlier
    attempts having failed with retried errors), the error surfaced to the
    caller is a [SaavnApiError] that names the operation.  Its message and
    the rest of its context depend on the arguments of the call only; of
    the underlying error the context keeps the message text alone: that of
    the [ApiResponseError] with the status for a 4xx, that of the
    [NetworkError] wrapping it otherwise.  The surfaced error is no
    [ApiResponseError], and the message shown to the user is the fixed text
    of [SaavnApiError], whatever the status.  ([fetches s' <> fetches s]
    says that the operation got as far as its request: arguments that are
    rejected before it get no response at all.) *)
Theorem non_2xx_response_surfaces_SaavnApiError (call : CatalogCall) :
  exists message context,
    forall (s s' : State) (result : Error Json + Json)
           (k : nat) (st : Z) (body : jsstring),
      (k <= maxRetries config)%nat ->
      (forall j, (j < k)%nat ->
                 retry_outcome JSON_parse config (net (fetches s + j)%nat)) ->
      latency (net (fetches s + k)%nat) <= timeout config ->
      reply (net (fetches s + k)%nat) = Respond st body ->
      ~ 200 <= st <= 299 ->
      400 <= st <= 499 \/ k = maxRetries config ->
      perform JSON_parse config net call s = (result, s') ->
      fetches s' <> fetches s ->
      exists cause surfaced,
        result = inl surfaced /\
        surfaced
        = SaavnApiError message (operation_name call)
            (context ++ [(js "error", CString (error_message cause))]) /\
        (400 <= st <= 499 ->
         cause = ApiResponseError
                   (js "HTTP " ++ Z_to_jsstring st ++ js ": Request failed")
                   st
                   (safelyParseErrorResponse JSON_parse
                      {| status := st; text := body |})) /\
        (~ 400 <= st <= 499 ->
         cause = NetworkError
                   (js "Failed to complete request after "
                      ++ Z_to_jsstring (Z.of_nat (maxRetries config) + 1)
                      ++ js " attempts")
                   (Some (ApiResponseError
                            (js "HTTP " ++ Z_to_jsstring st
                               ++ js ": Request failed") st
                            (safelyParseErrorResponse JSON_parse
                               {| status := st; text := body |})))) /\
        fetches s' = (fetches s + S k)%nat /\
        instanceof_ApiResponseError surfaced = false /\
        getUserMessage surfaced
        = Some (js "API request failed. Please try again.") /\
        hook_errorMessage surfaced = js "API request failed. Please try again.".
Proof.
  destruct (perform_shape call) as (message & context & Hshape).
  exists message, context.
  intros s s' result k st body Hk Hfail Hlat Hreply Hst Hends Hrun Hfetched.
  destruct (Hshape s) as [[thrown Hearly] | [endpoint Hrequest]].
  - rewrite Hearly in Hrun. inversion Hrun. subst. contradiction.
  - destruct (makeRequest_non_2xx endpoint s Hk Hfail Hlat Hreply Hst Hends)
      as (cause & s1 & Hfailed & Hf & Hclient & Hother).
    rewrite Hrequest in Hrun. unfold try_catch in Hrun.
    rewrite Hfailed in Hrun. unfold throw in Hrun. inversion Hrun. subst.
    exists cause. eexists. split; [reflexivity|]. split; [reflexivity|].
    split; [exact Hclient|]. split; [exact Hother|]. split; [exact Hf|].
    split; [reflexivity|]. split; reflexivity.
Qed.

End Facts.

(** A search answered by a 404, and a playlist asked for by its link from a
    server that answers 503 four times: both surface a [SaavnApiError], the
    status being left in the message text of the cause. *)
Lemma non_2xx_response_surfaces_SaavnApiError_witness :
  (exists message context cause,
      fst (search sample_JSON_parse (DEFAULT_CONFIG false) (always not_found)
             (js "abc") (fresh 5000))
      = inl (SaavnApiError message (js "search")
               (context ++ [(js "error", CString (error_message cause))])) /\
      cause = ApiResponseError (js "HTTP 404: Request failed") 404
                (RD_parsed (js "{}"))) /\
  (exists message context cause,
      fst (getPlaylist sample_JSON_parse (DEFAULT_CONFIG false)
             (always unavailable) [] (Some (js "https://www.jiosaavn.com/s/playlist/x"))
             0 10 (fresh 5000))
      = inl (SaavnApiError message (js "getPlaylist")
               (context ++ [(js "error", CString (error_message cause))])) /\
      cause = NetworkError (js "Failed to complete request after 4 attempts")
                (Some (ApiResponseError (js "HTTP 503: Request failed") 503
                         (RD_parsed (js "{}"))))).
Proof.
  split.
  - destruct (@non_2xx_response_surfaces_SaavnApiError _ sample_JSON_parse
                (DEFAULT_CONFIG false) (always not_found)
                (call_search (js "abc")))
      as (message & context & Hcall).
    destruct (Hcall (fresh 5000)
                (snd (search sample_JSON_parse (DEFAULT_CONFIG false)
                        (always not_found) (js "abc") (fresh 5000)))
                (fst (search sample_JSON_parse (DEFAULT_CONFIG false)
                        (always not_found) (js "abc") (fresh 5000)))
                0%nat 404 (js "{}"))
      as (cause & surfaced & Hresult & Hshape & Hclient & _).
    + simpl. lia.
    + intros j Hj. lia.
    + simpl. lia.
    + reflexivity.
    + lia.
    + left. lia.
    + symmetry. apply surjective_pairing.
    + vm_compute. discriminate.
    + exists message, context, cause.
      split; [rewrite Hresult, Hshape; reflexivity|].
      apply Hclient. lia.
  - destruct (@non_2xx_response_surfaces_SaavnApiError _ sample_JSON_parse
                (DEFAULT_CONFIG false) (always unavailable)
                (call_getPlaylist []
                   (Some (js "https://www.jiosaavn.com/s/playlist/x")) 0 10))
      as (message & context & Hcall).
    destruct (Hcall (fresh 5000)
                (snd (getPlaylist sample_JSON_parse (DEFAULT_CONFIG false)
                        (always unavailable) []
                        (Some (js "https://www.jiosaavn.com/s/playlist/x"))
                        0 10 (fresh 5000)))
                (fst (getPlaylist sample_JSON_parse (DEFAULT_CONFIG false)
                        (always unavailable) []
                        (Some (js "https://www.jiosaavn.com/s/playlist/x"))
                        0 10 (fresh 5000)))
                3%nat 503 (js "{}"))
      as (cause & surfaced & Hresult & Hshape & _ & Hother & _).
    + simpl. lia.
    + intros j Hj. apply ApiFacts.server_failure_retry_outcome.
      split; simpl; lia.
    + simpl. lia.
    + reflexivity.
    + lia.
    + right. reflexivity.
    + symmetry. apply surjective_pairing.
    + vm_compute. discriminate.
    + exists message, context, cause.
      split; [rewrite Hresult, Hshape; reflexivity|].
      apply Hother. lia.
Defined.

End CatalogFacts.

(* ================================================================== *)
(** ** Further properties of the player: queue, navigation, helpers *)
(* ================================================================== *)

Module PlayerMore.

Import Player PlayerUse.

Local Open Scope nat_scope.

(** *** Array facts *)

Lemma jsstring_eqb_eq (a b : jsstring) : jsstring_eqb a b = true <-> a = b.
Proof.
  revert b. induction a as [|x a IH]; intros [|y b]; simpl;
    try (split; [discriminate | discriminate]); [split; reflexivity|].
  rewrite andb_true_iff, N.eqb_eq, IH.
  split; [intros [-> ->]; reflexivity | intros H; inversion H; auto].
Qed.

Lemma jsstring_eqb_refl (a : jsstring) : jsstring_eqb a a = true.
Proof. apply jsstring_eqb_eq. reflexivity. Qed.

Lemma last_opt_snoc (A : Type) (l : list A) (x : A) :
  last_opt (l ++ [x]) = Some x.
Proof.
  induction l as [|y l IH]; [reflexivity|].
  simpl. destruct (l ++ [x]) eqn:E; [destruct l; discriminate | exact IH].
Qed.

Lemma last_opt_Some (A : Type) (l : list A) (x : A) :
  last_opt l = Some x -> exists l', l = l' ++ [x].
Proof.
  induction l as [|y l IH]; [discriminate|].
  destruct l as [|z l].
  - simpl. intros H. inversion H. exists []. reflexivity.
  - intros H. destruct (IH H) as [l' Hl']. exists (y :: l').
    rewrite Hl'. reflexivity.
Qed.

Lemma at_Z_of_nat (A : Type) (l : list A) (i : nat) :
  at_Z l (Z.of_nat i) = nth_error l i.
Proof.
  unfold at_Z. destruct (Z.ltb_spec (Z.of_nat i) 0); [lia|].
  rewrite Nat2Z.id. reflexivity.
Qed.

(** *** The queue is first in, first out *)

Lemma enqueue_each_run (ts : list Song) :
  forall s,
    let s1 := run s (enqueue_each ts) in
    queue s1 = queue s ++ ts /\
    currentSong s1 = currentSong s /\
    playlist s1 = playlist s /\
    currentIndex s1 = currentIndex s /\
    history s1 = history s /\
    repeat s1 = repeat s /\
    shuffle s1 = shuffle s.
Proof.
  induction ts as [|t ts IH]; intros s; simpl.
  - rewrite app_nil_r. repeat split; reflexivity.
  - destruct (IH (musicPlayerReducer 0%float s (ADD_TO_QUEUE t)))
      as (Hq & Hc & Hp & Hi & Hh & Hr & Hs).
    simpl in *. rewrite Hq, <- app_assoc. simpl.
    repeat split; assumption.
Qed.

Lemma drain_queue (rnds : list float) :
  forall s,
    length rnds = length (queue s) ->
    now_playing_after s rnds = map Some (queue s) /\
    queue (run s (next_each rnds)) = [] /\
    playlist (run s (next_each rnds)) = playlist s /\
    currentIndex (run s (next_each rnds)) = currentIndex s.
Proof.
  induction rnds as [|rnd rnds IH]; intros s Hlen.
  - destruct (queue s) eqn:Hq; [|discriminate]. simpl.
    repeat split; assumption.
  - destruct (queue s) as [|t rest] eqn:Hq; [discriminate|].
    simpl in Hlen. injection Hlen as Hlen.
    assert (Hstep : musicPlayerReducer rnd s NEXT_SONG
                    = {| currentSong := Some t;
                         playlist := playlist s;
                         currentIndex := currentIndex s;
                         isPlaying := isPlaying s;
                         queue := rest;
                         history := history_after_advance s;
                         repeat := repeat s;
                         shuffle := shuffle s |}).
    { simpl. rewrite Hq. reflexivity. }
    cbn [now_playing_after next_each map run]. rewrite Hstep.
    match goal with
    | |- context [run ?s1 _] => destruct (IH s1 Hlen) as (Hn & Hqe & Hp & Hi)
    end.
    cbn [currentSong queue playlist currentIndex] in *.
    fold (next_each rnds).
    rewrite Hn. repeat split; assumption.
Qed.

(** Tracks added with [addToQueue] are played by [playNext] in the order
    they were added, after the tracks already queued, before the playlist
    moves on; draining the queue leaves playlist and index where they
    were. *)
Theorem queue_is_fifo (s : MusicPlayerState) (ts : list Song)
    (rnds : list float) :
  length rnds = length (queue s ++ ts) ->
  let queued := run s (enqueue_each ts) in
  let drained := run queued (next_each rnds) in
  now_playing_after queued rnds = map Some (queue s ++ ts) /\
  queue drained = [] /\
  playlist drained = playlist s /\
  currentIndex drained = currentIndex s.
Proof.
  intros Hlen.
  destruct (enqueue_each_run ts s) as (Hq & _ & Hp & Hi & _).
  destruct (drain_queue rnds (run s (enqueue_each ts)))
    as (Hn & Hqe & Hp' & Hi').
  { rewrite Hq. exact Hlen. }
  cbv zeta. rewrite Hn, Hq, Hp', Hi', Hp, Hi.
  repeat split; assumption.
Qed.

(** B and C queued while A plays from a playlist: two [playNext] calls play
    B, then C, and the index is still that of A. *)
Lemma queue_is_fifo_witness :
  now_playing_after (run shuffling (enqueue_each [trackB; trackC]))
    [0.5%float; 0.5%float]
  = [Some trackB; Some trackC] /\
  currentIndex (run (run shuffling (enqueue_each [trackB; trackC]))
                  (next_each [0.5%float; 0.5%float]))
  = Num 0%Z.
Proof.
  destruct (@queue_is_fifo shuffling [trackB; trackC] [0.5%float; 0.5%float]
              eq_refl) as (Hn & _ & _ & Hi).
  split; [exact Hn | exact Hi].
Defined.

(** *** Previous after Next *)

Lemma state_ext (a b : MusicPlayerState) :
  currentSong a = currentSong b -> playlist a = playlist b ->
  currentIndex a = currentIndex b -> isPlaying a = isPlaying b ->
  queue a = queue b -> history a = history b ->
  repeat a = repeat b -> shuffle a = shuffle b -> a = b.
Proof.
  destruct a, b. simpl. intros. subst. reflexivity.
Qed.

(** Whenever NEXT_SONG changes the current track it has pushed the previous
    one and taken at most the head off the queue. *)
Lemma next_song_changed (rnd : float) (s : MusicPlayerState) :
  currentSong (musicPlayerReducer rnd s NEXT_SONG) <> currentSong s ->
  history (musicPlayerReducer rnd s NEXT_SONG) = history_after_advance s /\
  queue (musicPlayerReducer rnd s NEXT_SONG) = tl (queue s) /\
  playlist (musicPlayerReducer rnd s NEXT_SONG) = playlist s /\
  isPlaying (musicPlayerReducer rnd s NEXT_SONG) = isPlaying s /\
  repeat (musicPlayerReducer rnd s NEXT_SONG) = repeat s /\
  shuffle (musicPlayerReducer rnd s NEXT_SONG) = shuffle s.
Proof.
  simpl. destruct (queue s) as [|t rest] eqn:Hq; simpl.
  - destruct (Repeat_eqb (repeat s) Rone); [congruence|].
    destruct (shuffle s) eqn:Hsh; simpl; [auto 10|].
    destruct (index_geb _ _); simpl; [|auto 10].
    destruct (Repeat_eqb (repeat s) Rall); simpl; [auto 10 | congruence].
  - auto 10.
Qed.

Lemma findIndex_from_spec (pl : list Song) (target : Song) :
  forall k,
    (findIndex_from k pl target = (-1)%Z /\
     forall t, In t pl -> song_id t <> song_id target) \/
    (exists i t,
        findIndex_from k pl target = (k + Z.of_nat i)%Z /\
        nth_error pl i = Some t /\
        song_id t = song_id target /\
        forall j u, j < i -> nth_error pl j = Some u ->
                    song_id u <> song_id target).
Proof.
  induction pl as [|x pl IH]; intros k; simpl.
  - left. split; [reflexivity | intros t []].
  - destruct (jsstring_eqb (song_id x) (song_id target)) eqn:E.
    + right. exists 0, x. apply jsstring_eqb_eq in E.
      rewrite Z.add_0_r. repeat split; trivial. intros j u Hj. lia.
    + assert (Hx : song_id x <> song_id target).
      { intros Heq. apply jsstring_eqb_eq in Heq. congruence. }
      destruct (IH (k + 1)%Z) as [[Hnone Hall] | (i & t & Hi & Hn & Hid & Hmin)].
      * left. split; [exact Hnone|].
        intros t [<- | Hin]; [exact Hx | apply Hall, Hin].
      * right. exists (S i), t. repeat split; trivial; [lia|].
        intros [|j] u Hj Hu; simpl in Hu.
        -- inversion Hu. subst. exact Hx.
        -- apply (Hmin j u); [lia | exact Hu].
Qed.

Lemma distinct_ids_position (pl : list Song) (i j : nat) (a b : Song) :
  NoDup (map song_id pl) ->
  nth_error pl i = Some a -> nth_error pl j = Some b ->
  song_id a = song_id b -> i = j.
Proof.
  intros Hnd Ha Hb Hid.
  apply (proj1 (NoDup_nth_error (map song_id pl)) Hnd).
  - rewrite length_map. apply nth_error_Some. congruence.
  - rewrite !nth_error_map, Ha, Hb. simpl. congruence.
Qed.

Lemma findIndex_distinct_ids (pl : list Song) (i : nat) (cur : Song) :
  NoDup (map song_id pl) -> nth_error pl i = Some cur ->
  findIndex pl cur = Z.of_nat i.
Proof.
  intros Hnd Hcur. unfold findIndex.
  destruct (findIndex_from_spec pl cur 0)
    as [[_ Hall] | (j & t & Hj & Hn & Hid & _)].
  - exfalso. apply (Hall cur); [|reflexivity].
    apply nth_error_In with i. exact Hcur.
  - rewrite Hj, Z.add_0_l. f_equal.
    apply (@distinct_ids_position pl j i t cur Hnd Hn Hcur Hid).
Qed.

Lemma previous_with_history (rnd : float) (s : MusicPlayerState)
    (prev : Song) :
  last_opt (history s) = Some prev ->
  musicPlayerReducer rnd s PREVIOUS_SONG
  = {| currentSong := Some prev;
       playlist := playlist s;
       currentIndex := if (findIndex (playlist s) prev =? -1)%Z
                       then currentIndex s
                       else Num (findIndex (playlist s) prev);
       isPlaying := isPlaying s;
       queue := queue s;
       history := removelast (history s);
       repeat := repeat s;
       shuffle := shuffle s |}.
Proof.
  intros Hlast. cbn [musicPlayerReducer]. rewrite Hlast. reflexivity.
Qed.

(** Below the cap, a NEXT_SONG that changes the track appends the one that
    was playing to the history. *)
Lemma next_song_pushes (rnd : float) (s : MusicPlayerState) (cur : Song) :
  currentSong s = Some cur ->
  length (history s) < 50 ->
  currentSong (musicPlayerReducer rnd s NEXT_SONG) <> Some cur ->
  history (musicPlayerReducer rnd s NEXT_SONG) = history s ++ [cur].
Proof.
  intros Hcur Hlen Hchanged.
  destruct (@next_song_changed rnd s) as (Hh & _).
  { rewrite Hcur. exact Hchanged. }
  unfold history_after_advance in Hh. rewrite Hcur in Hh.
  unfold push_history in Hh. rewrite PlayerFacts.slice_last_short in Hh by lia.
  exact Hh.
Qed.

(** When [playNext] changes the current track (history below its cap),
    [playPrevious] brings back the track that was playing and the history
    as it was; a track taken from the queue is not put back. *)
Theorem previous_undoes_next (rnd rnd' : float) (s : MusicPlayerState)
    (cur : Song) :
  currentSong s = Some cur ->
  length (history s) < 50 ->
  currentSong (musicPlayerReducer rnd s NEXT_SONG) <> Some cur ->
  let back :=
    musicPlayerReducer rnd' (musicPlayerReducer rnd s NEXT_SONG) PREVIOUS_SONG in
  currentSong back = Some cur /\
  history back = history s /\
  playlist back = playlist s /\
  queue back = tl (queue s).
Proof.
  intros Hcur Hlen Hchanged.
  pose proof (next_song_pushes rnd s Hcur Hlen Hchanged) as Hh.
  destruct (@next_song_changed rnd s) as (_ & Hq & Hp & _).
  { rewrite Hcur. exact Hchanged. }
  cbv zeta.
  rewrite (@previous_with_history rnd' _ cur)
    by (rewrite Hh; apply last_opt_snoc).
  cbn [currentSong history playlist queue].
  rewrite Hh, removelast_last. auto.
Qed.

Lemma previous_undoes_next_witness :
  currentSong (musicPlayerReducer 0%float
                 (musicPlayerReducer 0%float queued_repeat_one NEXT_SONG)
                 PREVIOUS_SONG) = Some trackX /\
  queue (musicPlayerReducer 0%float
           (musicPlayerReducer 0%float queued_repeat_one NEXT_SONG)
           PREVIOUS_SONG) = [trackB].
Proof.
  destruct (@previous_undoes_next 0%float 0%float queued_repeat_one trackX
              eq_refl) as (Hc & _ & _ & Hq).
  - simpl. lia.
  - simpl. discriminate.
  - split; [exact Hc | exact Hq].
Defined.

(** With nothing queued, the current track at [currentIndex] in a playlist
    of distinct ids and the history below its cap, [playNext] followed by
    [playPrevious] gives back the very state it started from, provided the
    first changed the track. *)
Theorem next_then_previous_is_identity (rnd rnd' : float)
    (s : MusicPlayerState) (cur : Song) (i : nat) :
  currentSong s = Some cur ->
  currentIndex s = Num (Z.of_nat i) ->
  nth_error (playlist s) i = Some cur ->
  NoDup (map song_id (playlist s)) ->
  queue s = [] ->
  length (history s) < 50 ->
  currentSong (musicPlayerReducer rnd s NEXT_SONG) <> Some cur ->
  musicPlayerReducer rnd' (musicPlayerReducer rnd s NEXT_SONG) PREVIOUS_SONG = s.
Proof.
  intros Hcur Hidx Hnth Hnd Hq Hlen Hchanged.
  pose proof (next_song_pushes rnd s Hcur Hlen Hchanged) as Hpush.
  destruct (@next_song_changed rnd s) as (_ & Hq1 & Hp1 & Hpl1 & Hr1 & Hs1).
  { rewrite Hcur. exact Hchanged. }
  assert (Hlast : last_opt (history (musicPlayerReducer rnd s NEXT_SONG))
                  = Some cur).
  { rewrite Hpush. apply last_opt_snoc. }
  apply state_ext.
  - rewrite (previous_with_history rnd' _ Hlast), Hcur. reflexivity.
  - rewrite (previous_with_history rnd' _ Hlast). exact Hp1.
  - rewrite (previous_with_history rnd' _ Hlast). cbn [currentIndex].
    rewrite Hp1, (@findIndex_distinct_ids (playlist s) i cur Hnd Hnth).
    destruct (Z.eqb_spec (Z.of_nat i) (-1)); [lia|]. symmetry. exact Hidx.
  - rewrite (previous_with_history rnd' _ Hlast). exact Hpl1.
  - rewrite (previous_with_history rnd' _ Hlast). cbn [queue].
    rewrite Hq1, Hq. reflexivity.
  - rewrite (previous_with_history rnd' _ Hlast). cbn [history].
    rewrite Hpush. apply removelast_last.
  - rewrite (previous_with_history rnd' _ Hlast). exact Hr1.
  - rewrite (previous_with_history rnd' _ Hlast). exact Hs1.
Qed.

Lemma next_then_previous_is_identity_witness :
  musicPlayerReducer 0%float
    (musicPlayerReducer 0%float playing_second NEXT_SONG) PREVIOUS_SONG
  = playing_second.
Proof.
  apply (@next_then_previous_is_identity 0%float 0%float playing_second
           trackB 1); try reflexivity.
  - repeat constructor; simpl; intuition discriminate.
  - simpl. lia.
  - simpl. discriminate.
Defined.

(** *** Previous *)

(** With a history, [playPrevious] makes its last entry current, drops it
    from the history, and looks the index up by id: [currentIndex] becomes
    the first playlist position whose track has that id, and stays as it
    was when no track of the playlist has it. *)
Theorem previous_resolves_index_by_id (rnd : float) (s : MusicPlayerState)
    (prev : Song) :
  last_opt (history s) = Some prev ->
  let s' := musicPlayerReducer rnd s PREVIOUS_SONG in
  currentSong s' = Some prev /\
  history s' ++ [prev] = history s /\
  ((exists i t,
       currentIndex s' = Num (Z.of_nat i) /\
       nth_error (playlist s) i = Some t /\
       song_id t = song_id prev /\
       forall j u, j < i -> nth_error (playlist s) j = Some u ->
                   song_id u <> song_id prev) \/
   (currentIndex s' = currentIndex s /\
    forall t, In t (playlist s) -> song_id t <> song_id prev)).
Proof.
  intros Hlast. cbv zeta. rewrite (previous_with_history rnd _ Hlast).
  cbn [currentSong history currentIndex].
  split; [reflexivity|]. split.
  - destruct (last_opt_Some _ Hlast) as [h Hh]. rewrite Hh.
    rewrite removelast_last. reflexivity.
  - unfold findIndex.
    destruct (findIndex_from_spec (playlist s) prev 0)
      as [[Hnone Hall] | (i & t & Hi & Hn & Hid & Hmin)].
    + right. rewrite Hnone. simpl. auto.
    + left. exists i, t. rewrite Hi, Z.add_0_l.
      destruct (Z.eqb_spec (Z.of_nat i) (-1)); [lia|]. auto.
Qed.

(** After A, B, A the history is [A, B]: Previous plays B, and B is the
    second track of the playlist [A, B, C]. *)
Lemma previous_resolves_index_by_id_witness :
  currentSong
    (musicPlayerReducer 0%float
       (musicPlayerReducer 0%float replaying
          (SET_PLAYLIST [trackA; trackB; trackC] None))
       PREVIOUS_SONG) = Some trackB /\
  currentIndex
    (musicPlayerReducer 0%float
       (musicPlayerReducer 0%float replaying
          (SET_PLAYLIST [trackA; trackB; trackC] None))
       PREVIOUS_SONG) = Num 1%Z.
Proof.
  destruct (@previous_resolves_index_by_id 0%float
              (musicPlayerReducer 0%float replaying
                 (SET_PLAYLIST [trackA; trackB; trackC] None))
              trackB eq_refl) as (Hc & _ & _).
  split; [exact Hc | reflexivity].
Defined.

(** Without a history, at the first track or before it, [playPrevious]
    changes nothing unless repeat = all, where it wraps to the last track
    of the playlist. *)
Theorem previous_at_first_track (rnd : float) (s : MusicPlayerState) (z : Z) :
  history s = [] ->
  currentIndex s = Num z ->
  (z <= 0)%Z ->
  (repeat s <> Rall -> musicPlayerReducer rnd s PREVIOUS_SONG = s) /\
  (repeat s = Rall ->
   currentIndex (musicPlayerReducer rnd s PREVIOUS_SONG)
     = Num (Z.of_nat (length (playlist s)) - 1) /\
   currentSong (musicPlayerReducer rnd s PREVIOUS_SONG)
     = last_opt (playlist s)).
Proof.
  intros Hh Hi Hz. cbn [musicPlayerReducer]. rewrite Hh, Hi.
  cbn [last_opt index_add index_ltb].
  replace (z + -1 <? 0)%Z with true by (symmetry; apply Z.ltb_lt; lia).
  split.
  - intros Hr. destruct (repeat s); try reflexivity. contradiction.
  - intros Hr. rewrite Hr. cbn [Repeat_eqb currentIndex currentSong at_index].
    split; [reflexivity|].
    destruct (playlist s) as [|x pl] eqn:Hpl using rev_ind; [reflexivity|].
    rewrite last_opt_snoc, length_app. simpl length.
    replace (Z.of_nat (length pl + 1) - 1)%Z with (Z.of_nat (length pl)) by lia.
    rewrite at_Z_of_nat, nth_error_app2, Nat.sub_diag by lia. reflexivity.
Qed.

(** A fresh playlist [A, B, C] at index 0: Previous is a no-op. *)
Lemma previous_at_first_track_witness :
  musicPlayerReducer 0%float
    (musicPlayerReducer 0%float initialState
       (SET_PLAYLIST [trackA; trackB; trackC] (Some 0%Z)))
    PREVIOUS_SONG
  = musicPlayerReducer 0%float initialState
      (SET_PLAYLIST [trackA; trackB; trackC] (Some 0%Z)).
Proof.
  apply (proj1 (@previous_at_first_track 0%float
                  (musicPlayerReducer 0%float initialState
                     (SET_PLAYLIST [trackA; trackB; trackC] (Some 0%Z)))
                  0%Z eq_refl eq_refl ltac:(lia))).
  simpl. discriminate.
Defined.

(** *** Walking through the playlist *)

(** NEXT_SONG with nothing queued and shuffle off, inside the playlist. *)
Lemma next_song_inside (rnd : float) (s : MusicPlayerState) (i : nat) :
  queue s = [] -> shuffle s = false -> repeat s <> Rone ->
  currentIndex s = Num (Z.of_nat i) ->
  S i < length (playlist s) ->
  musicPlayerReducer rnd s NEXT_SONG
  = {| currentSong := nth_error (playlist s) (S i);
       playlist := playlist s;
       currentIndex := Num (Z.of_nat (S i));
       isPlaying := isPlaying s;
       queue := [];
       history := history_after_advance s;
       repeat := repeat s;
       shuffle := false |}.
Proof.
  intros Hq Hsh Hr Hi Hlt. cbn [musicPlayerReducer].
  rewrite Hq, Hsh, Hi. cbn [index_add index_geb].
  replace (Repeat_eqb (repeat s) Rone) with false
    by (destruct (repeat s); try reflexivity; contradiction).
  replace (Z.of_nat (length (playlist s)) <=? Z.of_nat i + 1)%Z with false
    by (symmetry; apply Z.leb_gt; lia).
  replace (Z.of_nat i + 1)%Z with (Z.of_nat (S i)) by lia.
  cbn [at_index]. rewrite at_Z_of_nat. reflexivity.
Qed.

(** The same at the last track, with repeat = all: back to the first. *)
Lemma next_song_wraps (rnd : float) (s : MusicPlayerState) (i : nat) :
  queue s = [] -> shuffle s = false -> repeat s = Rall ->
  currentIndex s = Num (Z.of_nat i) ->
  length (playlist s) <= S i ->
  musicPlayerReducer rnd s NEXT_SONG
  = {| currentSong := nth_error (playlist s) 0;
       playlist := playlist s;
       currentIndex := Num 0%Z;
       isPlaying := isPlaying s;
       queue := [];
       history := history_after_advance s;
       repeat := Rall;
       shuffle := false |}.
Proof.
  intros Hq Hsh Hr Hi Hge. cbn [musicPlayerReducer].
  rewrite Hq, Hsh, Hi, Hr. cbn [index_add index_geb Repeat_eqb].
  replace (Z.of_nat (length (playlist s)) <=? Z.of_nat i + 1)%Z with true
    by (symmetry; apply Z.leb_le; lia).
  cbn [at_index]. rewrite (at_Z_of_nat _ 0). reflexivity.
Qed.

(** The same at the last track, with repeat = none: playback stops. *)
Lemma next_song_stops (rnd : float) (s : MusicPlayerState) (i : nat) :
  queue s = [] -> shuffle s = false -> repeat s = Rnone ->
  currentIndex s = Num (Z.of_nat i) ->
  length (playlist s) <= S i ->
  musicPlayerReducer rnd s NEXT_SONG
  = {| currentSong := currentSong s;
       playlist := playlist s;
       currentIndex := Num (Z.of_nat i);
       isPlaying := false;
       queue := [];
       history := history s;
       repeat := Rnone;
       shuffle := false |}.
Proof.
  intros Hq Hsh Hr Hi Hge. cbn [musicPlayerReducer].
  rewrite Hq, Hsh, Hi, Hr. cbn [index_add index_geb Repeat_eqb].
  replace (Z.of_nat (length (playlist s)) <=? Z.of_nat i + 1)%Z with true
    by (symmetry; apply Z.leb_le; lia).
  reflexivity.
Qed.

(** With repeat = all, nothing queued and shuffle off, [n] calls of
    [playNext] from position [i] of a playlist of [len] tracks lead to
    position [(i + n) mod len], and the current track is the one there:
    the playlist is walked in order, round and round. *)
Theorem next_cycles_with_repeat_all (rnds : list float) :
  forall (s : MusicPlayerState) (i : nat),
    queue s = [] -> shuffle s = false -> repeat s = Rall ->
    currentIndex s = Num (Z.of_nat i) ->
    i < length (playlist s) ->
    let s' := run s (next_each rnds) in
    let position := (i + length rnds) mod length (playlist s) in
    playlist s' = playlist s /\
    currentIndex s' = Num (Z.of_nat position) /\
    (rnds <> [] -> currentSong s' = nth_error (playlist s) position).
Proof.
  induction rnds as [|rnd rnds IH]; intros s i Hq Hsh Hr Hi Hlt; cbv zeta.
  - simpl. rewrite Nat.add_0_r, Nat.mod_small by exact Hlt.
    split; [reflexivity|]. split; [exact Hi | congruence].
  - cbn [next_each map run]. fold (next_each rnds).
    assert (Hstep : exists s1,
      musicPlayerReducer rnd s NEXT_SONG = s1 /\
      queue s1 = [] /\ shuffle s1 = false /\ repeat s1 = Rall /\
      playlist s1 = playlist s /\
      currentIndex s1 = Num (Z.of_nat (S i mod length (playlist s))) /\
      currentSong s1 = nth_error (playlist s) (S i mod length (playlist s))).
    { destruct (Nat.lt_ge_cases (S i) (length (playlist s))) as [Hin|Hout].
      - assert (Hne : repeat s <> Rone) by (rewrite Hr; discriminate).
        rewrite (@next_song_inside rnd s i Hq Hsh Hne Hi Hin).
        eexists. split; [reflexivity|].
        rewrite (Nat.mod_small _ _ Hin). cbn. rewrite Hr. auto 10.
      - rewrite (@next_song_wraps rnd s i Hq Hsh Hr Hi Hout).
        eexists. split; [reflexivity|].
        assert (S i = length (playlist s)) as -> by lia.
        rewrite Nat.Div0.mod_same. cbn. auto 10. }
    destruct Hstep as (s1 & -> & Hq1 & Hsh1 & Hr1 & Hp1 & Hi1 & Hc1).
    assert (Hlt1 : S i mod length (playlist s) < length (playlist s))
      by (apply Nat.mod_upper_bound; lia).
    destruct (IH s1 _ Hq1 Hsh1 Hr1 Hi1 ltac:(rewrite Hp1; exact Hlt1))
      as (Hp & Hidx & Hcur).
    rewrite Hp1 in *.
    assert (Hpos : (S i mod length (playlist s) + length rnds)
                     mod length (playlist s)
                   = (i + length (rnd :: rnds)) mod length (playlist s)).
    { rewrite Nat.Div0.add_mod_idemp_l. f_equal. simpl. lia. }
    rewrite <- Hpos.
    split; [exact Hp|]. split; [exact Hidx|].
    intros _. destruct rnds as [|rnd' rnds'].
    + cbn [next_each map run length]. rewrite Hc1, Nat.add_0_r.
      rewrite Nat.Div0.mod_mod. reflexivity.
    + apply Hcur. discriminate.
Qed.

(** From the second of three tracks, five calls lead to the first track. *)
Lemma next_cycles_with_repeat_all_witness :
  currentSong
    (run (musicPlayerReducer 0%float playing_second (SET_REPEAT Rall))
       (next_each [0%float; 0%float; 0%float; 0%float; 0%float]))
  = Some trackA.
Proof.
  destruct (@next_cycles_with_repeat_all
              [0%float; 0%float; 0%float; 0%float; 0%float]
              (musicPlayerReducer 0%float playing_second (SET_REPEAT Rall)) 1
              eq_refl eq_refl eq_refl eq_refl ltac:(simpl; lia))
    as (_ & _ & Hcur).
  apply Hcur. discriminate.
Defined.

(** With repeat = none the walk stops at the last track: [n] calls from
    position [i] lead to position [i + n] while that is inside the
    playlist, and from then on the index stays at the last track and
    [isPlaying] is false. *)
Theorem next_stops_at_end_with_repeat_none (rnds : list float) :
  forall (s : MusicPlayerState) (i : nat),
    queue s = [] -> shuffle s = false -> repeat s = Rnone ->
    currentIndex s = Num (Z.of_nat i) ->
    i < length (playlist s) ->
    let s' := run s (next_each rnds) in
    playlist s' = playlist s /\
    currentIndex s'
      = Num (Z.of_nat (Nat.min (i + length rnds) (length (playlist s) - 1))) /\
    (length (playlist s) <= i + length rnds -> isPlaying s' = false) /\
    (i + length rnds < length (playlist s) ->
     isPlaying s' = isPlaying s /\
     (rnds <> [] ->
      currentSong s' = nth_error (playlist s) (i + length rnds))).
Proof.
  induction rnds as [|rnd rnds IH]; intros s i Hq Hsh Hr Hi Hlt; cbv zeta.
  - simpl. rewrite Nat.add_0_r, Nat.min_l by lia.
    split; [reflexivity|]. split; [exact Hi|].
    split; [lia|]. intros _. split; [reflexivity | congruence].
  - cbn [next_each map run length]. fold (next_each rnds).
    destruct (Nat.lt_ge_cases (S i) (length (playlist s))) as [Hin|Hout].
    + assert (Hne : repeat s <> Rone) by (rewrite Hr; discriminate).
      rewrite (@next_song_inside rnd s i Hq Hsh Hne Hi Hin).
      match goal with
      | |- context [run ?s1 _] =>
          destruct (IH s1 (S i) eq_refl eq_refl Hr eq_refl Hin)
            as (Hp & Hidx & Hstop & Hgo)
      end.
      cbn [playlist isPlaying] in *.
      replace (i + S (length rnds)) with (S i + length rnds) by lia.
      split; [exact Hp|]. split; [exact Hidx|]. split; [exact Hstop|].
      intros Hless. destruct (Hgo Hless) as [Hplay Hcur].
      split; [exact Hplay|]. intros _.
      destruct rnds as [|rnd' rnds']; [|apply Hcur; discriminate].
      cbn [next_each map run currentSong length]. rewrite Nat.add_0_r.
      reflexivity.
    + rewrite (@next_song_stops rnd s i Hq Hsh Hr Hi Hout).
      match goal with
      | |- context [run ?s1 _] =>
          destruct (IH s1 i eq_refl eq_refl eq_refl eq_refl Hlt)
            as (Hp & Hidx & Hstop & Hgo)
      end.
      cbn [playlist isPlaying] in *.
      split; [exact Hp|]. split.
      * rewrite Hidx. do 2 f_equal. lia.
      * split; [|lia]. intros _.
        destruct (Nat.lt_ge_cases (i + length rnds) (length (playlist s)))
          as [Hless|Hmore]; [apply (Hgo Hless) | apply (Hstop Hmore)].
Qed.

(** From the second of three tracks, four calls end on the third track with
    playback stopped. *)
Lemma next_stops_at_end_with_repeat_none_witness :
  currentIndex (run playing_second
                  (next_each [0%float; 0%float; 0%float; 0%float]))
  = Num 2%Z /\
  isPlaying (run playing_second
               (next_each [0%float; 0%float; 0%float; 0%float]))
  = false.
Proof.
  destruct (@next_stops_at_end_with_repeat_none
              [0%float; 0%float; 0%float; 0%float] playing_second 1
              eq_refl eq_refl eq_refl eq_refl ltac:(simpl; lia))
    as (_ & Hidx & Hstop & _).
  split; [exact Hidx | apply Hstop; simpl; lia].
Defined.

(** *** Shuffle *)

Lemma random_pick_among (rnd : float) (avail : list nat) :
  random_pick rnd avail = Undefined \/
  exists i, random_pick rnd avail = Num (Z.of_nat i) /\ In i avail.
Proof.
  unfold random_pick.
  destruct (Math_floor _) as [k|]; [|left; reflexivity].
  destruct (at_Z avail k) as [i|] eqn:E; [|left; reflexivity].
  right. exists i. split; [reflexivity|].
  unfold at_Z in E. destruct (k <? 0)%Z; [discriminate|].
  apply nth_error_In in E. exact E.
Qed.

(** With shuffle on (nothing queued, repeat other than one), whatever
    [Math.random()] returns, [playNext] either leaves no current track
    (index undefined) or moves to a position of the playlist other than the
    current one and makes the track there current: the track that is
    playing is never picked again. *)
Theorem shuffle_never_repicks (rnd : float) (s : MusicPlayerState) :
  queue s = [] ->
  repeat s <> Rone ->
  shuffle s = true ->
  let s' := musicPlayerReducer rnd s NEXT_SONG in
  (currentIndex s' = Undefined /\ currentSong s' = None) \/
  (exists i t,
      currentIndex s' = Num (Z.of_nat i) /\
      Num (Z.of_nat i) <> currentIndex s /\
      nth_error (playlist s) i = Some t /\
      currentSong s' = Some t).
Proof.
  intros Hq Hr Hsh. cbn [musicPlayerReducer]. rewrite Hq, Hsh.
  replace (Repeat_eqb (repeat s) Rone) with false
    by (destruct (repeat s); try reflexivity; contradiction).
  cbv zeta. cbn [currentIndex currentSong].
  destruct (random_pick_among rnd
              (availableIndices (playlist s) (currentIndex s)))
    as [Hu | (i & Hpick & Hin)].
  - left. rewrite Hu. split; reflexivity.
  - right. rewrite Hpick. unfold availableIndices in Hin.
    apply filter_In in Hin. destruct Hin as [Hseq Hneq].
    apply in_seq in Hseq.
    destruct (nth_error (playlist s) i) as [t|] eqn:Ht.
    + exists i, t. split; [reflexivity|]. split.
      * intros Heq. rewrite <- Heq in Hneq. simpl in Hneq.
        rewrite Z.eqb_refl in Hneq. discriminate.
      * split; [exact Ht|]. cbn [at_index]. rewrite at_Z_of_nat. exact Ht.
    + apply nth_error_None in Ht. lia.
Qed.

Lemma shuffle_never_repicks_witness :
  exists i,
    currentIndex (musicPlayerReducer 0.5%float shuffling NEXT_SONG)
      = Num (Z.of_nat i) /\
    Num (Z.of_nat i) <> Num 0%Z.
Proof.
  destruct (@shuffle_never_repicks 0.5%float shuffling eq_refl
              ltac:(discriminate) eq_refl)
    as [[Hu _] | (i & t & Hi & Hneq & _)].
  - exfalso. vm_compute in Hu. discriminate Hu.
  - exists i. split; [exact Hi | exact Hneq].
Defined.

(** *** Track and index stay together *)

(** Apart from SET_CURRENT_SONG, whose track, playlist and index are the
    caller's, the current track remains the one at [currentIndex] under
    every action that does not play from the queue or from the history:
    SET_PLAYLIST establishes it, and NEXT_SONG with an empty queue,
    PREVIOUS_SONG with an empty history and all other actions keep it. *)
Theorem index_consistency_preserved (rnd : float) (s : MusicPlayerState)
    (a : MusicPlayerAction) :
  index_consistent s ->
  (forall song pl index, a <> SET_CURRENT_SONG song pl index) ->
  (a = NEXT_SONG -> queue s = []) ->
  (a = PREVIOUS_SONG -> history s = []) ->
  index_consistent (musicPlayerReducer rnd s a).
Proof.
  unfold index_consistent. intros Hc Hset Hnext Hprev.
  destruct a; cbn [musicPlayerReducer]; try exact Hc.
  - exfalso. apply (Hset song pl index). reflexivity.
  - reflexivity.
  - rewrite (Hnext eq_refl).
    destruct (Repeat_eqb (repeat s) Rone); [exact Hc|].
    cbv zeta. destruct (shuffle s); [reflexivity|].
    destruct (index_geb _ _); [|reflexivity].
    destruct (Repeat_eqb (repeat s) Rall); [reflexivity | exact Hc].
  - rewrite (Hprev eq_refl). cbn [last_opt]. cbv zeta.
    destruct (index_ltb _ _); [|reflexivity].
    destruct (Repeat_eqb (repeat s) Rall); [reflexivity | exact Hc].
  - reflexivity.
Qed.

(** Shuffling from the first of three tracks keeps track and index
    together. *)
Lemma index_consistency_preserved_witness :
  index_consistent (musicPlayerReducer 0.5%float shuffling NEXT_SONG).
Proof.
  apply (@index_consistency_preserved 0.5%float shuffling NEXT_SONG).
  - reflexivity.
  - intros song pl index. discriminate.
  - intros _. reflexivity.
  - intros H. discriminate H.
Defined.

(** *** Removing from the queue *)

Lemma remove_at_from_outside (q : list Song) (payload : Z) :
  forall k,
    (payload < k \/ k + Z.of_nat (length q) <= payload)%Z ->
    remove_at_from k q payload = q.
Proof.
  induction q as [|x q IH]; intros k Hout; simpl; [reflexivity|].
  simpl length in Hout.
  destruct (Z.eqb_spec k payload); [lia|].
  rewrite IH by lia. reflexivity.
Qed.

Lemma remove_at_from_inside (q : list Song) :
  forall (k : Z) (i : nat),
    i < length q ->
    remove_at_from k q (k + Z.of_nat i) = firstn i q ++ skipn (S i) q.
Proof.
  induction q as [|x q IH]; intros k i Hi; simpl in Hi; [lia|].
  cbn [remove_at_from].
  destruct i as [|i].
  - rewrite Z.add_0_r, Z.eqb_refl. cbn [firstn skipn app].
    apply remove_at_from_outside. lia.
  - destruct (Z.eqb_spec k (k + Z.of_nat (S i))); [lia|].
    replace (k + Z.of_nat (S i))%Z with (k + 1 + Z.of_nat i)%Z by lia.
    rewrite IH by lia. reflexivity.
Qed.

(** [removeFromQueue(i)] takes out exactly the track at position [i] of the
    queue and keeps the others in order; with an index outside the queue
    (negative, or at or past its length) the state is unchanged. *)
Theorem remove_from_queue_by_position (rnd : float) (s : MusicPlayerState)
    (payload : Z) :
  (forall i, payload = Z.of_nat i -> i < length (queue s) ->
     queue (musicPlayerReducer rnd s (REMOVE_FROM_QUEUE payload))
       = firstn i (queue s) ++ skipn (S i) (queue s) /\
     S (length (queue (musicPlayerReducer rnd s (REMOVE_FROM_QUEUE payload))))
       = length (queue s)) /\
  ((payload < 0 \/ Z.of_nat (length (queue s)) <= payload)%Z ->
     musicPlayerReducer rnd s (REMOVE_FROM_QUEUE payload) = s).
Proof.
  cbn [musicPlayerReducer queue]. split.
  - intros i -> Hi.
    pose proof (@remove_at_from_inside (queue s) 0 i Hi) as Hrm.
    rewrite Z.add_0_l in Hrm. rewrite Hrm.
    split; [reflexivity|].
    rewrite length_app, length_firstn, length_skipn. lia.
  - intros Hout. rewrite remove_at_from_outside by lia.
    destruct s; reflexivity.
Qed.

Lemma remove_from_queue_by_position_witness :
  queue (musicPlayerReducer 0%float
           (run initialState (enqueue_each [trackA; trackB; trackC]))
           (REMOVE_FROM_QUEUE 1))
  = [trackA; trackC] /\
  musicPlayerReducer 0%float
    (run initialState (enqueue_each [trackA; trackB; trackC]))
    (REMOVE_FROM_QUEUE 3)
  = run initialState (enqueue_each [trackA; trackB; trackC]).
Proof.
  destruct (@remove_from_queue_by_position 0%float
              (run initialState (enqueue_each [trackA; trackB; trackC])) 1)
    as [Hin _].
  destruct (@remove_from_queue_by_position 0%float
              (run initialState (enqueue_each [trackA; trackB; trackC])) 3)
    as [_ Hout].
  split.
  - apply (Hin 1 eq_refl). simpl. lia.
  - apply Hout. right. simpl. lia.
Defined.

(** *** The repeat button *)

(** [cycleRepeat] steps none -> all -> one -> none: three presses bring the
    state back, and no press leaves the mode as it was. *)
Theorem cycleRepeat_is_a_three_cycle (rnd : float) (s : MusicPlayerState) :
  repeat (cycleRepeat rnd s)
    = match repeat s with Rnone => Rall | Rall => Rone | Rone => Rnone end /\
  repeat (cycleRepeat rnd s) <> repeat s /\
  cycleRepeat rnd (cycleRepeat rnd (cycleRepeat rnd s)) = s.
Proof.
  destruct s as [c p i pl q h r sh].
  destruct r; (split; [reflexivity | split; [discriminate | reflexivity]]).
Qed.

(** *** Choosing a media URL *)

Lemma find_quality_Some (variants : list QualityUrl) (wanted : jsstring)
    (u : QualityUrl) :
  find_quality variants wanted = Some u ->
  In u variants /\ quality u = wanted.
Proof.
  induction variants as [|v variants IH]; simpl; [discriminate|].
  destruct (jsstring_eqb (quality v) wanted) eqn:E.
  - intros H. inversion H. subst. apply jsstring_eqb_eq in E. auto.
  - intros H. destruct (IH H). auto.
Qed.

Lemma first_by_quality_Some (variants : list QualityUrl)
    (order : list jsstring) (found : jsstring) :
  first_by_quality variants order = Some found ->
  found <> [] /\
  exists u, In u variants /\ url u = found /\ In (quality u) order.
Proof.
  induction order as [|wanted order IH]; simpl; [discriminate|].
  destruct (find_quality variants wanted) as [u|] eqn:Hf.
  - destruct (url u) as [|c rest] eqn:Hu; simpl.
    + intros H. destruct (IH H) as (Hne & v & Hin & Hv & Hq).
      split; [exact Hne|]. exists v. auto.
    + intros H. inversion H. subst found. split; [discriminate|].
      destruct (find_quality_Some _ _ Hf) as [Hin Hq].
      exists u. rewrite Hq. auto.
  - intros H. destruct (IH H) as (Hne & v & Hin & Hv & Hq).
    split; [exact Hne|]. exists v. auto.
Qed.

(** A quality whose first variant has a URL is never passed over for a
    quality further down the order. *)
Lemma first_by_quality_prefers (variants : list QualityUrl)
    (before : list jsstring) :
  forall (wanted : jsstring) (after : list jsstring) (u : QualityUrl),
    find_quality variants wanted = Some u ->
    url u <> [] ->
    exists q v,
      In q (before ++ [wanted]) /\
      find_quality variants q = Some v /\
      first_by_quality variants (before ++ wanted :: after) = Some (url v).
Proof.
  induction before as [|b before IH]; intros wanted after u Hf Hu; simpl.
  - rewrite Hf. destruct (url u) eqn:E; [contradiction|]. simpl.
    exists wanted, u. rewrite E. auto.
  - destruct (find_quality variants b) as [w|] eqn:Hb.
    + destruct (url w) as [|c rest] eqn:Hw; simpl.
      * destruct (IH wanted after u Hf Hu) as (q & v & Hin & Hq & Hres).
        exists q, v. auto.
      * exists b, w. rewrite Hw. auto.
    + destruct (IH wanted after u Hf Hu) as (q & v & Hin & Hq & Hres).
      exists q, v. auto.
Qed.

(** [getAudioUrl] and [getImageUrl] (the shared body [best_url], each with
    its preference order) return either the empty string or the URL of one
    of the song's variants, and the empty string only when the first
    variant has no URL; when the first variant labelled with some quality
    of the preference order has a URL, the result is the URL of the first
    variant of that quality or of a quality preferred to it. *)
Theorem best_url_is_a_preferred_variant (variants : list QualityUrl)
    (order : list jsstring) :
  let result := best_url variants order in
  (result = [] \/ exists u, In u variants /\ url u = result) /\
  (forall first rest, variants = first :: rest -> url first <> [] ->
                      result <> []) /\
  (forall before wanted after u,
      order = before ++ wanted :: after ->
      find_quality variants wanted = Some u ->
      url u <> [] ->
      exists q v,
        In q (before ++ [wanted]) /\
        find_quality variants q = Some v /\
        result = url v).
Proof.
  cbv zeta. unfold best_url.
  destruct variants as [|first rest].
  - split; [left; reflexivity|]. split; [discriminate|].
    intros before wanted after u _ Hf. discriminate Hf.
  - destruct (first_by_quality (first :: rest) order) as [found|] eqn:Hfq.
    + destruct (first_by_quality_Some _ _ Hfq) as (Hne & u & Hin & Hu & _).
      split; [right; exists u; auto|]. split; [intros; exact Hne|].
      intros before wanted after w -> Hf Hw.
      destruct (first_by_quality_prefers (first :: rest) before wanted after
                  Hf Hw) as (q & v & Hq & Hv & Hres).
      exists q, v. rewrite Hres in Hfq. inversion Hfq. auto.
    + split; [right; exists first; simpl; auto|].
      split; [intros f r H; inversion H; subst; auto|].
      intros before wanted after w -> Hf Hw.
      destruct (first_by_quality_prefers (first :: rest) before wanted after
                  Hf Hw) as (q & v & _ & _ & Hres).
      congruence.
Qed.

(** A song whose 320 kbps variant has no URL and which lists 96 kbps before
    160 kbps: the 160 kbps URL is chosen. *)
Lemma best_url_is_a_preferred_variant_witness :
  getAudioUrl sample_downloadUrl = js "https://cdn/160.mp4" /\
  exists u, In u sample_downloadUrl /\ url u = getAudioUrl sample_downloadUrl.
Proof.
  split; [reflexivity|].
  destruct (@best_url_is_a_preferred_variant sample_downloadUrl
              audio_qualityOrder) as ([He | Hu] & _).
  - exfalso. vm_compute in He. discriminate He.
  - exact Hu.
Defined.

End PlayerMore.

(* ================================================================== *)
(** ** Further properties of the API client: any network *)
(* ================================================================== *)

Module ApiMore.

Import Errors Api ApiOperations.

Local Open Scope Z_scope.

Lemma total_backoff (D : Z) (n : nat) :
  forall from,
    total (map (fun k => D * 2 ^ Z.of_nat k) (seq from n))
    = D * 2 ^ Z.of_nat from * (2 ^ Z.of_nat n - 1).
Proof.
  induction n as [|n IH]; intros from.
  - simpl. ring.
  - cbn [seq map total fold_right]. fold (total (map (fun k => D * 2 ^ Z.of_nat k) (seq (S from) n))).
    rewrite IH. rewrite !Nat2Z.inj_succ, !Z.pow_succ_r by lia. ring.
Qed.

Section AnyNetwork.

Variable Json : Type.
Variable JSON_parse : jsstring -> Json + jsstring.
Variable config : SaavnApiConfig.
Variable net : Network.

(** The loop, on any network: it ends at some attempt [k], every attempt
    before it having failed with a retried error. *)
Lemma attempts_outcome (url : jsstring) :
  forall (remaining attempt : nat) (lastError : option (Error Json))
         (s : State),
    (attempt + remaining = maxRetries config)%nat ->
    exists k result s',
      (k <= remaining)%nat /\
      attempts JSON_parse config net url (S remaining) attempt lastError s
        = (result, s') /\
      events s'
        = events s ++ retried_log url (retryDelay config) attempt k
            ++ [EvFetch url] /\
      fetches s' = (fetches s + S k)%nat /\
      lastRequestTime s' = lastRequestTime s /\
      (forall j, (j < k)%nat ->
                 retry_outcome JSON_parse config (net (fetches s + j)%nat)) /\
      ended_with JSON_parse config k remaining (net (fetches s + k)%nat) result.
Proof.
  induction remaining as [|remaining IH]; intros attempt lastError s Hinv;
    rewrite ApiFacts.attempts_step;
    destruct (attempt_result JSON_parse config (net (fetches s)))
      as [cause|parsedData] eqn:Hres.
  1,3: destruct (no_retry cause) eqn:Hno;
    [| destruct (is_AbortError cause) eqn:Hab ].
  all: try (exists 0%nat; eexists; eexists;
            split; [lia|]; split; [reflexivity|];
            split; [reflexivity|]; split; [cbn; lia|];
            split; [reflexivity|]; split; [intros j Hj; lia|];
            rewrite Nat.add_0_r; cbn [ended_with];
            first [ exact Hres
                  | exists cause; split; [exact Hres|]; tauto ]).
  - (* the last attempt allowed fails with a retried error *)
    replace (attempt <? maxRetries config)%nat with false
      by (symmetry; apply Nat.ltb_ge; lia).
    exists 0%nat. eexists. eexists.
    split; [lia|]. split; [reflexivity|].
    split; [reflexivity|]. split; [cbn; lia|].
    split; [reflexivity|]. split; [intros j Hj; lia|].
    rewrite Nat.add_0_r. exists cause. split; [exact Hres|].
    right. right. unfold retried. rewrite Hno, Hab. auto.
  - (* a retried error with attempts left *)
    replace (attempt <? maxRetries config)%nat with true
      by (symmetry; apply Nat.ltb_lt; lia).
    rewrite ApiFacts.sleep_run. cbn [snd].
    match goal with
    | |- context [attempts _ _ _ _ _ _ _ ?s2] =>
        destruct (IH (S attempt) (Some cause) s2 ltac:(lia))
          as (k & result & s' & Hk & Hrun & Hev & Hf & Hl & Hretry & Hend)
    end.
    cbn [fetches events lastRequestTime after_fetch] in *.
    exists (S k), result, s'.
    split; [lia|]. split; [exact Hrun|]. split.
    { rewrite Hev. cbn [retried_log]. rewrite <- !app_assoc. reflexivity. }
    split; [lia|]. split; [exact Hl|]. split.
    { intros [|j] Hj.
      - rewrite Nat.add_0_r. exists cause. split; [exact Hres|].
        unfold retried. rewrite Hno, Hab. reflexivity.
      - replace (fetches s + S j)%nat with (S (fetches s) + j)%nat by lia.
        apply Hretry. lia. }
    replace (fetches s + S k)%nat with (S (fetches s) + k)%nat by lia.
    destruct result as [thrown|parsedData]; cbn [ended_with] in *;
      [|exact Hend].
    destruct Hend as (c & Hc & Hcases). exists c. split; [exact Hc|].
    destruct Hcases as [H | [H | (H1 & H2 & H3)]]; auto.
    right. right. split; [exact H1|]. split; [lia | exact H3].
Qed.

(** The same for a whole call. *)
Lemma makeRequest_outcome (endpoint : jsstring) (s : State) :
  exists k result s',
    (k <= maxRetries config)%nat /\
    makeRequest JSON_parse config net endpoint s = (result, s') /\
    events s'
      = events s ++ rate_limit_log config s
          ++ backoff_log (baseUrl config ++ endpoint) (retryDelay config) k /\
    fetches s' = (fetches s + S k)%nat /\
    lastRequestTime s' = lastRequestTime (after_rate_limit config s) /\
    (forall j, (j < k)%nat ->
               retry_outcome JSON_parse config (net (fetches s + j)%nat)) /\
    ended_with JSON_parse config k (maxRetries config) (net (fetches s + k)%nat) result.
Proof.
  rewrite ApiFacts.makeRequest_run.
  destruct (@attempts_outcome (baseUrl config ++ endpoint)
              (maxRetries config) 0%nat None (after_rate_limit config s)
              eq_refl)
    as (k & result & s' & Hk & Hrun & Hev & Hf & Hl & Hretry & Hend).
  exists k, result, s'.
  split; [exact Hk|]. split; [exact Hrun|]. split.
  { rewrite Hev. cbn [events after_rate_limit]. unfold backoff_log.
    rewrite <- !app_assoc. reflexivity. }
  split; [exact Hf|]. split; [exact Hl|]. split; [exact Hretry | exact Hend].
Qed.

(** *** What every call does, whatever the network *)

(** On any network a call makes at least one and at most [maxRetries + 1]
    fetches, all of the same URL, and between them sleeps exactly
    [retryDelay * 2^attempt] after attempt 0, 1, ...: the log is the
    rate-limit wait (if any) followed by the backoff schedule up to the
    attempt the call ended at. *)
Theorem makeRequest_follows_schedule (endpoint : jsstring) (s : State) :
  exists k,
    (k <= maxRetries config)%nat /\
    events (snd (makeRequest JSON_parse config net endpoint s))
      = events s ++ rate_limit_log config s
          ++ backoff_log (baseUrl config ++ endpoint) (retryDelay config) k /\
    count_fetches (events (snd (makeRequest JSON_parse config net endpoint s)))
      = (count_fetches (events s) + S k)%nat /\
    sleeps (events (snd (makeRequest JSON_parse config net endpoint s)))
      = sleeps (events s) ++ sleeps (rate_limit_log config s)
          ++ map (fun attempt => retryDelay config * 2 ^ Z.of_nat attempt)
               (seq 0 k).
Proof.
  destruct (makeRequest_outcome endpoint s)
    as (k & result & s' & Hk & Hrun & Hev & _).
  exists k. rewrite Hrun. cbn [snd].
  split; [exact Hk|]. split; [exact Hev|]. split.
  - rewrite Hev, !ApiFacts.count_fetches_app,
      ApiFacts.count_fetches_rate_limit_log,
      ApiFacts.count_fetches_backoff_log. lia.
  - rewrite Hev, !ApiFacts.sleeps_app, ApiFacts.sleeps_backoff_log.
    reflexivity.
Qed.

(** With a non-negative [retryDelay], the backoff sleeps of one call add up
    to [retryDelay * (2^k - 1)] for the attempt [k] it ended at, hence to
    at most [retryDelay * (2^maxRetries - 1)]. *)
Theorem makeRequest_total_backoff (endpoint : jsstring) (s : State) :
  0 <= retryDelay config ->
  exists log,
    events (snd (makeRequest JSON_parse config net endpoint s))
      = events s ++ rate_limit_log config s ++ log /\
    0 <= total (sleeps log)
      <= retryDelay config * (2 ^ Z.of_nat (maxRetries config) - 1).
Proof.
  intros HD.
  destruct (makeRequest_outcome endpoint s)
    as (k & result & s' & Hk & Hrun & Hev & _).
  exists (backoff_log (baseUrl config ++ endpoint) (retryDelay config) k).
  rewrite Hrun. cbn [snd]. split; [exact Hev|].
  rewrite ApiFacts.sleeps_backoff_log, total_backoff.
  cbn [Z.of_nat]. rewrite Z.pow_0_r, Z.mul_1_r.
  assert (1 <= 2 ^ Z.of_nat k <= 2 ^ Z.of_nat (maxRetries config)).
  { split; [apply Z.pow_pos_nonneg with (a := 2) in HD; lia|].
    apply Z.pow_le_mono_r; lia. }
  nia.
Qed.

Lemma attempt_error_no_retry (o : NetOutcome) (cause : Error Json) :
  attempt_result JSON_parse config o = inl cause ->
  no_retry cause = true ->
  exists message st data,
    cause = ApiResponseError message st data /\ 400 <= st <= 499.
Proof.
  unfold attempt_result.
  destruct (timeout config <? latency o).
  { intros H. inversion H. subst. discriminate. }
  destruct (reply o) as [m|st body].
  { intros H. inversion H. subst. discriminate. }
  cbv zeta.
  assert (Hst : forall message data,
             no_retry (ApiResponseError message st data : Error Json) = true ->
             400 <= st <= 499).
  { intros message data Hno. cbn [no_retry] in Hno.
    apply andb_true_iff in Hno. destruct Hno as [H1 H2].
    apply Z.leb_le in H1. apply Z.ltb_lt in H2. lia. }
  destruct (negb (ok _)).
  { intros H Hno. inversion H. subst. eauto 6. }
  destruct body as [|c body].
  { intros H Hno. inversion H. subst. eauto 6. }
  destruct (JSON_parse (c :: body)); [discriminate|].
  intros H Hno. inversion H. subst. eauto 6.
Qed.

(** Whatever goes wrong, [makeRequest] throws one of two kinds of error:
    the [ApiResponseError] of a 4xx response, or a [NetworkError] wrapping
    the cause (a timeout, or the last error once the attempts are used
    up).  An AbortError, a TypeError or the [ApiResponseError] of a 5xx
    response never leaves it unwrapped. *)
Theorem makeRequest_error_classes (endpoint : jsstring) (s : State)
    (thrown : Error Json) (s' : State) :
  makeRequest JSON_parse config net endpoint s = (inl thrown, s') ->
  (exists message st data,
      thrown = ApiResponseError message st data /\ 400 <= st <= 499) \/
  (exists message cause, thrown = NetworkError message (Some cause)).
Proof.
  intros Hrun.
  destruct (makeRequest_outcome endpoint s)
    as (k & result & s1 & _ & Hrun1 & _ & _ & _ & _ & Hend).
  rewrite Hrun in Hrun1. inversion Hrun1. subst result s1.
  cbn [ended_with] in Hend.
  destruct Hend as (cause & Hcause & [[Hno ->] | [(_ & _ & ->) | (_ & _ & ->)]]).
  - left. apply (attempt_error_no_retry _ Hcause Hno).
  - right. eauto.
  - right. unfold exhausted. eauto.
Qed.

(** A value returned by [makeRequest] is always the parse of the non-empty
    body of a 2xx response that arrived within the timeout, at one of the
    first [maxRetries + 1] attempts, every earlier attempt having failed. *)
Theorem makeRequest_value_is_parsed_body (endpoint : jsstring) (s : State)
    (parsedData : Json) (s' : State) :
  makeRequest JSON_parse config net endpoint s = (inr parsedData, s') ->
  exists k st body,
    (k <= maxRetries config)%nat /\
    fetches s' = (fetches s + S k)%nat /\
    latency (net (fetches s + k)%nat) <= timeout config /\
    reply (net (fetches s + k)%nat) = Respond st body /\
    200 <= st <= 299 /\
    body <> [] /\
    JSON_parse body = inl parsedData /\
    (forall j, (j < k)%nat ->
               exists error,
                 attempt_result JSON_parse config (net (fetches s + j)%nat)
                 = inl error).
Proof.
  intros Hrun.
  destruct (makeRequest_outcome endpoint s)
    as (k & result & s1 & Hk & Hrun1 & _ & Hf & _ & Hretry & Hend).
  rewrite Hrun in Hrun1. inversion Hrun1. subst result s1.
  cbn [ended_with] in Hend. unfold attempt_result in Hend.
  destruct (Z.ltb_spec (timeout config) (latency (net (fetches s + k)%nat)))
    as [Hlate|Hlat]; [discriminate|].
  destruct (reply (net (fetches s + k)%nat)) as [m|st body] eqn:Hreply;
    [discriminate|].
  cbv zeta in Hend.
  destruct (ok {| status := st; text := body |}) eqn:Hok;
    cbn [negb] in Hend; [|discriminate].
  destruct body as [|c body]; [discriminate|].
  destruct (JSON_parse (c :: body)) as [v|m] eqn:Hparse; [|discriminate].
  inversion Hend. subst v.
  unfold ok in Hok. cbn [status] in Hok. apply andb_true_iff in Hok.
  destruct Hok as [H1 H2]. apply Z.leb_le in H1. apply Z.leb_le in H2.
  exists k, st, (c :: body).
  split; [exact Hk|]. split; [exact Hf|]. split; [exact Hlat|].
  split; [exact Hreply|]. split; [lia|]. split; [discriminate|].
  split; [exact Hparse|].
  intros j Hj. destruct (Hretry j Hj) as (error & He & _). eauto.
Qed.

(** *** The throttle, and calls that overlap *)

(** The two phases of [Overlap] are those of [enforceRateLimit]. *)
Lemma enforceRateLimit_alone (s : State) :
  enforceRateLimit Json config s = (inr tt, Overlap.alone config s).
Proof.
  rewrite ApiFacts.enforceRateLimit_run. f_equal.
  unfold after_rate_limit, rate_limit_log, Overlap.alone, Overlap.call_begins,
    Overlap.chosen_delay.
  cbv zeta.
  destruct (clock s - lastRequestTime s <? rateLimitDelay config).
  - reflexivity.
  - cbn [Overlap.call_resumes Overlap.stamp clock fetches events].
    rewrite Z.add_0_r, app_nil_r. reflexivity.
Qed.

(** The throttle spaces the calls of an instance only when they do not
    overlap.  A call that runs with no other call of the instance under
    way moves [lastRequestTime] forward by at least [rateLimitDelay], to
    the time at which its first attempt starts, whether it succeeds or
    fails.  But of two calls started together while the instance still has
    to wait, both read the same [lastRequestTime], both wait the same time
    and both start at the same instant, [rateLimitDelay] after the previous
    request: they are not spaced at all.  Started together when the
    instance has nothing to wait for, the first starts at once and the
    second [rateLimitDelay] later. *)
Theorem throttle_spaces_only_calls_that_do_not_overlap (endpoint : jsstring)
    (s : State) :
  (let s' := snd (makeRequest JSON_parse config net endpoint s) in
   lastRequestTime s + rateLimitDelay config <= lastRequestTime s' /\
   clock s <= lastRequestTime s' /\
   lastRequestTime s'
     = clock s + total (sleeps (rate_limit_log config s))) /\
  snd (enforceRateLimit Json config s) = Overlap.alone config s /\
  (clock s - lastRequestTime s < rateLimitDelay config ->
   exists s',
     Overlap.together config s
     = (lastRequestTime s + rateLimitDelay config,
        lastRequestTime s + rateLimitDelay config, s') /\
     lastRequestTime s' = lastRequestTime s + rateLimitDelay config) /\
  (rateLimitDelay config <= clock s - lastRequestTime s ->
   0 < rateLimitDelay config ->
   exists s',
     Overlap.together config s
     = (clock s, clock s + rateLimitDelay config, s') /\
     lastRequestTime s' = clock s + rateLimitDelay config).
Proof.
  split; [|split; [|split]].
  - destruct (makeRequest_outcome endpoint s)
      as (k & result & s' & _ & Hrun & _ & _ & Hl & _).
    cbv zeta. rewrite Hrun. cbn [snd]. rewrite Hl.
    unfold after_rate_limit, rate_limit_log. cbn [lastRequestTime].
    destruct (Z.ltb_spec (clock s - lastRequestTime s) (rateLimitDelay config));
      cbn [sleeps flat_map app total fold_right]; lia.
  - rewrite enforceRateLimit_alone. reflexivity.
  - intros Hwait.
    assert (Hbegin :
      Overlap.call_begins config s
      = (Some (rateLimitDelay config - (clock s - lastRequestTime s)), s)).
    { unfold Overlap.call_begins, Overlap.chosen_delay. cbv zeta.
      replace (clock s - lastRequestTime s <? rateLimitDelay config) with true
        by (symmetry; apply Z.ltb_lt; exact Hwait).
      reflexivity. }
    unfold Overlap.together. rewrite Hbegin. cbv beta iota.
    rewrite Hbegin. cbv beta iota zeta.
    cbn [Overlap.call_resumes Overlap.stamp Overlap.timer_fired clock
         lastRequestTime].
    eexists. split.
    + f_equal. f_equal; lia.
    + cbn [Overlap.stamp Overlap.timer_fired clock lastRequestTime]. lia.
  - intros Hfree Hdelay.
    assert (HbeginA :
      Overlap.call_begins config s = (None, Overlap.stamp s)).
    { unfold Overlap.call_begins, Overlap.chosen_delay. cbv zeta.
      replace (clock s - lastRequestTime s <? rateLimitDelay config) with false
        by (symmetry; apply Z.ltb_ge; exact Hfree).
      reflexivity. }
    assert (HbeginB :
      Overlap.call_begins config (Overlap.stamp s)
      = (Some (rateLimitDelay config), Overlap.stamp s)).
    { unfold Overlap.call_begins, Overlap.chosen_delay. cbv zeta.
      cbn [Overlap.stamp clock lastRequestTime].
      replace (clock s - clock s <? rateLimitDelay config) with true
        by (symmetry; apply Z.ltb_lt; lia).
      rewrite Z.sub_diag, Z.sub_0_r. reflexivity. }
    unfold Overlap.together. rewrite HbeginA. cbv beta iota.
    rewrite HbeginB. cbv beta iota zeta.
    cbn [Overlap.call_resumes Overlap.stamp Overlap.timer_fired clock
         lastRequestTime].
    eexists. split.
    + f_equal. f_equal. lia.
    + cbn [Overlap.stamp Overlap.timer_fired clock lastRequestTime]. lia.
Qed.

(** *** Responses that cannot be used *)

Lemma unusable_response_retry_outcome (o : NetOutcome) :
  unusable_response JSON_parse config o -> retry_outcome JSON_parse config o.
Proof.
  intros (Hlat & st & body & Hreply & Hcase).
  unfold retry_outcome, attempt_result.
  apply Z.ltb_ge in Hlat. rewrite Hlat, Hreply. cbv zeta.
  assert (Hretried : forall message data,
             ~ 400 <= st <= 499 ->
             retried (ApiResponseError message st data : Error Json) = true).
  { intros message data Hst. unfold retried. cbn [no_retry].
    destruct (Z.leb_spec 400 st); destruct (Z.ltb_spec st 500);
      try reflexivity. lia. }
  unfold ok. cbn [status].
  destruct Hcase as [(Hst & Hbody) | Hst].
  - replace (200 <=? st) with true by (symmetry; apply Z.leb_le; lia).
    replace (st <=? 299) with true by (symmetry; apply Z.leb_le; lia).
    cbn [andb negb].
    destruct Hbody as [-> | (message & Hparse)].
    + eexists. split; [reflexivity|]. apply Hretried. lia.
    + destruct body as [|c body].
      * eexists. split; [reflexivity|]. apply Hretried. lia.
      * rewrite Hparse. eexists. split; [reflexivity|]. apply Hretried. lia.
  - replace ((200 <=? st) && (st <=? 299)) with false.
    + cbn [negb]. eexists. split; [reflexivity|]. apply Hretried. lia.
    + symmetry. apply andb_false_iff.
      destruct Hst as [Hst|Hst];
        [left; apply Z.leb_gt; lia | right; apply Z.leb_gt; lia].
Qed.

(** When every attempt gets an unusable response, the client retries up to
    the cap: [maxRetries + 1] fetches, then a [NetworkError] wrapping the
    [ApiResponseError] of the last response.  Empty and malformed bodies
    are retried like server errors. *)
Theorem unusable_responses_are_retried (endpoint : jsstring) (s : State) :
  (forall k, (k <= maxRetries config)%nat ->
             unusable_response JSON_parse config (net (fetches s + k)%nat)) ->
  exists message st data s',
    makeRequest JSON_parse config net endpoint s
    = (inl (NetworkError
              (js "Failed to complete request after "
                 ++ Z_to_jsstring (Z.of_nat (maxRetries config) + 1)
                 ++ js " attempts")
              (Some (ApiResponseError message st data))), s') /\
    (exists body,
        reply (net (fetches s + maxRetries config)%nat) = Respond st body) /\
    count_fetches (events s')
    = (count_fetches (events s) + (maxRetries config + 1))%nat.
Proof.
  intros Hall.
  destruct (makeRequest_outcome endpoint s)
    as (k & result & s' & Hk & Hrun & Hev & _ & _ & Hretry & Hend).
  assert (Hk' : k = maxRetries config).
  { destruct (unusable_response_retry_outcome (Hall k Hk))
      as (cause & Hcause & Hretried).
    destruct result as [thrown|v]; cbn [ended_with] in Hend.
    - destruct Hend as (c & Hc & Hcases). rewrite Hcause in Hc.
      inversion Hc. subst c. unfold retried in Hretried.
      apply andb_true_iff in Hretried. destruct Hretried as [Hno Hab].
      apply negb_true_iff in Hno. apply negb_true_iff in Hab.
      destruct Hcases as [[H _] | [(_ & H & _) | (_ & H & _)]];
        [congruence | congruence | exact H].
    - congruence. }
  subst k.
  destruct (Hall (maxRetries config) (Nat.le_refl _))
    as (Hlat & st & body & Hreply & Hcase).
  destruct (unusable_response_retry_outcome (Hall _ (Nat.le_refl _)))
    as (cause & Hcause & Hretried).
  destruct result as [thrown|v]; cbn [ended_with] in Hend;
    [|congruence].
  destruct Hend as (c & Hc & Hcases). rewrite Hcause in Hc.
  inversion Hc. subst c.
  unfold retried in Hretried. apply andb_true_iff in Hretried.
  destruct Hretried as [Hno Hab].
  apply negb_true_iff in Hno. apply negb_true_iff in Hab.
  destruct Hcases as [[H _] | [(_ & H & _) | (_ & _ & ->)]];
    [congruence | congruence |].
  assert (Hshape : exists message data, cause = ApiResponseError message st data).
  { unfold attempt_result in Hcause. apply Z.ltb_ge in Hlat.
    rewrite Hlat, Hreply in Hcause. cbv zeta in Hcause.
    destruct (negb (ok _)); [inversion Hcause; eauto|].
    destruct body as [|c body]; [inversion Hcause; eauto|].
    destruct (JSON_parse (c :: body)); [discriminate|].
    inversion Hcause. eauto. }
  destruct Hshape as (message & data & ->).
  exists message, st, data, s'.
  split; [exact Hrun|]. split; [exists body; exact Hreply|].
  rewrite Hev, !ApiFacts.count_fetches_app,
    ApiFacts.count_fetches_rate_limit_log, ApiFacts.count_fetches_backoff_log.
  lia.
Qed.

(** Failed attempts are invisible to the caller: when the first [k]
    attempts fail at the server or the connection or get an unusable
    response, and attempt [k] (one of the first [maxRetries + 1]) gets a
    2xx response in time with a non-empty body that parses, the call
    returns the parsed value, after [k + 1] fetches. *)
Theorem makeRequest_succeeds_after_retries (endpoint : jsstring) (s : State)
    (k : nat) (st : Z) (body : jsstring) (parsedData : Json) :
  (k <= maxRetries config)%nat ->
  (forall j, (j < k)%nat ->
             server_failure config (net (fetches s + j)%nat) \/
             unusable_response JSON_parse config (net (fetches s + j)%nat)) ->
  latency (net (fetches s + k)%nat) <= timeout config ->
  reply (net (fetches s + k)%nat) = Respond st body ->
  200 <= st <= 299 ->
  body <> [] ->
  JSON_parse body = inl parsedData ->
  exists s',
    makeRequest JSON_parse config net endpoint s = (inr parsedData, s') /\
    events s'
      = events s ++ rate_limit_log config s
          ++ backoff_log (baseUrl config ++ endpoint) (retryDelay config) k /\
    count_fetches (events s') = (count_fetches (events s) + S k)%nat.
Proof.
  intros Hk Hfail Hlat Hreply Hst Hbody Hparse.
  rewrite ApiFacts.makeRequest_run.
  destruct (@ApiFacts.attempts_retry_prefix Json JSON_parse config net
              (baseUrl config ++ endpoint)
              (S (maxRetries config - k)) k 0%nat None
              (after_rate_limit config s))
    as (le' & s1 & Hrun & Hev & Hf).
  { lia. }
  { intros j Hj. cbn [fetches after_rate_limit].
    destruct (Hfail j Hj) as [H|H];
      [apply ApiFacts.server_failure_retry_outcome, H
      | apply unusable_response_retry_outcome, H]. }
  replace (S (maxRetries config)) with (k + S (maxRetries config - k))%nat
    by lia.
  rewrite Hrun, ApiFacts.attempts_step.
  cbn [fetches after_rate_limit] in Hf. rewrite Hf.
  assert (Hres : attempt_result JSON_parse config (net (fetches s + k)%nat)
                 = inr parsedData).
  { unfold attempt_result. apply Z.ltb_ge in Hlat. rewrite Hlat, Hreply.
    cbv zeta. unfold ok. cbn [status].
    replace (200 <=? st) with true by (symmetry; apply Z.leb_le; lia).
    replace (st <=? 299) with true by (symmetry; apply Z.leb_le; lia).
    cbn [andb negb]. destruct body as [|c body]; [contradiction|].
    rewrite Hparse. reflexivity. }
  rewrite Hres.
  exists (after_fetch config net (baseUrl config ++ endpoint) s1).
  assert (Hlog : events (after_fetch config net (baseUrl config ++ endpoint) s1)
                 = events s ++ rate_limit_log config s
                     ++ backoff_log (baseUrl config ++ endpoint)
                          (retryDelay config) k).
  { cbn [events after_fetch]. rewrite Hev. cbn [events after_rate_limit].
    unfold backoff_log. rewrite <- !app_assoc. reflexivity. }
  split; [reflexivity|]. split; [exact Hlog|].
  rewrite Hlog, !ApiFacts.count_fetches_app,
    ApiFacts.count_fetches_rate_limit_log, ApiFacts.count_fetches_backoff_log.
  lia.
Qed.

End AnyNetwork.

(** *** The sample networks *)

(** Under the default configuration the backoff of a call against the
    stalled or failing sample networks stays within 7 s. *)
Lemma makeRequest_total_backoff_witness :
  exists log,
    events (snd (makeRequest sample_JSON_parse (DEFAULT_CONFIG false)
                   (always unavailable) (js "/api/search?query=a")
                   (fresh 5000)))
      = events (fresh 5000) ++ rate_limit_log (DEFAULT_CONFIG false) (fresh 5000)
          ++ log /\
    0 <= total (sleeps log) <= 7000.
Proof.
  destruct (@makeRequest_total_backoff _ sample_JSON_parse
              (DEFAULT_CONFIG false) (always unavailable)
              (js "/api/search?query=a") (fresh 5000))
    as (log & Hev & Hbound).
  - simpl. lia.
  - exists log. split; [exact Hev | exact Hbound].
Defined.

(** The 404 of the sample network leaves [makeRequest] as the
    [ApiResponseError] of a 4xx status. *)
Lemma makeRequest_error_classes_witness :
  (exists message st data,
      ApiResponseError (js "HTTP 404: Request failed") 404
        (RD_parsed (js "{}"))
      = ApiResponseError message st data /\ 400 <= st <= 499) \/
  (exists message cause,
      ApiResponseError (js "HTTP 404: Request failed") 404
        (RD_parsed (js "{}"))
      = NetworkError message (Some cause)).
Proof.
  apply (@makeRequest_error_classes _ sample_JSON_parse (DEFAULT_CONFIG false)
           (always not_found) (js "/api/songs/none") (fresh 5000)
           (ApiResponseError (js "HTTP 404: Request failed") 404
              (RD_parsed (js "{}")))
           (snd (makeRequest sample_JSON_parse (DEFAULT_CONFIG false)
                   (always not_found) (js "/api/songs/none") (fresh 5000)))).
  reflexivity.
Defined.

(** The value returned on the recovering network comes from its third
    response. *)
Lemma makeRequest_value_is_parsed_body_witness :
  exists k st body,
    (k <= 3)%nat /\
    reply (recovering k) = Respond st body /\
    200 <= st <= 299 /\
    sample_JSON_parse body = inl (js "{}").
Proof.
  destruct (@makeRequest_value_is_parsed_body _ sample_JSON_parse
              (DEFAULT_CONFIG false) recovering (js "/api/search?query=a")
              (fresh 5000) (js "{}")
              (snd (makeRequest sample_JSON_parse (DEFAULT_CONFIG false)
                      recovering (js "/api/search?query=a") (fresh 5000)))
              eq_refl)
    as (k & st & body & Hk & _ & _ & Hreply & Hst & _ & Hparse & _).
  exists k, st, body. split; [exact Hk|].
  split; [exact Hreply|]. split; [exact Hst | exact Hparse].
Defined.

(** Empty bodies under the default configuration: four fetches. *)
Lemma unusable_responses_are_retried_witness :
  exists message st data s',
    makeRequest sample_JSON_parse (DEFAULT_CONFIG false) (always empty_body)
      (js "/api/search?query=a") (fresh 5000)
    = (inl (NetworkError (js "Failed to complete request after 4 attempts")
              (Some (ApiResponseError message st data))), s') /\
    count_fetches (events s') = 4%nat.
Proof.
  destruct (@unusable_responses_are_retried _ sample_JSON_parse
              (DEFAULT_CONFIG false) (always empty_body)
              (js "/api/search?query=a") (fresh 5000))
    as (message & st & data & s' & Hrun & _ & Hcount).
  - intros k Hk. split; [simpl; lia|].
    exists 200, []. split; [reflexivity|]. left. split; [lia | left; reflexivity].
  - exists message, st, data, s'. split; [exact Hrun | exact Hcount].
Defined.

(** Two 503s, then a 200: the value is returned after three fetches and
    sleeps of 1 s and 2 s. *)
Lemma makeRequest_succeeds_after_retries_witness :
  exists s',
    makeRequest sample_JSON_parse (DEFAULT_CONFIG false) recovering
      (js "/api/search?query=a") (fresh 5000) = (inr (js "{}"), s') /\
    count_fetches (events s') = 3%nat.
Proof.
  destruct (@makeRequest_succeeds_after_retries _ sample_JSON_parse
              (DEFAULT_CONFIG false) recovering (js "/api/search?query=a")
              (fresh 5000) 2%nat 200 (js "{}") (js "{}"))
    as (s' & Hrun & _ & Hcount).
  - simpl. lia.
  - intros j Hj. left.
    assert (j = 0 \/ j = 1)%nat as [-> | ->] by lia;
      (split; [simpl; lia | simpl; lia]).
  - simpl. lia.
  - reflexivity.
  - lia.
  - discriminate.
  - reflexivity.
  - exists s'. split; [exact Hrun | exact Hcount].
Defined.

(** An instance used 10 ms ago, with the default delay of 100 ms: two calls
    started together both wait 90 ms and both start at 5100. *)
Lemma throttle_spaces_only_calls_that_do_not_overlap_witness :
  exists s',
    Overlap.together (DEFAULT_CONFIG false) Overlap.just_used
    = (5100, 5100, s') /\
    lastRequestTime s' = 5100.
Proof.
  destruct (@throttle_spaces_only_calls_that_do_not_overlap _
              sample_JSON_parse (DEFAULT_CONFIG false) (always found)
              (js "/api/search?query=a") Overlap.just_used)
    as (_ & _ & Htogether & _).
  apply Htogether. simpl. lia.
Defined.

End ApiMore.

(* ================================================================== *)
(** ** Properties of the operations and of the hooks *)
(* ================================================================== *)

Module ApiOperationsFacts.

Import Errors Api ApiOperations.

(** *** What [encodeURIComponent] produces *)

Local Open Scope N_scope.

Lemma hexDigit_unescaped (d : N) :
  d < 16 -> JsString.uriUnescaped (JsString.hexDigit d) = true.
Proof.
  intros Hd. unfold JsString.hexDigit, JsString.uriUnescaped.
  destruct (N.ltb_spec d 10).
  - replace (48 <=? 48 + d) with true by (symmetry; apply N.leb_le; lia).
    replace (48 + d <=? 57) with true by (symmetry; apply N.leb_le; lia).
    rewrite !orb_true_r. reflexivity.
  - replace (65 <=? 55 + d) with true by (symmetry; apply N.leb_le; lia).
    replace (55 + d <=? 90) with true by (symmetry; apply N.leb_le; lia).
    reflexivity.
Qed.

Lemma percent_component (octet : N) :
  octet < 256 -> Forall (fun c => component_char c = true) (JsString.percent octet).
Proof.
  intros Ho. unfold JsString.percent.
  assert (octet / 16 < 16) by (apply N.Div0.div_lt_upper_bound; lia).
  assert (octet mod 16 < 16) by (apply N.mod_lt; lia).
  repeat constructor; unfold component_char;
    rewrite hexDigit_unescaped by assumption; reflexivity.
Qed.

Lemma utf8_octets (v : N) :
  v < 1114112 -> Forall (fun b => b < 256) (JsString.utf8 v).
Proof.
  intros Hv. unfold JsString.utf8.
  assert (forall a, a mod 64 < 64) by (intros; apply N.mod_lt; lia).
  destruct (N.ltb_spec v 128); [repeat constructor; lia|].
  destruct (N.ltb_spec v 2048).
  { assert (v / 64 < 32) by (apply N.Div0.div_lt_upper_bound; lia).
    repeat constructor; [lia | specialize (H v); lia]. }
  destruct (N.ltb_spec v 65536).
  { assert (v / 4096 < 16) by (apply N.Div0.div_lt_upper_bound; lia).
    repeat constructor;
      [lia | specialize (H (v / 64)); lia | specialize (H v); lia]. }
  assert (v / 262144 < 5) by (apply N.Div0.div_lt_upper_bound; lia).
  repeat constructor;
    [lia | specialize (H (v / 4096)); lia | specialize (H (v / 64)); lia
     | specialize (H v); lia].
Qed.

Lemma escape_component (v : N) :
  v < 1114112 ->
  Forall (fun c => component_char c = true) (JsString.escape v) /\
  JsString.escape v <> [].
Proof.
  intros Hv. unfold JsString.escape. pose proof (utf8_octets Hv) as Hoct.
  split.
  - induction Hoct as [|b bs Hb _ IH]; cbn [flat_map]; [constructor|].
    apply Forall_app. split; [apply percent_component, Hb | exact IH].
  - unfold JsString.utf8.
    destruct (v <? 128); [discriminate|].
    destruct (v <? 2048); [discriminate|].
    destruct (v <? 65536); discriminate.
Qed.

Lemma encodeURIComponent_component (n : nat) :
  forall (s out : jsstring),
    (length s <= n)%nat ->
    Forall (fun c => c < 65536) s ->
    JsString.encodeURIComponent s = Some out ->
    Forall (fun c => component_char c = true) out /\ (s <> [] -> out <> []).
Proof.
  induction n as [|n IH]; intros s out Hlen Hwf Henc.
  - destruct s; [|simpl in Hlen; lia]. simpl in Henc. inversion Henc.
    split; [constructor | congruence].
  - destruct s as [|c s']; [inversion Henc; split; [constructor|congruence]|].
    simpl in Hlen. inversion Hwf as [|? ? Hc Hwf']. subst.
    cbn [JsString.encodeURIComponent] in Henc.
    destruct (JsString.uriUnescaped c) eqn:Hun.
    { destruct (JsString.encodeURIComponent s') as [o|] eqn:E; [|discriminate].
      inversion Henc. subst out.
      destruct (IH s' o ltac:(lia) Hwf' E) as [Hall _].
      split; [|discriminate].
      constructor; [unfold component_char; rewrite Hun; reflexivity | exact Hall]. }
    destruct (JsString.is_low_surrogate c); [discriminate|].
    destruct (JsString.is_high_surrogate c) eqn:Hhigh; cbn [negb] in Henc.
    + destruct s' as [|d s'']; [discriminate|].
      destruct (JsString.is_low_surrogate d) eqn:Hlow; [|discriminate].
      destruct (JsString.encodeURIComponent s'') as [o|] eqn:E; [|discriminate].
      inversion Henc. subst out.
      inversion Hwf' as [|? ? Hd Hwf'']. subst.
      simpl in Hlen.
      destruct (IH s'' o ltac:(lia) Hwf'' E) as [Hall _].
      unfold JsString.is_high_surrogate in Hhigh.
      unfold JsString.is_low_surrogate in Hlow.
      apply andb_true_iff in Hhigh. apply andb_true_iff in Hlow.
      destruct Hhigh as [Hh1 Hh2]. destruct Hlow as [Hl1 Hl2].
      apply N.leb_le in Hh1, Hh2, Hl1, Hl2.
      destruct (@escape_component ((c - 55296) * 1024 + (d - 56320) + 65536))
        as [Hesc Hne]; [lia|].
      split; [apply Forall_app; split; assumption|].
      intros _ Happ. apply app_eq_nil in Happ. tauto.
    + destruct (JsString.encodeURIComponent s') as [o|] eqn:E; [|discriminate].
      inversion Henc. subst out.
      destruct (IH s' o ltac:(lia) Hwf' E) as [Hall _].
      destruct (@escape_component c) as [Hesc Hne]; [lia|].
      split; [apply Forall_app; split; assumption|].
      intros _ Happ. apply app_eq_nil in Happ. tauto.
Qed.

Lemma trimStart_Forall (P : N -> Prop) (s : jsstring) :
  Forall P s -> Forall P (JsString.trimStart s).
Proof.
  induction 1 as [|c s Hc Hs IH]; simpl; [constructor|].
  destruct (JsString.is_whitespace c); [exact IH | constructor; assumption].
Qed.

Lemma trim_Forall (P : N -> Prop) (s : jsstring) :
  Forall P s -> Forall P (JsString.trim s).
Proof.
  intros H. unfold JsString.trim, JsString.trimEnd.
  apply Forall_rev, trimStart_Forall, Forall_rev, trimStart_Forall, H.
Qed.

Local Close Scope N_scope.
Local Open Scope Z_scope.

Section Facts.

Variable Json : Type.
Variable JSON_parse : jsstring -> Json + jsstring.
Variable config : SaavnApiConfig.
Variable net : Network.

(** A query that [validateAndSanitizeQuery] accepts has between 1 and 100
    code units once trimmed, and what it returns is not empty and is made
    of unreserved characters and percent escapes only: it holds no [&],
    [=], [?], [#], [/], [+] or space that could change the query string it
    is spliced into. *)
Theorem sanitized_query_is_url_safe (query sanitized : jsstring) :
  Forall (fun c => (c < 65536)%N) query ->
  @validateAndSanitizeQuery Json query = inr sanitized ->
  (1 <= length (JsString.trim query) <= 100)%nat /\
  sanitized <> [] /\
  Forall (fun c => component_char c = true) sanitized /\
  (forall c, In c sanitized ->
             ~ In c [38; 61; 63; 35; 47; 43; 32]%N).
Proof.
  intros Hwf Hval. unfold validateAndSanitizeQuery in Hval.
  destruct query as [|q0 query]; [discriminate|].
  destruct (Nat.eqb_spec (length (JsString.trim (q0 :: query))) 0)
    as [|Hne]; [discriminate|].
  destruct (Nat.ltb_spec 100 (length (JsString.trim (q0 :: query))))
    as [|Hle]; [discriminate|].
  destruct (JsString.encodeURIComponent (JsString.trim (q0 :: query)))
    as [encoded|] eqn:Henc; [|discriminate].
  inversion Hval. subst sanitized.
  destruct (@encodeURIComponent_component _ _ encoded (Nat.le_refl _)
              (@trim_Forall _ _ Hwf) Henc) as [Hall Hnonempty].
  split; [lia|]. split.
  - apply Hnonempty. intros Hnil. rewrite Hnil in Hne. apply Hne. reflexivity.
  - split; [exact Hall|].
    intros c Hin Hbad. rewrite Forall_forall in Hall.
    specialize (Hall c Hin).
    simpl in Hbad.
    destruct Hbad as [<- | [<- | [<- | [<- | [<- | [<- | [<- | []]]]]]]];
      discriminate Hall.
Qed.

(** *** The operations keyed by an id *)

Lemma id_operation_failure (id required : jsstring)
    (endpoint : jsstring -> jsstring) (failure operation : jsstring)
    (context : list (jsstring * ContextValue))
    (s : State) (thrown : Error Json) (s' : State) :
  id <> [] ->
  id_operation JSON_parse config net id required endpoint failure operation
    context s = (inl thrown, s') ->
  exists cause,
    thrown = SaavnApiError (failure ++ id) operation
               (context ++ [(js "error", CString (error_message cause))]) /\
    match JsString.encodeURIComponent id with
    | Some encoded =>
        makeRequest JSON_parse config net (endpoint encoded) s = (inl cause, s')
    | None => cause = URIError (js "URI malformed") /\ s' = s
    end.
Proof.
  intros Hid. unfold id_operation.
  destruct id as [|c id]; [contradiction|].
  unfold try_catch.
  destruct (JsString.encodeURIComponent (c :: id)) as [encoded|].
  - destruct (makeRequest JSON_parse config net (endpoint encoded) s)
      as [[cause|v] s1]; [|discriminate].
    unfold throw. intros H. inversion H. subst. exists cause. auto.
  - unfold throw. intros H. inversion H. subst.
    exists (URIError (js "URI malformed")). auto.
Qed.

(** The errors of [getSong], [getSongSuggestions], [getArtistById],
    [getArtistSongs] and [getArtistAlbums].  Without an id (the empty
    string) the operation throws its Validation error and leaves the state
    as it was: no rate-limit wait and no fetch.  With an id, whatever makes
    it fail, the caller gets a [SaavnApiError] carrying the name of the
    operation, never the [ApiResponseError] or [NetworkError] of the
    request nor a [URIError]. *)
Theorem id_operations_error_contract (id : jsstring)
    (limit page songCount albumCount : Z)
    (sortBy : SortBy) (sortOrder : SortOrder)
    (s : State) (thrown : Error Json) (s' : State) :
  let contract (run : (Error Json + Json) * State)
               (required operation : jsstring) :=
    run = (inl thrown, s') ->
    (id = [] /\ thrown = ValidationError required /\ s' = s) \/
    (id <> [] /\
     exists message context,
       thrown = SaavnApiError message operation context) in
  contract (getSong JSON_parse config net id s)
    (js "Song ID is required") (js "getSong") /\
  contract (getSongSuggestions JSON_parse config net id limit s)
    (js "Song ID is required") (js "getSongSuggestions") /\
  contract (getArtistById JSON_parse config net id page songCount albumCount
              sortBy sortOrder s)
    (js "Artist ID is required") (js "getArtistById") /\
  contract (getArtistSongs JSON_parse config net id page sortBy sortOrder s)
    (js "Artist ID is required") (js "getArtistSongs") /\
  contract (getArtistAlbums JSON_parse config net id page sortBy sortOrder s)
    (js "Artist ID is required") (js "getArtistAlbums").
Proof.
  cbv zeta.
  destruct id as [|c id].
  - repeat split; intros Hrun; left; inversion Hrun; auto.
  - assert (Hid : c :: id <> []) by discriminate.
    repeat split; intros Hrun; right; (split; [exact Hid|]);
      unfold getSong, getSongSuggestions, getArtistById, getArtistSongs,
        getArtistAlbums in Hrun;
      (apply id_operation_failure in Hrun; [|exact Hid]);
      destruct Hrun as (cause & -> & _); eauto.
Qed.

(** A string with a lone surrogate, which [encodeURIComponent] rejects,
    never reaches the network, and the two families of operations report
    it differently: [search] validates outside its [try] and lets the raw
    [URIError] out, [getSong] encodes inside its [try] and reports a
    [SaavnApiError] whose context says URI malformed. *)
Theorem malformed_string_never_requested (text : jsstring) (s : State) :
  (1 <= length (JsString.trim text) <= 100)%nat ->
  JsString.encodeURIComponent (JsString.trim text) = None ->
  JsString.encodeURIComponent text = None ->
  search JSON_parse config net text s
    = (inl (URIError (js "URI malformed")), s) /\
  getSong JSON_parse config net text s
    = (inl (SaavnApiError (js "Failed to fetch song with ID: " ++ text)
              (js "getSong")
              [(js "id", CString text);
               (js "error", CString (js "URI malformed"))]), s).
Proof.
  intros Hlen Htrim Hraw.
  assert (Hne : text <> []).
  { intros ->. simpl in Hlen. lia. }
  split.
  - unfold search, search_operation, validateAndSanitizeQuery.
    destruct text as [|c text]; [contradiction|].
    destruct (Nat.eqb_spec (length (JsString.trim (c :: text))) 0); [lia|].
    destruct (Nat.ltb_spec 100 (length (JsString.trim (c :: text)))); [lia|].
    rewrite Htrim. reflexivity.
  - unfold getSong, id_operation.
    destruct text as [|c text]; [contradiction|].
    unfold try_catch. rewrite Hraw. reflexivity.
Qed.

(** *** The hooks *)

Lemma validate_failure (query : jsstring) (thrown : Error Json) :
  @validateAndSanitizeQuery Json query = inl thrown ->
  In (hook_errorMessage thrown)
     [js "Query parameter is required and must be a string";
      js "Query parameter cannot be empty";
      js "Query parameter too long (max 100 characters)";
      js "URI malformed"].
Proof.
  unfold validateAndSanitizeQuery.
  destruct query as [|c query].
  { intros H. inversion H. simpl. auto. }
  destruct (length (JsString.trim (c :: query)) =? 0)%nat.
  { intros H. inversion H. simpl. auto. }
  destruct (100 <? length (JsString.trim (c :: query)))%nat.
  { intros H. inversion H. simpl. auto. }
  destruct (JsString.encodeURIComponent (JsString.trim (c :: query)));
    [discriminate|].
  intros H. inversion H. simpl. auto.
Qed.

(** Whatever the query, the id and the network, a call through
    [useSearch] or [useSong] ends with [loading] false, and either with the
    data and no error, or with the data it had before and one of a few
    fixed messages: the text of the validation error, URI malformed, or
    the message of [SaavnApiError].  The guidance [ApiResponseError] and
    [NetworkError] hold for a 404, a 429, a server error or a network
    failure is never what these hooks show. *)
Theorem hooks_show_only_fixed_messages (query id : jsstring)
    (prev : ApiHookState Json) (s : State) :
  let shows (h : ApiHookState Json) (messages : list jsstring) :=
    loading h = false /\
    ((exists result, data h = Some result /\ error h = None) \/
     (data h = data prev /\
      exists message, error h = Some message /\ In message messages)) in
  shows (fst (useSearch_search JSON_parse config net query prev s))
    [js "Query parameter is required and must be a string";
     js "Query parameter cannot be empty";
     js "Query parameter too long (max 100 characters)";
     js "URI malformed";
     js "API request failed. Please try again."] /\
  shows (fst (useSong_getSong JSON_parse config net id prev s))
    [js "Song ID is required";
     js "API request failed. Please try again."].
Proof.
  cbv zeta. split.
  - unfold useSearch_search, execute, search, search_operation.
    destruct (@validateAndSanitizeQuery Json query) as [thrown|sanitized] eqn:Hv.
    + unfold throw. cbn [fst loading data error pending].
      split; [reflexivity|]. right. split; [reflexivity|].
      eexists. split; [reflexivity|].
      pose proof (validate_failure _ Hv) as Hin. simpl in Hin. simpl.
      tauto.
    + unfold try_catch.
      destruct (makeRequest JSON_parse config net
                  (js "/api/search?query=" ++ sanitized) s) as [[cause|v] s1];
        unfold throw; cbn [fst loading data error pending].
      * split; [reflexivity|]. right. split; [reflexivity|].
        eexists. split; [reflexivity|]. simpl. tauto.
      * split; [reflexivity|]. left. eauto.
  - unfold useSong_getSong, execute, getSong, id_operation.
    destruct id as [|c id].
    + unfold throw. cbn [fst loading data error pending].
      split; [reflexivity|]. right. split; [reflexivity|].
      eexists. split; [reflexivity|]. simpl. auto.
    + unfold try_catch.
      destruct (JsString.encodeURIComponent (c :: id)) as [encoded|].
      * destruct (makeRequest JSON_parse config net
                    (js "/api/songs/" ++ encoded) s) as [[cause|v] s1];
          unfold throw; cbn [fst loading data error pending].
        -- split; [reflexivity|]. right. split; [reflexivity|].
           eexists. split; [reflexivity|]. simpl. auto.
        -- split; [reflexivity|]. left. eauto.
      * unfold throw. cbn [fst loading data error pending].
        split; [reflexivity|]. right. split; [reflexivity|].
        eexists. split; [reflexivity|]. simpl. auto.
Qed.

End Facts.

(** The query [a&b = c], padded with spaces, is accepted and escaped. *)
Lemma sanitized_query_is_url_safe_witness :
  @validateAndSanitizeQuery (list N) (js "  a&b = c ")
    = inr (js "a%26b%20%3D%20c") /\
  ~ In 38%N (js "a%26b%20%3D%20c").
Proof.
  split; [reflexivity|].
  destruct (@sanitized_query_is_url_safe (list N) (js "  a&b = c ")
              (js "a%26b%20%3D%20c"))
    as (_ & _ & _ & Hnone).
  - repeat constructor.
  - reflexivity.
  - intros Hin. apply (Hnone 38%N Hin). left. reflexivity.
Defined.

(** A song id that does not exist: the 404 comes back as the
    [SaavnApiError] of [getSong]; no id at all is a Validation error. *)
Lemma id_operations_error_contract_witness :
  (exists message context,
      SaavnApiError (js "Failed to fetch song with ID: none") (js "getSong")
        [(js "id", CString (js "none"));
         (js "error", CString (js "HTTP 404: Request failed"))]
      = @SaavnApiError (list N) message (js "getSong") context) /\
  fst (getSong sample_JSON_parse (DEFAULT_CONFIG false) (always not_found)
         [] (fresh 5000))
  = inl (ValidationError (js "Song ID is required")).
Proof.
  destruct (@id_operations_error_contract _ sample_JSON_parse
              (DEFAULT_CONFIG false) (always not_found) (js "none")
              10 0 10 10 popularity desc (fresh 5000)
              (SaavnApiError (js "Failed to fetch song with ID: none")
                 (js "getSong")
                 [(js "id", CString (js "none"));
                  (js "error", CString (js "HTTP 404: Request failed"))])
              (snd (getSong sample_JSON_parse (DEFAULT_CONFIG false)
                      (always not_found) (js "none") (fresh 5000))))
    as (Hsong & _).
  destruct (Hsong eq_refl) as [(Hnil & _) | (_ & Hshape)].
  - discriminate Hnil.
  - split; [exact Hshape | reflexivity].
Defined.

(** A lone high surrogate as query and as id. *)
Lemma malformed_string_never_requested_witness :
  search sample_JSON_parse (DEFAULT_CONFIG false) (always not_found)
    lone_surrogate (fresh 5000)
  = (inl (URIError (js "URI malformed")), fresh 5000) /\
  fst (getSong sample_JSON_parse (DEFAULT_CONFIG false) (always not_found)
         lone_surrogate (fresh 5000))
  = inl (SaavnApiError (js "Failed to fetch song with ID: " ++ lone_surrogate)
           (js "getSong")
           [(js "id", CString lone_surrogate);
            (js "error", CString (js "URI malformed"))]).
Proof.
  destruct (@malformed_string_never_requested _ sample_JSON_parse
              (DEFAULT_CONFIG false) (always not_found) lone_surrogate
              (fresh 5000))
    as (Hsearch & Hsong).
  - simpl. lia.
  - reflexivity.
  - reflexivity.
  - split; [exact Hsearch | rewrite Hsong; reflexivity].
Defined.

(** A search answered by a 404: the hook shows the message of
    [SaavnApiError], not the not-found guidance. *)
Lemma hooks_show_only_fixed_messages_witness :
  error (fst (useSearch_search sample_JSON_parse (DEFAULT_CONFIG false)
                (always not_found) (js "abc") (idle (list N)) (fresh 5000)))
  = Some (js "API request failed. Please try again.") /\
  loading (fst (useSearch_search sample_JSON_parse (DEFAULT_CONFIG false)
                  (always not_found) (js "abc") (idle (list N)) (fresh 5000)))
  = false.
Proof.
  destruct (@hooks_show_only_fixed_messages _ sample_JSON_parse
              (DEFAULT_CONFIG false) (always not_found) (js "abc") (js "none")
              (idle (list N)) (fresh 5000)) as ((Hloading & _) & _).
  split; [reflexivity | exact Hloading].
Defined.

End ApiOperationsFacts.

(* ================================================================== *)
(** ** Properties of the proxy *)
(* ================================================================== *)

Module ProxyFacts.

Import ApiOperations Proxy.

(** *** What the serializer writes *)

Local Open Scope N_scope.

Lemma hexDigit_plain (d : N) :
  JsString.hexDigit d <> 38 /\ JsString.hexDigit d <> 61.
Proof.
  unfold JsString.hexDigit. destruct (N.ltb_spec d 10); split; lia.
Qed.

Lemma form_byte_plain (b : N) :
  Forall (fun c => c <> 38 /\ c <> 61) (form_byte b).
Proof.
  unfold form_byte. destruct (b =? 32).
  - repeat constructor; discriminate.
  - destruct (form_unescaped b) eqn:E.
    + constructor; [|constructor].
      split; intros ->; discriminate.
    + unfold JsString.percent.
      repeat constructor; try discriminate; apply hexDigit_plain.
Qed.

Lemma form_urlencode_plain (s : jsstring) :
  Forall (fun c => c <> 38 /\ c <> 61) (form_urlencode s).
Proof.
  unfold form_urlencode.
  induction (flat_map JsString.utf8 (to_scalar_values s)) as [|b bytes IH].
  - constructor.
  - cbn [flat_map]. apply Forall_app. split; [apply form_byte_plain | exact IH].
Qed.

(** *** Splitting what was joined *)

Lemma split_on_piece (separator : N) (piece : jsstring) :
  Forall (fun c => c <> separator) piece ->
  split_on separator piece = [piece].
Proof.
  induction piece as [|c piece IH]; intros Hplain; [reflexivity|].
  inversion Hplain as [|? ? Hc Hrest]; subst.
  cbn [split_on]. apply N.eqb_neq in Hc. rewrite Hc, (IH Hrest). reflexivity.
Qed.

Lemma split_on_app (separator : N) (piece rest : jsstring) :
  Forall (fun c => c <> separator) piece ->
  split_on separator (piece ++ separator :: rest)
  = piece :: split_on separator rest.
Proof.
  induction piece as [|c piece IH]; intros Hplain.
  - cbn [app split_on]. rewrite N.eqb_refl. reflexivity.
  - inversion Hplain as [|? ? Hc Hrest]; subst.
    cbn [app split_on]. apply N.eqb_neq in Hc. rewrite Hc, (IH Hrest).
    reflexivity.
Qed.

Lemma piece_name_app (name value : jsstring) :
  Forall (fun c => c <> 61) name ->
  piece_name (name ++ 61 :: value) = name.
Proof.
  induction name as [|c name IH]; intros Hplain; [reflexivity|].
  inversion Hplain as [|? ? Hc Hrest]; subst.
  cbn [app piece_name]. apply N.eqb_neq in Hc. rewrite Hc, (IH Hrest).
  reflexivity.
Qed.

(** The names written in the serialization of a list of parameters that
    is not empty are the encoded names of the parameters, in order. *)
Lemma written_names_toString (param : jsstring * jsstring)
    (params : list (jsstring * jsstring)) :
  written_names (URLSearchParams_toString (param :: params))
  = map (fun entry => form_urlencode (fst entry)) (param :: params).
Proof.
  unfold written_names. revert param.
  induction params as [|next params IH]; intros [name value].
  - change (URLSearchParams_toString [(name, value)])
      with (form_urlencode name ++ 61 :: form_urlencode value).
    cbn [map fst]. rewrite split_on_piece.
    + cbn [map]. rewrite piece_name_app; [reflexivity|].
      eapply Forall_impl; [|apply form_urlencode_plain]. intros c [_ H]; exact H.
    + apply Forall_app. split.
      * eapply Forall_impl; [|apply form_urlencode_plain].
        intros c [H _]; exact H.
      * constructor; [discriminate|].
        eapply Forall_impl; [|apply form_urlencode_plain].
        intros c [H _]; exact H.
  - change (URLSearchParams_toString ((name, value) :: next :: params))
      with (form_urlencode name ++ [61] ++ form_urlencode value ++ [38]
              ++ URLSearchParams_toString (next :: params)).
    replace (form_urlencode name ++ [61] ++ form_urlencode value ++ [38]
               ++ URLSearchParams_toString (next :: params))
      with ((form_urlencode name ++ 61 :: form_urlencode value)
              ++ 38 :: URLSearchParams_toString (next :: params))
      by (rewrite <- !app_assoc; reflexivity).
    rewrite split_on_app.
    + cbn [map fst]. rewrite (IH next). cbn [map fst].
      rewrite piece_name_app; [reflexivity|].
      eapply Forall_impl; [|apply form_urlencode_plain]. intros c [_ H]; exact H.
    + apply Forall_app. split.
      * eapply Forall_impl; [|apply form_urlencode_plain].
        intros c [H _]; exact H.
      * constructor; [discriminate|].
        eapply Forall_impl; [|apply form_urlencode_plain].
        intros c [H _]; exact H.
Qed.

(** *** A name that is written as a plain word is that word *)

Lemma form_bytes_word (bytes word : list N) :
  Forall lowercase word -> flat_map form_byte bytes = word -> bytes = word.
Proof.
  revert word. induction bytes as [|b bytes IH]; intros word Hword Heq.
  - exact Heq.
  - cbn [flat_map] in Heq. unfold form_byte in Heq at 1.
    destruct (N.eqb_spec b 32) as [->|Hb].
    + subst word. cbn [app] in Hword. apply Forall_inv in Hword.
      unfold lowercase in Hword. lia.
    + destruct (form_unescaped b).
      * destruct word as [|c word]; [discriminate|].
        cbn [app] in Heq. injection Heq as -> Heq.
        inversion Hword; subst. f_equal. apply IH; [assumption | reflexivity].
      * subst word. cbn [app JsString.percent] in Hword.
        apply Forall_inv in Hword. unfold lowercase in Hword. lia.
Qed.

Lemma utf8_word (scalars word : list N) :
  Forall lowercase word -> flat_map JsString.utf8 scalars = word -> scalars = word.
Proof.
  revert word. induction scalars as [|v scalars IH]; intros word Hword Heq.
  - exact Heq.
  - cbn [flat_map] in Heq. unfold JsString.utf8 in Heq at 1.
    destruct (N.ltb_spec v 128).
    + destruct word as [|c word]; [discriminate|].
      cbn [app] in Heq. injection Heq as -> Heq.
      inversion Hword; subst. f_equal. apply IH; [assumption | reflexivity].
    + destruct (v <? 2048); [|destruct (v <? 65536)];
        subst word; cbn [app] in Hword; apply Forall_inv in Hword;
        unfold lowercase in Hword;
        match type of Hword with
        | _ <= ?a + ?b <= _ => pose proof (N.le_add_r a b)
        end; lia.
Qed.

Lemma scalar_values_word (name word : jsstring) :
  Forall lowercase word -> to_scalar_values name = word -> name = word.
Proof.
  revert word. induction name as [|c name IH]; intros word Hword Heq;
    [exact Heq|].
  cbn [to_scalar_values] in Heq.
  destruct (JsString.is_high_surrogate c) eqn:Ehigh.
  - exfalso. destruct name as [|d name].
    + subst word. cbn [app] in Hword. apply Forall_inv in Hword.
      unfold lowercase in Hword. lia.
    + destruct (JsString.is_low_surrogate d);
        subst word; inversion Hword as [|? ? Hc _]; subst;
        unfold lowercase in Hc; lia.
  - destruct (JsString.is_low_surrogate c).
    + subst word. cbn [app] in Hword. apply Forall_inv in Hword.
      unfold lowercase in Hword. lia.
    + destruct word as [|w word]; [discriminate|].
      injection Heq as -> Heq. inversion Hword; subst. f_equal.
      apply IH; [assumption | reflexivity].
Qed.

Lemma form_urlencode_word (name word : jsstring) :
  Forall lowercase word -> form_urlencode name = word -> name = word.
Proof.
  intros Hword Heq. unfold form_urlencode in Heq.
  apply (@form_bytes_word _ _ Hword) in Heq.
  apply (@utf8_word _ _ Hword) in Heq.
  apply (@scalar_values_word _ _ Hword Heq).
Qed.

Local Close Scope N_scope.

Section Facts.

Variable Json : Type.
Variable JSON_parse : jsstring -> Json + jsstring.
Variable upstream : jsstring -> jsstring -> Upstream.

(** Every response of the handler carries the four CORS headers, and an
    OPTIONS request is answered with 200 and no body without any fetch,
    whatever its path and parameters. *)
Theorem proxy_preflight_and_cors (req : Request) :
  headers (fst (handler JSON_parse upstream req)) = cors_headers /\
  (method req = js "OPTIONS" ->
   handler JSON_parse upstream req
   = ({| headers := cors_headers; statusCode := 200%Z; body := Ended |}, [])).
Proof.
  unfold handler. split.
  - destruct (jsstring_eqb (method req) (js "OPTIONS")); [reflexivity|].
    cbn [fst].
    destruct (upstream (apiUrl req) (method req)) as [m|st text];
      [reflexivity|].
    destruct (JSON_parse text); reflexivity.
  - intros ->. reflexivity.
Qed.

Lemma forwarded_params_without_path (req : Request) :
  Forall (fun param => fst param <> js "path") (forwarded_params req).
Proof.
  unfold forwarded_params. apply Forall_forall. intros [name value] Hin.
  apply in_map_iff in Hin. destruct Hin as ([key v] & Heq & Hin).
  apply filter_In in Hin. destruct Hin as [_ Hkeep].
  inversion Heq. subst. cbn [fst] in *.
  intros Hpath. rewrite Hpath, PlayerMore.jsstring_eqb_refl in Hkeep.
  discriminate.
Qed.

(** No name written in the query string of the forwarded URL is [path]. *)
Lemma written_names_without_path (req : Request) :
  Forall (fun name => name <> js "path")
         (written_names (URLSearchParams_toString (forwarded_params req))).
Proof.
  pose proof (forwarded_params_without_path req) as Hparams.
  destruct (forwarded_params req) as [|param params].
  - repeat constructor. discriminate.
  - rewrite written_names_toString. apply Forall_forall.
    intros name Hin. apply in_map_iff in Hin.
    destruct Hin as (entry & <- & Hin).
    rewrite Forall_forall in Hparams. specialize (Hparams entry Hin).
    intros Hword. apply Hparams.
    apply form_urlencode_word; [|exact Hword].
    change (js "path") with [112; 97; 116; 104]%N.
    repeat (apply Forall_cons; [unfold lowercase; lia|]). apply Forall_nil.
Qed.

(** A request other than OPTIONS is forwarded exactly once, with its own
    method, to the URL made of the fixed origin https://saavn.sumit.co, of
    a path that starts with a slash and, when parameters are forwarded, of
    a question mark and their serialization.  No parameter written in that
    query string is named [path]: the routing parameter is not forwarded.
    The response is fixed by what the upstream does: when the fetch
    rejects, a 500 with the message of the error; when it responds with a
    body that parses, the upstream status and the parsed body; when the
    body does not parse, a 500 with the message of the parse error. *)
Theorem proxy_forwards_to_fixed_origin (req : Request) :
  method req <> js "OPTIONS" ->
  let res := fst (handler JSON_parse upstream req) in
  let queryString := URLSearchParams_toString (forwarded_params req) in
  let url :=
    js "https://saavn.sumit.co" ++ apiPath req
      ++ match queryString with [] => [] | _ :: _ => js "?" ++ queryString end in
  snd (handler JSON_parse upstream req) = [(url, method req)] /\
  (exists rest, apiPath req = js "/" ++ rest) /\
  Forall (fun name => name <> js "path") (written_names queryString) /\
  (forall message,
      upstream url (method req) = FetchRejects message ->
      statusCode res = 500%Z /\ body res = ProxyError message) /\
  (forall st text data,
      upstream url (method req) = FetchResponds st text ->
      JSON_parse text = inl data ->
      statusCode res = st /\ body res = JsonBody data) /\
  (forall st text message,
      upstream url (method req) = FetchResponds st text ->
      JSON_parse text = inr message ->
      statusCode res = 500%Z /\ body res = ProxyError message).
Proof.
  intros Hmethod. cbv zeta.
  assert (Hurl :
    js "https://saavn.sumit.co" ++ apiPath req
      ++ match URLSearchParams_toString (forwarded_params req) with
         | [] => []
         | _ :: _ => js "?" ++ URLSearchParams_toString (forwarded_params req)
         end
    = apiUrl req).
  { unfold apiUrl, queryPart.
    destruct (URLSearchParams_toString (forwarded_params req)); reflexivity. }
  rewrite Hurl. unfold handler.
  destruct (jsstring_eqb (method req) (js "OPTIONS")) eqn:E.
  { apply PlayerMore.jsstring_eqb_eq in E. contradiction. }
  cbn [fst snd]. split; [reflexivity|]. split.
  { unfold apiPath.
    destruct (lookup (js "path") (query req)) as [[[|c rest]|segments]|];
      eexists; reflexivity. }
  split; [apply written_names_without_path|].
  destruct (upstream (apiUrl req) (method req)) as [m|st text].
  - split; [|split].
    + intros message Hup. injection Hup as <-. split; reflexivity.
    + intros st text data Hup. discriminate.
    + intros st text message Hup. discriminate.
  - split; [|split].
    + intros message Hup. discriminate.
    + intros st' text' data Hup Hparse. injection Hup as <- <-.
      rewrite Hparse. split; reflexivity.
    + intros st' text' message Hup Hparse. injection Hup as <- <-.
      rewrite Hparse. split; reflexivity.
Qed.

End Facts.

(** The sample request is forwarded to the search endpoint with its two
    other parameters, and the upstream 404 is relayed with its body. *)
Lemma proxy_forwards_to_fixed_origin_witness :
  snd (handler sample_JSON_parse_for_proxy sample_upstream sample_request)
  = [(js "https://saavn.sumit.co/search/songs?query=a+b&page=1", js "GET")] /\
  written_names (js "query=a+b&page=1") = [js "query"; js "page"] /\
  statusCode (fst (handler sample_JSON_parse_for_proxy sample_upstream
                     sample_request)) = 404%Z /\
  body (fst (handler sample_JSON_parse_for_proxy sample_upstream
               sample_request)) = JsonBody (js "{}").
Proof.
  destruct (@proxy_forwards_to_fixed_origin _ sample_JSON_parse_for_proxy
              sample_upstream sample_request)
    as (Hfetch & _ & _ & _ & Hrelay & _).
  - discriminate.
  - split; [exact Hfetch|]. split; [reflexivity|].
    apply (Hrelay 404%Z (js "{}") (js "{}")); reflexivity.
Defined.

(** An OPTIONS request to the same path. *)
Lemma proxy_preflight_and_cors_witness :
  handler sample_JSON_parse_for_proxy sample_upstream
    {| method := js "OPTIONS"; query := query sample_request |}
  = ({| headers := cors_headers; statusCode := 200%Z; body := Ended |}, []).
Proof.
  apply (proj2 (@proxy_preflight_and_cors _ sample_JSON_parse_for_proxy
                  sample_upstream
                  {| method := js "OPTIONS"; query := query sample_request |})).
  reflexivity.
Defined.

End ProxyFacts.
